(** * The BibTeX parser and publication renderer of the portfolio site

    A shallow embedding of [js/bibtex-parser.js] (class [BibtexParser]) and of
    the pure routines of the publication page ([formatAuthors],
    [formatAuthorsWithLinks], [boldAbbreviations], the citation template of
    [showBibtex], the key of the cite links and the year groups of
    [renderPublications]), followed by the properties of the specification
    that concern them and by further properties of the same code.

    JavaScript strings are sequences of UTF-16 code units; a code unit is a
    number [N] and a string is a [list N].  Objects used as dictionaries are
    finite maps from property names to strings.  Arrays that the parser holds
    and hands out live in a heap, so that aliasing (the same array object held
    by the parser and returned to the caller) is visible. *)

From Stdlib Require Import ZArith NArith Lia Sorting.Sorted Sorting.Permutation.
From stdpp Require Import base option list strings gmap.

Local Open Scope N_scope.
Set Warnings "-clear-no-such-hyp".

(** ** Strings *)

(** [lit s] is the JavaScript string literal with the (ASCII) characters of [s]. *)
Definition lit (s : string) : list N :=
  Ascii.N_of_ascii <$> String.list_ascii_of_string s.

(** Characters that cannot be written inside a literal here. *)
Definition quote : N := 34.      (* the double quote *)
Definition newline : N := 10.
Definition envelope : N := 9993. (* U+2709, the envelope of the page source *)

Module Chars.

(** [\w] of a regular expression without the [u] and [i] flags. *)
Definition isWord (c : N) : bool :=
  ((65 <=? c) && (c <=? 90)) || ((97 <=? c) && (c <=? 122))
  || ((48 <=? c) && (c <=? 57)) || (c =? 95).

(** LineTerminator: LF, CR, U+2028, U+2029.  The dot of a regular
    expression matches every code unit except these, and [$] under the
    [m] flag matches before each of them. *)
Definition isLineTerminator (c : N) : bool :=
  (c =? 10) || (c =? 13) || (c =? 8232) || (c =? 8233).

(** [\s], which is also the set removed by [String.prototype.trim] and
    skipped by [parseInt]: WhiteSpace and LineTerminator. *)
Definition isSpace (c : N) : bool :=
  ((9 <=? c) && (c <=? 13)) || (c =? 32) || (c =? 160) || (c =? 5760)
  || ((8192 <=? c) && (c <=? 8202)) || (c =? 8232) || (c =? 8233)
  || (c =? 8239) || (c =? 8287) || (c =? 12288) || (c =? 65279).

(** Lower-casing of one code unit of the ASCII range.  The parser applies
    [toLowerCase] only to what [\w+] matched, where this is all of it. *)
Definition lower (c : N) : N :=
  if (65 <=? c) && (c <=? 90) then c + 32 else c.

End Chars.
Import Chars.

(** Longest prefix whose characters satisfy [p], and what follows it: a
    greedy [c*] for a character class [c]. *)
Fixpoint while (p : N → bool) (s : list N) : list N :=
  match s with
  | c :: s' => if p c then c :: while p s' else []
  | [] => []
  end.

Fixpoint skip (p : N → bool) (s : list N) : list N :=
  match s with
  | c :: s' => if p c then skip p s' else s
  | [] => []
  end.

Definition toLowerCase (s : list N) : list N := lower <$> s.

Definition trimStart (s : list N) : list N := skip isSpace s.
Definition trimEnd (s : list N) : list N := reverse (skip isSpace (reverse s)).
Definition trim (s : list N) : list N := trimEnd (trimStart s).

(** ** [parse]: comment removal

    [bibtex.replace(/%.*$/gm, '')]: from each percent sign the greedy [.*]
    runs to the next line terminator (or the end), where [$] holds; the match
    is deleted and the search resumes behind it. *)
Definition percent : N := 37.

Fixpoint stripFrom (inComment : bool) (s : list N) : list N :=
  match s with
  | [] => []
  | c :: s' =>
      if inComment then
        if isLineTerminator c then c :: stripFrom false s' else stripFrom true s'
      else if c =? percent then stripFrom true s'
      else c :: stripFrom false s'
  end.

Definition stripComments (s : list N) : list N := stripFrom false s.

(** ** [parse]: the entry expression

    The expression, written with blanks between its parts, is
    [@ (\w+) \s* { \s* ( [^,]* ) , \s* ( [\s\S]*? ) (?= \s*@ | \s*$ )]
    with the [g] flag.  An attempt at one start position takes the first
    path that succeeds, and that is the one with the longest run for every
    greedy star: up to the brace each star is followed by a character
    outside its class, the key runs to the first comma, and behind the comma
    nothing can fail (the lazy group can always run to the end of the
    input), so no star is ever asked to give characters back. *)
Record EntryMatch := {
  m_type : list N;   (* group 1 *)
  m_key : list N;    (* group 2 *)
  m_body : list N;   (* group 3 *)
  m_len : nat        (* length of the whole match *)
}.

Definition at_sign : N := 64.
Definition lbrace : N := 123.
Definition rbrace : N := 125.
Definition comma : N := 44.
Definition equals : N := 61.

Definition notComma (c : N) : bool := negb (c =? comma).

(** The lookahead [(?= \s*@ | \s*$ )]: after the white space comes an at sign
    or the end of the input (no [m] flag here). *)
Definition lookahead (s : list N) : bool :=
  match skip isSpace s with
  | [] => true
  | c :: _ => c =? at_sign
  end.

(** The lazy group [( [\s\S]*? )] in front of the lookahead: the shortest run after
    which the lookahead holds.  It returns the run and the rest. *)
Fixpoint lazyBody (s : list N) : list N * list N :=
  match s with
  | [] => ([], [])
  | c :: s' =>
      if lookahead s then ([], s)
      else let '(b, r) := lazyBody s' in (c :: b, r)
  end.

(** One attempt of the entry expression at the head of [s]. *)
Definition matchEntryAt (s : list N) : option EntryMatch :=
  match s with
  | c :: s1 =>
      if c =? at_sign then
        match while isWord s1 with
        | [] => None
        | ty =>
            match skip isSpace (skip isWord s1) with
            | b :: s2 =>
                if b =? lbrace then
                  let s3 := skip isSpace s2 in
                  match skip notComma s3 with
                  | _ :: s4 =>
                      let s5 := skip isSpace s4 in
                      let '(body, rest) := lazyBody s5 in
                      Some {| m_type := ty;
                              m_key := while notComma s3;
                              m_body := body;
                              m_len := (length s - length rest)%nat |}
                  | [] => None
                  end
                else None
            | [] => None
            end
        end
      else None
  | [] => None
  end.

(** The [while ((match = entryRegex.exec(bibtex)) !== null)] loop.  With the
    [g] flag each [exec] starts at [lastIndex], the end of the previous match,
    and tries the start positions from there one after the other.
    [skipN] counts the characters still covered by the previous match. *)
Fixpoint scanEntries (skipN : nat) (s : list N) : list EntryMatch :=
  match s with
  | [] => []
  | _ :: s' =>
      match skipN with
      | S k => scanEntries k s'
      | O =>
          match matchEntryAt s with
          | Some m => m :: scanEntries (m_len m - 1) s'
          | None => scanEntries 0 s'
          end
      end
  end.

Definition execAll (s : list N) : list EntryMatch := scanEntries 0 s.

(** ** [parseFields]

    The expression, written with blanks between its parts and Q for the
    double quote, is [(\w+) \s* = \s* [{Q] ( .*? ) [Q}]] with the [g] flag:
    the opener is one of the brace and the quote, the value is the shortest
    run of characters other than line terminators, and the closer is one of
    the quote and the closing brace. *)
Record FieldMatch := {
  f_name : list N;   (* group 1 *)
  f_value : list N;  (* group 2 *)
  f_len : nat
}.

Definition isOpener (c : N) : bool := (c =? lbrace) || (c =? quote).
Definition isCloser (c : N) : bool := (c =? quote) || (c =? rbrace).

(** The lazy group [( .*? )] and the closer after it: the value and the rest behind
    the closer, or nothing when a line terminator or the end comes first. *)
Fixpoint lazyValue (s : list N) : option (list N * list N) :=
  match s with
  | [] => None
  | c :: s' =>
      if isCloser c then Some ([], s')
      else if isLineTerminator c then None
      else match lazyValue s' with
           | Some (v, r) => Some (c :: v, r)
           | None => None
           end
  end.

Definition matchFieldAt (s : list N) : option FieldMatch :=
  match while isWord s with
  | [] => None
  | name =>
      match skip isSpace (skip isWord s) with
      | e :: s1 =>
          if e =? equals then
            match skip isSpace s1 with
            | o :: s2 =>
                if isOpener o then
                  match lazyValue s2 with
                  | Some (v, rest) =>
                      Some {| f_name := name; f_value := v;
                              f_len := (length s - length rest)%nat |}
                  | None => None
                  end
                else None
            | [] => None
            end
          else None
      | [] => None
      end
  end.

Fixpoint scanFields (skipN : nat) (s : list N) : list FieldMatch :=
  match s with
  | [] => []
  | _ :: s' =>
      match skipN with
      | S k => scanFields k s'
      | O =>
          match matchFieldAt s with
          | Some m => m :: scanFields (f_len m - 1) s'
          | None => scanFields 0 s'
          end
      end
  end.

(** [fields[fieldName] = fieldValue] on an object literal: an assignment to
    [__proto__] reaches the setter of [Object.prototype], which ignores a
    string; every other name becomes (or overwrites) an own property. *)
Definition setField (fields : gmap (list N) (list N)) (m : FieldMatch)
  : gmap (list N) (list N) :=
  let fieldName := toLowerCase (f_name m) in
  let fieldValue := trim (f_value m) in
  if decide (fieldName = lit "__proto__") then fields
  else <[fieldName := fieldValue]> fields.

Definition parseFields (content : list N) : gmap (list N) (list N) :=
  foldl setField ∅ (scanFields 0 content).

(** ** Entries, the heap and the parser object *)

(** An entry is the object [{type, citeKey, ...fields}]: a dictionary from
    property names to strings. *)
Abbreviation Entry := (gmap (list N) (list N)).

(** The heap holds the array objects of entries; a reference is the index
    of its array.  A new array is appended, so it gets a reference that no
    existing array has. *)
Abbreviation Heap := (list (list (gmap (list N) (list N)))).

Definition alloc (l : list Entry) (h : Heap) : nat * Heap :=
  (length h, h ++ [l]).

(** [this.entries] is a reference; [this.errors] is kept as the list of its
    messages: that array is replaced by [parse] and read by [getErrors], and
    no claim depends on its identity. *)
Record BibtexParser := {
  entries : nat;
  errors : list (list N)
}.

(** The array that the parser holds. *)
Definition held (p : BibtexParser) (h : Heap) : list Entry :=
  default [] (h !! entries p).

(** The constructor: two new empty arrays. *)
Definition new_BibtexParser (h : Heap) : BibtexParser * Heap :=
  let '(r, h') := alloc [] h in
  ({| entries := r; errors := [] |}, h').

(** A call or a block either completes with a value or throws an error,
    of which the message is kept. *)
Inductive Result (A : Type) :=
| Return (a : A)
| Throw (message : list N).
Arguments Return {A} a.
Arguments Throw {A} message.

(** [Array.prototype.includes] on an array of strings. *)
Definition includes (l : list (list N)) (x : list N) : bool :=
  bool_decide (x ∈ l).

Definition acceptedTypes : list (list N) :=
  [lit "article"; lit "inproceedings"; lit "conference"; lit "book";
   lit "techreport"; lit "phdthesis"; lit "mastersthesis"; lit "misc"].

(** The object literal [{type, citeKey, ...fields}]: the spread copies the
    own properties of [fields] over the two written first, so a field named
    [type] replaces the type of the block. *)
Definition mkEntry (type citeKey : list N) (fields : Entry) : Entry :=
  fields ∪ <[lit "citeKey" := citeKey]> (<[lit "type" := type]> ∅).

(** What one match contributes: an entry when its type is accepted. *)
Definition entryOfMatch (m : EntryMatch) : option Entry :=
  let type := toLowerCase (m_type m) in
  let citeKey := trim (m_key m) in
  let content := trim (m_body m) in
  if includes acceptedTypes type
  then Some (mkEntry type citeKey (parseFields content))
  else None.

(** [this.entries.push(e)] on the array at [r]. *)
Definition push (r : nat) (e : Entry) (h : Heap) : Heap :=
  alter (λ l, l ++ [e]) r h.

(** The body of the [try]: an accepted block is pushed.  Nothing in it can
    throw on strings (the groups of a match are strings, and [toLowerCase],
    [trim], [exec], the property assignment and [push] do not throw), so it
    always completes. *)
Definition tryBlock (r : nat) (m : EntryMatch) (h : Heap) : Result Heap :=
  Return (match entryOfMatch m with
          | Some e => push r e h
          | None => h
          end).

(** The four characters and the colon in front of the message of a caught
    error. *)
Definition errorPrefix : list N := [35299; 26512; 38169; 35823; 58; 32].

(** One round of the loop, [try] and [catch]: the state is the error list
    and the heap. *)
Definition processBlock (r : nat) (st : list (list N) * Heap) (m : EntryMatch)
  : list (list N) * Heap :=
  match tryBlock r m st.2 with
  | Return h' => (st.1, h')
  | Throw message => (st.1 ++ [errorPrefix ++ message], st.2)
  end.

(** [parse(bibtex)]: the returned reference, the parser afterwards and the
    heap afterwards. *)
Definition parse (bibtex : list N) (p : BibtexParser) (h : Heap)
  : nat * BibtexParser * Heap :=
  let '(r, h1) := alloc [] h in
  let bibtex := stripComments bibtex in
  let '(errs, h2) := foldl (processBlock r) ([], h1) (execAll bibtex) in
  (r, {| entries := r; errors := errs |}, h2).

Definition getEntries (p : BibtexParser) : nat := entries p.
Definition getErrors (p : BibtexParser) : list (list N) := errors p.

(** ** [sortByYear] *)

Definition digitVal (radix c : N) : option N :=
  let v :=
    if (48 <=? c) && (c <=? 57) then Some (c - 48)
    else if (97 <=? c) && (c <=? 122) then Some (c - 87)
    else if (65 <=? c) && (c <=? 90) then Some (c - 55)
    else None in
  match v with
  | Some d => if d <? radix then Some d else None
  | None => None
  end.

(** The value of the longest prefix of digits; [acc] is the value read so
    far, [None] while no digit was read. *)
Fixpoint readDigits (radix : N) (acc : option N) (s : list N) : option N :=
  match s with
  | c :: s' =>
      match digitVal radix c with
      | Some d => readDigits radix (Some (radix * default 0 acc + d)) s'
      | None => acc
      end
  | [] => acc
  end.

(** [parseInt(s)] with no radix: leading white space, a sign, a [0x] or [0X]
    prefix that selects radix 16, then the longest run of digits.  [None] is
    NaN.  The result is the exact integer; the double that JavaScript
    returns is this integer as long as its magnitude is at most [2^53], see
    [exactYear] below. *)
Definition parseInt (s : list N) : option Z :=
  let s1 := skip isSpace s in
  let '(sign, s2) :=
    match s1 with
    | c :: t => if c =? 45 then ((-1)%Z, t)
                else if c =? 43 then (1%Z, t) else (1%Z, s1)
    | [] => (1%Z, s1)
    end in
  let '(radix, s3) :=
    match s2 with
    | a :: b :: t =>
        if (a =? 48) && ((b =? 120) || (b =? 88)) then (16, t) else (10, s2)
    | _ => (10, s2)
    end in
  match readDigits radix None s3 with
  | Some n => Some (sign * Z.of_N n)%Z
  | None => None
  end.

(** [e.year || '0']: a missing or empty year gives the string 0. *)
Definition yearString (e : Entry) : list N :=
  match e !! lit "year" with
  | Some (c :: y) => c :: y
  | _ => lit "0"
  end.

Definition yearOf (e : Entry) : option Z := parseInt (yearString e).

(** The comparison function [(a, b) => yearB - yearA]; [None] is NaN.  The
    sort reads the sign of the result only. *)
Definition compareYear (a b : Entry) : option Z :=
  match yearOf a, yearOf b with
  | Some yearA, Some yearB => Some (yearB - yearA)%Z
  | _, _ => None
  end.

(** SortCompare of [Array.prototype.sort]: a NaN from the comparison
    function counts as zero. *)
Definition sortCompare (comparefn : Entry → Entry → option Z) (x y : Entry) : Z :=
  default 0%Z (comparefn x y).

(** [Array.prototype.sort] is a stable sort: for a comparison function that
    is a consistent ordering the result is fixed by the language, whatever
    the algorithm (see [stable_sort_unique]).  It is run here as an insertion
    sort: [x] passes the elements that it has to follow (a positive
    comparison) and stops in front of the first one that it need not
    follow.  When the comparison function is not consistent (a year that
    [parseInt] cannot read makes it NaN) the order is the engine's own and
    this run does not stand for it; the properties of the sort are stated
    for years that are exact, see [exactYear] below. *)
Fixpoint insertSorted (comparefn : Entry → Entry → option Z)
    (x : Entry) (l : list Entry) : list Entry :=
  match l with
  | [] => [x]
  | y :: l' =>
      if (0 <? sortCompare comparefn x y)%Z
      then y :: insertSorted comparefn x l'
      else x :: l
  end.

Definition arraySort (comparefn : Entry → Entry → option Z)
    (l : list Entry) : list Entry :=
  foldr (insertSorted comparefn) [] l.

(** [sortByYear()]: sorts the held array where it is and returns it. *)
Definition sortByYear (p : BibtexParser) (h : Heap) : nat * Heap :=
  (entries p, alter (arraySort compareYear) (entries p) h).

(** ** [filterByType] *)

(** What [typeMap[type]] finds.  [typeMap] is an object literal, so besides
    its three own properties a lookup finds what [Object.prototype] has: a
    function or an object, which is truthy and has no [includes]. *)
Inductive TypeMapValue :=
| Types (l : list (list N))
| Inherited.

Definition objectPrototypeNames : list (list N) :=
  [lit "constructor"; lit "hasOwnProperty"; lit "isPrototypeOf";
   lit "propertyIsEnumerable"; lit "toLocaleString"; lit "toString";
   lit "valueOf"; lit "__proto__"; lit "__defineGetter__";
   lit "__defineSetter__"; lit "__lookupGetter__"; lit "__lookupSetter__"].

Definition typeMap (type : list N) : option TypeMapValue :=
  if decide (type = lit "journal") then Some (Types [lit "article"])
  else if decide (type = lit "conference")
       then Some (Types [lit "inproceedings"; lit "conference"])
  else if decide (type = lit "preprint")
       then Some (Types [lit "misc"; lit "unpublished"])
  else if includes objectPrototypeNames type then Some Inherited
  else None.

(** [types.includes(entry.type)]; an entry without [type] has [undefined]
    there, which no array of strings includes. *)
Definition typeIn (types : list (list N)) (entry : Entry) : bool :=
  match entry !! lit "type" with
  | Some t => includes types t
  | None => false
  end.

(** The message of the TypeError for a call of [types.includes] when there
    is no such function (the wording is the engine's). *)
Definition notAFunction : list N := lit "types.includes is not a function".

(** [filterByType(type)].  [Array.prototype.filter] builds a new array; the
    callback runs once per element, and with an inherited [types] its first
    run throws a TypeError, so that no array reaches the caller. *)
Definition filterByType (type : list N) (p : BibtexParser) (h : Heap)
  : Result nat * Heap :=
  if decide (type = lit "all") then (Return (entries p), h)
  else
    let types := default (Types [type]) (typeMap type) in
    match types with
    | Types l =>
        let '(r, h') := alloc (filter (λ entry, typeIn l entry) (held p h)) h in
        (Return r, h')
    | Inherited =>
        match held p h with
        | [] => let '(r, h') := alloc [] h in (Return r, h')
        | _ :: _ => (Throw notAFunction, h)
        end
    end.

(** ** The publication page: author lists *)

Fixpoint startsWith (sep s : list N) : bool :=
  match sep, s with
  | [], _ => true
  | a :: sep', c :: s' => (a =? c) && startsWith sep' s'
  | _ :: _, [] => false
  end.

(** [s.split(sep)] for a separator that is not empty: the pieces between
    the occurrences of [sep], found from left to right without overlap.
    [piece] is the piece being read and [skipN] the number of characters of
    the separator still to pass. *)
Fixpoint splitFrom (sep : list N) (skipN : nat) (piece s : list N)
  : list (list N) :=
  match s with
  | [] => [piece]
  | c :: s' =>
      match skipN with
      | S k => splitFrom sep k piece s'
      | O =>
          if startsWith sep s
          then piece :: splitFrom sep (length sep - 1) [] s'
          else splitFrom sep 0 (piece ++ [c]) s'
      end
  end.

Definition split (sep s : list N) : list (list N) := splitFrom sep 0 [] s.

(** [l.join(sep)]. *)
Fixpoint join (sep : list N) (l : list (list N)) : list N :=
  match l with
  | [] => []
  | [x] => x
  | x :: l' => x ++ sep ++ join sep l'
  end.

(** The part of a publication configuration that the author list reads;
    [None] is an absent property. *)
Record PubConfig := {
  co_first_authors : option (list (list N));
  corresponding_authors : option (list (list N))
}.

Record CoauthorInfo := {
  website : option (list N);
  affiliation : option (list N)
}.

(** The page variable [coauthorsData]: [None] is its initial [null].  A
    name that is only found on [Object.prototype] yields a value without a
    [website], which formats like a name that is not found. *)
Record CoauthorsData := {
  coauthors : option (gmap (list N) CoauthorInfo)
}.

(** [v || ''] for a string or [undefined]. *)
Definition orEmpty (v : option (list N)) : list N := default [] v.

(** A string or [undefined] as a condition: a string that is not empty. *)
Definition truthy (v : option (list N)) : bool :=
  match v with
  | Some (_ :: _) => true
  | _ => false
  end.

Definition coFirstMarker : list N := lit "<sup>*</sup>".
Definition correspondingMarker : list N :=
  lit "<sup>" ++ [envelope] ++ lit "</sup>".

(** The anchor around a name, a template of the page source. *)
Definition anchor (info : CoauthorInfo) (formattedAuthor : list N) : list N :=
  lit "<a href=" ++ [quote] ++ orEmpty (website info) ++ [quote]
  ++ lit " target=" ++ [quote] ++ lit "_blank" ++ [quote]
  ++ lit " title=" ++ [quote] ++ orEmpty (affiliation info) ++ [quote]
  ++ lit ">" ++ formattedAuthor ++ lit "</a>".

(** The callback of [authorList.map] in [formatAuthorsWithLinks]. *)
Definition formatAuthor (coauthorsData : option CoauthorsData)
    (coFirstAuthors correspondingAuthors : list (list N))
    (author : list N) : list N :=
  let trimmedAuthor := trim author in
  let coauthorInfo :=
    d ← coauthorsData; c ← coauthors d; c !! trimmedAuthor in
  let formattedAuthor := trimmedAuthor in
  let formattedAuthor :=
    if decide (trimmedAuthor = lit "Chaofeng Chen")
    then lit "<strong>" ++ trimmedAuthor ++ lit "</strong>"
    else formattedAuthor in
  let formattedAuthor :=
    if includes coFirstAuthors trimmedAuthor
    then formattedAuthor ++ coFirstMarker else formattedAuthor in
  let formattedAuthor :=
    if includes correspondingAuthors trimmedAuthor
    then formattedAuthor ++ correspondingMarker else formattedAuthor in
  match coauthorInfo with
  | Some info =>
      if truthy (website info) then anchor info formattedAuthor
      else formattedAuthor
  | None => formattedAuthor
  end.

Definition formatAuthorsWithLinks (coauthorsData : option CoauthorsData)
    (authors : list N) (pubConfig : PubConfig) : list N :=
  let authorList := split (lit " and ") authors in
  let coFirstAuthors := default [] (co_first_authors pubConfig) in
  let correspondingAuthors := default [] (corresponding_authors pubConfig) in
  join (lit ", ")
    (formatAuthor coauthorsData coFirstAuthors correspondingAuthors
       <$> authorList).

(** ** The publication page: the citation text of [showBibtex] *)

(** A property in a template: a missing one prints as [undefined]. *)
Definition interpolate (v : option (list N)) : list N :=
  default (lit "undefined") v.

(** One optional line of the template: [name={value},] for a value that is
    there and not empty, nothing otherwise. *)
Definition optionalField (publication : Entry) (name tail : list N) : list N :=
  if truthy (publication !! name)
  then name ++ lit "={" ++ orEmpty (publication !! name) ++ lit "}" ++ tail
  else [].

(** The template literal [bibtexText]; its lines end in a line feed and the
    optional ones are indented by two blanks also when they are empty. *)
Definition bibtexText (publication : Entry) : list N :=
  lit "@" ++ interpolate (publication !! lit "type") ++ lit "{"
  ++ interpolate (publication !! lit "citeKey") ++ lit "," ++ [newline]
  ++ lit "  title={" ++ orEmpty (publication !! lit "title") ++ lit "},"
  ++ [newline]
  ++ lit "  author={" ++ orEmpty (publication !! lit "author") ++ lit "},"
  ++ [newline]
  ++ lit "  " ++ optionalField publication (lit "journal") (lit ",") ++ [newline]
  ++ lit "  " ++ optionalField publication (lit "booktitle") (lit ",") ++ [newline]
  ++ lit "  " ++ optionalField publication (lit "volume") (lit ",") ++ [newline]
  ++ lit "  " ++ optionalField publication (lit "number") (lit ",") ++ [newline]
  ++ lit "  " ++ optionalField publication (lit "pages") (lit ",") ++ [newline]
  ++ lit "  " ++ optionalField publication (lit "year") (lit ",") ++ [newline]
  ++ lit "  " ++ optionalField publication (lit "publisher") [] ++ [newline]
  ++ lit "}".

(** ** The publication page: plain author lists *)

(** [formatAuthors(authors)]: the pieces between the separators, joined by
    a comma and a blank. *)
Definition formatAuthors (authors : list N) : list N :=
  join (lit ", ") (split (lit " and ") authors).

(** ** The publication page: abbreviations of a venue *)

Definition lparen : N := 40.
Definition rparen : N := 41.
Definition notRParen (c : N) : bool := negb (c =? rparen).

(** One attempt of the expression of [boldAbbreviations] at the head of
    [s]: an opening parenthesis, the longest run of at least one character
    that is no closing parenthesis, and a closing parenthesis.  The run is
    greedy and ends in front of the first closing parenthesis, so giving
    characters back cannot help.  It returns group 1 and the length of the
    match. *)
Definition matchAbbrevAt (s : list N) : option (list N * nat) :=
  match s with
  | c :: s1 =>
      if c =? lparen then
        match while notRParen s1, skip notRParen s1 with
        | x :: inner, _ :: _ => Some (x :: inner, (length (x :: inner) + 2)%nat)
        | _, _ => None
        end
      else None
  | [] => None
  end.

(** [text.replace] with the [g] flag: every match, from left to right and
    without overlap, is replaced by the parentheses with group 1 inside
    [strong] tags; the characters outside a match are copied.  [skipN]
    counts the characters still covered by the previous match. *)
Fixpoint boldFrom (skipN : nat) (s : list N) : list N :=
  match s with
  | [] => []
  | c :: s' =>
      match skipN with
      | S k => boldFrom k s'
      | O =>
          match matchAbbrevAt s with
          | Some (inner, len) =>
              lit "(<strong>" ++ inner ++ lit "</strong>)"
              ++ boldFrom (len - 1) s'
          | None => c :: boldFrom 0 s'
          end
      end
  end.

(** [boldAbbreviations(text)]; a missing or empty text gives the empty
    string. *)
Definition boldAbbreviations (text : option (list N)) : list N :=
  match text with
  | Some (c :: t) => boldFrom 0 (c :: t)
  | _ => []
  end.

(** ** The publication page: cite links *)

(** [a || b] on strings that may be missing. *)
Definition orElse (a b : option (list N)) : option (list N) :=
  if truthy a then a else b.

(** The text that [createPublicationElement] writes as the [data-key]
    attribute of the cite link: the first of [citeKey], [key] and [id] that
    is there and not empty, else the last of them as a template prints it. *)
Definition citeDataKey (pub : Entry) : list N :=
  interpolate (orElse (pub !! lit "citeKey")
                 (orElse (pub !! lit "key") (pub !! lit "id"))).

(** The test of the click handler: one of [key], [id] and [citeKey] is the
    text of the attribute. *)
Definition hasKey (key : list N) (pub : Entry) : bool :=
  bool_decide (pub !! lit "key" = Some key)
  || bool_decide (pub !! lit "id" = Some key)
  || bool_decide (pub !! lit "citeKey" = Some key).

(** [currentPublications.find(...)]: the first publication that passes. *)
Definition findPublication (key : list N) (pubs : list Entry) : option Entry :=
  List.find (hasKey key) pubs.

(** ** The publication page: the year groups of [renderPublications] *)

(** [pub.year || 'Unknown']. *)
Definition yearKey (pub : Entry) : list N :=
  if truthy (pub !! lit "year") then orEmpty (pub !! lit "year")
  else lit "Unknown".

(** The message of the TypeError for [publicationsByYear[year].push] when
    the lookup finds no array (the wording is the engine's). *)
Definition pushNotAFunction : list N :=
  lit "publicationsByYear[year].push is not a function".

(** One round of the [forEach] over the publications.  The object
    [publicationsByYear] starts as an object literal: a lookup finds its own
    arrays, which are truthy also when empty, and besides them what
    [Object.prototype] has, which is truthy as well, so that no own array is
    made for such a name and the call of [push] throws. *)
Definition groupStep (publicationsByYear : gmap (list N) (list Entry))
    (pub : Entry) : Result (gmap (list N) (list Entry)) :=
  let year := yearKey pub in
  match publicationsByYear !! year with
  | Some group => Return (<[year := group ++ [pub]]> publicationsByYear)
  | None =>
      if includes objectPrototypeNames year then Throw pushNotAFunction
      else Return (<[year := [pub]]> publicationsByYear)
  end.

(** The [forEach]: an error of one round ends it. *)
Fixpoint groupFrom (publicationsByYear : gmap (list N) (list Entry))
    (pubs : list Entry) : Result (gmap (list N) (list Entry)) :=
  match pubs with
  | [] => Return publicationsByYear
  | pub :: pubs' =>
      match groupStep publicationsByYear pub with
      | Return groups => groupFrom groups pubs'
      | Throw message => Throw message
      end
  end.

Definition groupByYear (filteredPublications : list Entry)
  : Result (gmap (list N) (list Entry)) :=
  groupFrom ∅ filteredPublications.

(** * Vocabulary of the properties *)

(** ** Years and order *)

(** The year of an entry as a number for which the arithmetic of the
    comparison function is exact: the year string parses, and to an integer
    of magnitude at most [2^53]. *)
Definition exactYear (e : Entry) : bool :=
  match yearOf e with
  | Some z => (Z.abs z <=? 2 ^ 53)%Z
  | None => false
  end.

(** The numeric year by which the entries are ordered. *)
Definition yearNum (e : Entry) : Z := default 0%Z (yearOf e).

Definition byYearDescending (a b : Entry) : Prop := (yearNum b ≤ yearNum a)%Z.

Definition sameYear (y : Z) (e : Entry) : Prop := yearOf e = Some y.

#[local] Instance sameYear_dec y e : Decision (sameYear y e).
Proof. unfold sameYear. apply _. Defined.

(** An entry has a numeric year when its year string is there and
    [parseInt] reads a number from it. *)
Definition hasNumericYear (e : Entry) : Prop :=
  ∃ y, e !! lit "year" = Some y ∧ is_Some (parseInt y).

(** Every entry without a numeric year stands behind every entry with
    one. *)
Definition yearlessLast (l : list Entry) : Prop :=
  ∀ i j a b, l !! i = Some a → l !! j = Some b →
    ¬ hasNumericYear a → hasNumericYear b → (j < i)%nat.

(** ** Fields *)

(** A character that the value of a field can hold. *)
Definition valueChar (c : N) : Prop := ¬ isCloser c ∧ ¬ isLineTerminator c.

(** The text of a field up to the end of its value, without a closer. *)
Definition openField (name ws1 ws2 : list N) (o : N) (value : list N) : list N :=
  name ++ ws1 ++ equals :: ws2 ++ o :: value.

(** ** Author decorations, each under its own condition *)

Definition bold (name : list N) : list N :=
  if decide (name = lit "Chaofeng Chen")
  then lit "<strong>" ++ name ++ lit "</strong>" else name.

Definition mark (b : bool) (marker : list N) : list N :=
  if b then marker else [].

(** The hyperlink around a decorated name, written out: it opens in a new
    tab and has the affiliation as its title. *)
Definition hyperlink (href title body : list N) : list N :=
  lit "<a href=" ++ [quote] ++ href ++ [quote]
  ++ lit " target=" ++ [quote] ++ lit "_blank" ++ [quote]
  ++ lit " title=" ++ [quote] ++ title ++ [quote]
  ++ lit ">" ++ body ++ lit "</a>".

(** The hyperlink is there for a name that the coauthor data has with a
    website that is not empty. *)
Definition linked (coauthorsData : option CoauthorsData) (name body : list N)
  : list N :=
  match d ← coauthorsData; c ← coauthors d; c !! name with
  | Some {| website := Some (c :: w); affiliation := a |} =>
      hyperlink (c :: w) (default [] a) body
  | _ => body
  end.

Definition decorate (coauthorsData : option CoauthorsData)
    (coFirstAuthors correspondingAuthors : list (list N))
    (author : list N) : list N :=
  let name := trim author in
  linked coauthorsData name
    (bold name
     ++ mark (bool_decide (name ∈ coFirstAuthors)) (lit "<sup>*</sup>")
     ++ mark (bool_decide (name ∈ correspondingAuthors))
          (lit "<sup>" ++ [envelope] ++ lit "</sup>")).

(** ** Citation text *)

Definition substring_of (sub s : list N) : Prop :=
  ∃ pre post, s = pre ++ sub ++ post.

(** The optional fields of the template, in its order. *)
Definition optionalNames : list (list N) :=
  [lit "journal"; lit "booktitle"; lit "volume"; lit "number"; lit "pages";
   lit "year"; lit "publisher"].

(** The line of an optional field: the last one has no comma. *)
Definition optionalLine (publication : Entry) (name : list N) : list N :=
  lit "  " ++ optionalField publication name
              (if decide (name = lit "publisher") then [] else lit ",").

(** ** Texts made of fields *)

(** The source text of one field: what stands in front of it, its name,
    the white space around the equals sign, the opener, the value and the
    closer. *)
Record FieldSrc := {
  fs_sep : list N; fs_name : list N; fs_ws1 : list N; fs_ws2 : list N;
  fs_open : N; fs_value : list N; fs_close : N
}.

Definition fieldSrcText (f : FieldSrc) : list N :=
  fs_sep f ++ openField (fs_name f) (fs_ws1 f) (fs_ws2 f) (fs_open f) (fs_value f)
  ++ [fs_close f].

Definition wfField (f : FieldSrc) : Prop :=
  Forall (λ c, isWord c = false) (fs_sep f)
  ∧ fs_name f ≠ [] ∧ Forall isWord (fs_name f)
  ∧ Forall isSpace (fs_ws1 f) ∧ Forall isSpace (fs_ws2 f)
  ∧ isOpener (fs_open f) ∧ isCloser (fs_close f)
  ∧ Forall valueChar (fs_value f).

(** What a field adds to the fields read so far. *)
Definition assignField (fields : Entry) (f : FieldSrc) : Entry :=
  if decide (toLowerCase (fs_name f) = lit "__proto__") then fields
  else <[toLowerCase (fs_name f) := trim (fs_value f)]> fields.

(** ** Texts made of blocks *)

(** The text of a block up to its body. *)
Definition blockHeader (ty ws1 ws2 key ws3 : list N) : list N :=
  at_sign :: ty ++ ws1 ++ lbrace :: ws2 ++ key ++ comma :: ws3.

(** A key as it stands in a block: without comma and without white space
    in front. *)
Definition keyText (key : list N) : Prop :=
  Forall notComma key ∧ trimStart key = key.

(** The source text of one block: the white space in front of it, the
    parts of its header and its body. *)
Record BlockSrc := {
  b_pre : list N; b_type : list N; b_ws1 : list N; b_ws2 : list N;
  b_key : list N; b_ws3 : list N; b_body : list N
}.

Definition blockText (b : BlockSrc) : list N :=
  b_pre b ++ blockHeader (b_type b) (b_ws1 b) (b_ws2 b) (b_key b) (b_ws3 b)
  ++ b_body b.

Definition wfBlock (b : BlockSrc) : Prop :=
  Forall isSpace (b_pre b)
  ∧ b_type b ≠ [] ∧ Forall isWord (b_type b)
  ∧ Forall isSpace (b_ws1 b) ∧ Forall isSpace (b_ws2 b)
  ∧ keyText (b_key b) ∧ Forall isSpace (b_ws3 b)
  ∧ b_body b ≠ [] ∧ (at_sign ∉ b_body b)
  ∧ trimStart (b_body b) = b_body b ∧ trimEnd (b_body b) = b_body b.

Definition blockMatch (b : BlockSrc) (len : nat) : EntryMatch :=
  {| m_type := b_type b; m_key := b_key b; m_body := b_body b; m_len := len |}.

(** The entry that a block stands for, when its type is accepted. *)
Definition blockEntry (b : BlockSrc) : option Entry :=
  if includes acceptedTypes (toLowerCase (b_type b))
  then Some (mkEntry (toLowerCase (b_type b)) (trim (b_key b))
               (parseFields (b_body b)))
  else None.

(** ** Separators of an author list *)

(** No occurrence of [sep] in [a ++ sep] starts inside [a]. *)
Fixpoint firstAt (sep a : list N) : bool :=
  match a with
  | [] => true
  | _ :: a' => negb (startsWith sep (a ++ sep)) && firstAt sep a'
  end.

(** ** Entries that the citation text gives back *)

(** The properties that the template of the citation text reads. *)
Definition templateNames : list (list N) :=
  lit "type" :: lit "citeKey" :: lit "title" :: lit "author" :: optionalNames.

(** A character of a value that passes through the citation text and the
    parser: no closer, no line terminator, no at sign, no percent sign. *)
Definition cleanChar (c : N) : bool :=
  negb (isCloser c) && negb (isLineTerminator c)
  && negb (c =? at_sign) && negb (c =? percent).

Definition cleanValue (v : list N) : bool :=
  forallb cleanChar v && bool_decide (trim v = v).

Definition cleanKey (k : list N) : bool :=
  forallb (λ c, notComma c && negb (c =? percent)) k
  && bool_decide (trim k = k).

Definition cleanOptional (e : Entry) (name : list N) : bool :=
  match e !! name with
  | Some v => truthy (Some v) && cleanValue v
  | None => true
  end.

(** An entry with an accepted type, a clean key, a clean title and author,
    optional fields that are clean and not empty when they are there, and
    no other property. *)
Definition canonical (e : Entry) : bool :=
  match e !! lit "type", e !! lit "citeKey", e !! lit "title", e !! lit "author" with
  | Some t, Some k, Some title, Some author =>
      includes acceptedTypes t && cleanKey k
      && cleanValue title && cleanValue author
      && forallb (cleanOptional e) optionalNames
      && bool_decide (map_Forall (λ name _, name ∈ templateNames) e)
  | _, _, _, _ => false
  end.

(** The citation text behind its first line, and the citation text as a
    block. *)
Definition citationBody (e : Entry) : list N :=
  lit "title={" ++ orEmpty (e !! lit "title") ++ lit "}," ++ [newline]
  ++ lit "  author={" ++ orEmpty (e !! lit "author") ++ lit "}," ++ [newline]
  ++ concat ((λ name, optionalLine e name ++ [newline]) <$> optionalNames)
  ++ lit "}".

Definition citationBlock (e : Entry) : BlockSrc :=
  {| b_pre := []; b_type := interpolate (e !! lit "type");
     b_ws1 := []; b_ws2 := [];
     b_key := interpolate (e !! lit "citeKey");
     b_ws3 := newline :: lit "  ";
     b_body := citationBody e |}.

(** What the line of an optional field adds to the fields read so far. *)
Definition optAssign (e fields : Entry) (name : list N) : Entry :=
  if truthy (e !! name) then <[name := orEmpty (e !! name)]> fields else fields.

(** ** Year groups *)

Definition inYear (year : list N) (pub : Entry) : Prop := yearKey pub = year.

#[local] Instance inYear_dec year pub : Decision (inYear year pub).
Proof. unfold inYear. apply _. Defined.

(** The year of the publication, as a property name, is one that every
    object inherits. *)
Definition inheritedYear (pub : Entry) : bool :=
  includes objectPrototypeNames (yearKey pub).

(** * Sample inputs *)

(** A parser that has been used: it holds one entry and a message. *)
Definition sampleEntry (citeKey year : list N) : Entry :=
  <[lit "year" := year]> (mkEntry (lit "article") citeKey ∅).

Definition usedParser : BibtexParser :=
  {| entries := 0; errors := [lit "stale message"] |}.

Definition usedHeap : Heap := [[sampleEntry (lit "old") (lit "1999")]].

(** A text whose only block is inside a comment. *)
Definition commentedOutText : list N :=
  lit "plain notes % @article{hidden, title={T}}".

(** Three blocks, the second of a type that is not accepted, and the
    matches of the entry expression in that text. *)
Definition mixedText : list N :=
  lit "@article{a1, title={One}} @Comment{c, title={Two}} @misc{m3, title={Three}}".

Definition mixedBlock1 : EntryMatch :=
  {| m_type := lit "article"; m_key := lit "a1";
     m_body := lit "title={One}}"; m_len := 25 |}.

Definition mixedBlock2 : EntryMatch :=
  {| m_type := lit "Comment"; m_key := lit "c";
     m_body := lit "title={Two}}"; m_len := 24 |}.

Definition mixedBlock3 : EntryMatch :=
  {| m_type := lit "misc"; m_key := lit "m3";
     m_body := lit "title={Three}}"; m_len := 24 |}.

(** Two blocks with one key, their matches and their entries. *)
Definition duplicateText : list N :=
  lit "@article{k, title={A}} @article{k, title={B}}".

Definition duplicateBlock (title : list N) (len : nat) : EntryMatch :=
  {| m_type := lit "article"; m_key := lit "k";
     m_body := lit "title={" ++ title ++ lit "}}"; m_len := len |}.

Definition duplicateEntry (title : list N) : Entry :=
  <[lit "title" := title]> (mkEntry (lit "article") (lit "k") ∅).

(** A held list with a negative year and an entry without a year. *)
Definition undated : Entry := mkEntry (lit "article") (lit "u") ∅.

Definition datedHeap : Heap :=
  [[sampleEntry (lit "n") (lit "-5"); undated; sampleEntry (lit "p") (lit "2020")]].

(** An entry whose title has a percent sign in its value, and what
    follows the line of the title. *)
Definition percentText : list N :=
  lit "@article{k," ++ [newline] ++ lit "  title={50% off}," ++ [newline]
  ++ lit "  year={2020}" ++ [newline] ++ lit "}".

Definition restOfPercentText : list N :=
  [newline] ++ lit "  year={2020}" ++ [newline] ++ lit "}".

(** The configuration of the author scenario. *)
Definition scenarioConfig : PubConfig :=
  {| co_first_authors := Some [lit "A"];
     corresponding_authors := Some [lit "C"] |}.

(** Coauthor data for the scenario: B with a website and an affiliation,
    C with a website alone, D without a website. *)
Definition scenarioCoauthors : CoauthorsData :=
  {| coauthors := Some
       (<[lit "B" := {| website := Some (lit "https://b.example");
                        affiliation := Some (lit "Univ B") |}]>
          (<[lit "C" := {| website := Some (lit "https://c.example");
                           affiliation := None |}]>
             (<[lit "D" := {| website := None;
                              affiliation := Some (lit "Univ D") |}]> ∅))) |}.

(** A configuration that marks the owner of the page twice, and data that
    has a website for that name. *)
Definition ownerConfig : PubConfig :=
  {| co_first_authors := Some [lit "Chaofeng Chen"];
     corresponding_authors := Some [lit "Chaofeng Chen"] |}.

Definition ownerCoauthors : CoauthorsData :=
  {| coauthors := Some
       {[ lit "Chaofeng Chen" := {| website := Some (lit "https://c.example");
                                    affiliation := Some (lit "NTU") |} ]} |}.

(** The fields in front of a title whose closer falls to a comment. *)
Definition fieldsBeforeComment : list FieldSrc :=
  [{| fs_sep := []; fs_name := lit "year"; fs_ws1 := []; fs_ws2 := [];
      fs_open := lbrace; fs_value := lit "2020"; fs_close := rbrace |}].

(** A body in which the year is written twice, in different case. *)
Definition repeatedFields : list FieldSrc :=
  [{| fs_sep := []; fs_name := lit "Year"; fs_ws1 := lit " "; fs_ws2 := lit " ";
      fs_open := lbrace; fs_value := lit "2019"; fs_close := rbrace |};
   {| fs_sep := lit ", "; fs_name := lit "title"; fs_ws1 := []; fs_ws2 := [];
      fs_open := quote; fs_value := lit "A Title"; fs_close := quote |};
   {| fs_sep := lit ", "; fs_name := lit "year"; fs_ws1 := []; fs_ws2 := [];
      fs_open := lbrace; fs_value := lit " 2020 "; fs_close := rbrace |}].

(** Two blocks, the second of a type that is not accepted. *)
Definition sampleBlocks : list BlockSrc :=
  [{| b_pre := []; b_type := lit "Article"; b_ws1 := []; b_ws2 := lit " ";
      b_key := lit "k1"; b_ws3 := lit " "; b_body := lit "title = {A}}" |};
   {| b_pre := [newline]; b_type := lit "Comment"; b_ws1 := lit " ";
      b_ws2 := []; b_key := lit "c"; b_ws3 := []; b_body := lit "x}" |}].

(** An entry as the parser makes it from a clean block. *)
Definition sampleCitation : Entry :=
  <[lit "journal" := lit "TPAMI"]>
    (<[lit "year" := lit "2021"]>
       (<[lit "author" := lit "A. Author and B. Author"]>
          (<[lit "title" := lit "A Title"]>
             (mkEntry (lit "article") (lit "chen2021") ∅)))).

(** Publications of two years and one without a year. *)
Definition yearSamples : list Entry :=
  [sampleEntry (lit "a") (lit "2021"); undated;
   sampleEntry (lit "b") (lit "2020"); sampleEntry (lit "c") (lit "2021")].

(** * Proof automation *)

(** Turns the character classes in the context into arithmetic. *)
Ltac char_facts :=
  unfold isSpace, isWord, isOpener, isCloser, isLineTerminator,
    equals, percent, quote, lbrace, rbrace, at_sign in *;
  repeat match goal with
  | H : Is_true _ |- _ => apply Is_true_eq_true in H
  | H : ¬ Is_true _ |- _ => apply negb_prop_intro, Is_true_eq_true in H
  end;
  rewrite ?negb_true_iff, ?orb_true_iff, ?orb_false_iff, ?andb_true_iff,
    ?andb_false_iff, ?N.leb_le, ?N.leb_gt, ?N.eqb_eq, ?N.eqb_neq in *.

(** Decides a closed proposition by evaluation. *)
Ltac decided := apply (bool_decide_unpack _); vm_compute; exact I.

(** Closes the side conditions on concrete texts. *)
Ltac concrete :=
  repeat first
    [ exact I | reflexivity | decided | (vm_compute; exact id) | constructor ].

(** * Properties *)

(** ** Scanning lemmas *)

Section Scanning.
Variable p : N → bool.

Lemma skip_app_all a r : Forall (λ c, p c) a → skip p (a ++ r) = skip p r.
Proof.
  induction 1 as [|c a Hc _ IH]; simpl; [done|].
  by destruct (p c).
Qed.

Lemma while_app_all a r : Forall (λ c, p c) a → while p (a ++ r) = a ++ while p r.
Proof.
  induction 1 as [|c a Hc _ IH]; simpl; [done|].
  destruct (p c); [by rewrite IH | done].
Qed.

Lemma skip_suffix s : skip p s `suffix_of` s.
Proof.
  induction s as [|c s IH]; simpl; [done|].
  destruct (p c); [by apply suffix_cons_r | done].
Qed.
End Scanning.

(** Once the previous match covers the rest of the input, the loop ends. *)
Lemma scanFields_covered k s : (length s ≤ k)%nat → scanFields k s = [].
Proof.
  revert k. induction s as [|c s IH]; intros k Hk; simpl; [done|].
  destruct k; simpl in Hk; [lia|]. apply IH. lia.
Qed.

(** An attempt of the entry expression needs an at sign under it. *)
Lemma matchEntryAt_head s m :
  matchEntryAt s = Some m → ∃ s', s = at_sign :: s'.
Proof.
  destruct s as [|c s]; simpl; [done|].
  destruct (c =? at_sign) eqn:E; [|done].
  apply N.eqb_eq in E; subst. eauto.
Qed.

Lemma scanEntries_no_at k s : at_sign ∉ s → scanEntries k s = [].
Proof.
  revert k. induction s as [|c s IH]; intros k Hs; [done|].
  apply not_elem_of_cons in Hs as [Hc Hs].
  cbn [scanEntries]. destruct k; [|by apply IH].
  destruct (matchEntryAt (c :: s)) eqn:E; [|by apply IH].
  apply matchEntryAt_head in E as [s' E]. congruence.
Qed.

(** Comment removal only deletes characters. *)
Lemma stripFrom_sublist b s : stripFrom b s `sublist_of` s.
Proof.
  revert b. induction s as [|c s IH]; intros b; simpl; [done|].
  destruct b.
  - destruct (isLineTerminator c); [by apply sublist_skip | by apply sublist_cons].
  - destruct (c =? percent); [by apply sublist_cons | by apply sublist_skip].
Qed.

Lemma no_at_no_blocks text : at_sign ∉ text → execAll (stripComments text) = [].
Proof.
  intros H. apply scanEntries_no_at. intros Hin. apply H.
  eapply elem_of_sublist; [done|]. apply stripFrom_sublist.
Qed.

(** ** The heap after [parse] *)

(** The loop never reaches its [catch]: the error list stays as it is,
    and the new array receives the entries of the accepted blocks. *)
Lemma processBlock_fold (h : Heap) (errs : list (list N)) (acc : list Entry) ms :
  foldl (processBlock (length h)) (errs, h ++ [acc]) ms
  = (errs, h ++ [acc ++ omap entryOfMatch ms]).
Proof.
  revert acc. induction ms as [|m ms IH]; intros acc; simpl.
  - by rewrite app_nil_r.
  - unfold processBlock at 2, tryBlock. simpl.
    destruct (entryOfMatch m) as [e|]; [|apply IH].
    unfold push. replace (length h) with (length h + 0)%nat at 2 by lia.
    rewrite alter_app_r. simpl. rewrite IH. by rewrite <- app_assoc.
Qed.

(** [parse] allocates one array, fills it with the entries of the accepted
    blocks in the order in which they were found, and holds and returns it
    with an empty error list. *)
Lemma parse_eq (text : list N) (p : BibtexParser) (h : Heap) :
  parse text p h
  = (length h, {| entries := length h; errors := [] |},
     h ++ [omap entryOfMatch (execAll (stripComments text))]).
Proof. unfold parse, alloc. by rewrite processBlock_fold. Qed.

Lemma held_alloc (h : Heap) l es :
  held {| entries := length h; errors := es |} (h ++ [l]) = l.
Proof. unfold held. simpl. by rewrite list_lookup_middle. Qed.

(** Every parsed entry is the entry of a block of the text whose type is
    accepted. *)
Lemma parsed_from_accepted (text : list N) (p : BibtexParser) (h : Heap) (e : Entry) :
  e ∈ held (parse text p h).1.2 (parse text p h).2 →
  ∃ m, m ∈ execAll (stripComments text)
       ∧ includes acceptedTypes (toLowerCase (m_type m)) = true
       ∧ e = mkEntry (toLowerCase (m_type m)) (trim (m_key m))
               (parseFields (trim (m_body m))).
Proof.
  rewrite parse_eq. simpl. rewrite held_alloc.
  intros (m & Hm & He)%list_elem_of_omap. exists m. split; [done|].
  unfold entryOfMatch in He.
  destruct (includes acceptedTypes (toLowerCase (m_type m))); [|done].
  split; [done|]. congruence.
Qed.

(** The scenario of the specification: one block, one entry. *)
Example parse_scenario :
  ∃ r p' h',
    parse (lit "@article{a2020x, title={T}, author={A and B}, year={2020}}")
      usedParser usedHeap = (r, p', h')
    ∧ held p' h'
      = [ {[ lit "type" := lit "article"; lit "citeKey" := lit "a2020x";
             lit "title" := lit "T"; lit "author" := lit "A and B";
             lit "year" := lit "2020" ]} ].
Proof.
  eexists _, _, _. split; [apply parse_eq|].
  rewrite held_alloc. vm_compute. reflexivity.
Qed.

(** ** Field names are lower case *)

Lemma lower_not_upper c : ¬ ((65 <=? lower c) && (lower c <=? 90)).
Proof.
  unfold lower. destruct ((65 <=? c) && (c <=? 90)) eqn:E.
  - apply andb_true_iff in E as [E1 E2].
    apply N.leb_le in E1, E2. intros [_ H]%andb_True.
    apply Is_true_eq_true in H. apply N.leb_le in H. lia.
  - rewrite E. exact id.
Qed.

Lemma toLowerCase_not_citeKey s : toLowerCase s ≠ lit "citeKey".
Proof.
  intros H. assert (Hk : toLowerCase s !! 4%nat = Some 75) by (by rewrite H).
  unfold toLowerCase in Hk. rewrite list_lookup_fmap in Hk.
  destruct (s !! 4%nat) as [c|]; [|done]. simpl in Hk.
  injection Hk as Hk. pose proof (lower_not_upper c) as Hc.
  rewrite Hk in Hc. by apply Hc.
Qed.

Lemma setField_citeKey fields m :
  fields !! lit "citeKey" = None → setField fields m !! lit "citeKey" = None.
Proof.
  intros H. unfold setField. case_decide; [done|].
  rewrite lookup_insert_ne; [done|]. apply toLowerCase_not_citeKey.
Qed.

(** No field can take the place of [citeKey]: its name has a capital. *)
Lemma parseFields_citeKey content : parseFields content !! lit "citeKey" = None.
Proof.
  unfold parseFields.
  assert (G : ∀ ms (fields : Entry), fields !! lit "citeKey" = None →
              foldl setField fields ms !! lit "citeKey" = None).
  { induction ms as [|m ms IH]; intros fields H; simpl; [done|].
    apply IH. by apply setField_citeKey. }
  apply G. apply lookup_empty.
Qed.

Lemma mkEntry_citeKey type citeKey content :
  mkEntry type citeKey (parseFields content) !! lit "citeKey" = Some citeKey.
Proof.
  unfold mkEntry. rewrite lookup_union_r; [|apply parseFields_citeKey].
  by rewrite lookup_insert_eq.
Qed.

(** ** Claims about [parse] *)

(** C6: when the text has no block (the entry expression matches nowhere in
    the text without its comments), [parse] returns a new, empty array, holds
    it, and has an empty error list, whatever the parser held before; the
    arrays that existed before are left as they were. *)
Theorem parse_without_blocks (text : list N) (p : BibtexParser) (h : Heap) :
  execAll (stripComments text) = [] →
  ∃ r p' h',
    parse text p h = (r, p', h')
    ∧ h' !! r = Some [] ∧ getEntries p' = r ∧ held p' h' = []
    ∧ getErrors p' = []
    ∧ h !! r = None ∧ h `prefix_of` h'.
Proof.
  intros H. eexists _, _, _. split; [apply parse_eq|]. rewrite H. simpl.
  repeat split.
  - by rewrite list_lookup_middle.
  - apply held_alloc.
  - by apply lookup_ge_None.
  - by apply prefix_app_r.
Qed.

Lemma parse_without_blocks_witness :
  execAll (stripComments commentedOutText) = [] ∧
  ∃ r p' h',
    parse commentedOutText usedParser usedHeap = (r, p', h')
    ∧ h' !! r = Some [] ∧ getEntries p' = r ∧ held p' h' = []
    ∧ getErrors p' = []
    ∧ usedHeap !! r = None ∧ usedHeap `prefix_of` h'.
Proof.
  split; [vm_compute; reflexivity|].
  apply (parse_without_blocks commentedOutText usedParser usedHeap).
  vm_compute; reflexivity.
Defined.

(** A text without an at sign is such a text. *)
Corollary parse_without_at_sign (text : list N) (p : BibtexParser) (h : Heap) :
  at_sign ∉ text →
  ∃ r p' h', parse text p h = (r, p', h') ∧ held p' h' = [] ∧ getErrors p' = [].
Proof.
  intros H. exists (length h), {| entries := length h; errors := [] |}, (h ++ [[]]).
  rewrite parse_eq, no_at_no_blocks by done. split; [done|].
  split; [apply held_alloc | done].
Qed.

(** C5: a block whose lower-cased type is not one of the accepted eight
    contributes no entry (the parsed list is that of the blocks before it
    followed by that of the blocks after it) and no error message. *)
Theorem rejected_type_dropped (text : list N) (p : BibtexParser) (h : Heap)
    (ms1 ms2 : list EntryMatch) (m : EntryMatch) :
  execAll (stripComments text) = ms1 ++ m :: ms2 →
  includes acceptedTypes (toLowerCase (m_type m)) = false →
  ∃ r p' h',
    parse text p h = (r, p', h')
    ∧ h' !! r = Some (omap entryOfMatch ms1 ++ omap entryOfMatch ms2)
    ∧ held p' h' = omap entryOfMatch ms1 ++ omap entryOfMatch ms2
    ∧ getErrors p' = [].
Proof.
  intros H Hty. eexists _, _, _. split; [apply parse_eq|].
  assert (Hm : entryOfMatch m = None) by (unfold entryOfMatch; by rewrite Hty).
  rewrite H, omap_app. simpl. rewrite Hm.
  repeat split.
  - by rewrite list_lookup_middle.
  - apply held_alloc.
Qed.

Lemma rejected_type_dropped_witness :
  execAll (stripComments mixedText) = [mixedBlock1] ++ mixedBlock2 :: [mixedBlock3]
  ∧ includes acceptedTypes (toLowerCase (m_type mixedBlock2)) = false
  ∧ ∃ r p' h',
      parse mixedText usedParser usedHeap = (r, p', h')
      ∧ h' !! r = Some (omap entryOfMatch [mixedBlock1]
                        ++ omap entryOfMatch [mixedBlock3])
      ∧ held p' h' = omap entryOfMatch [mixedBlock1]
                     ++ omap entryOfMatch [mixedBlock3]
      ∧ getErrors p' = [].
Proof.
  split; [vm_compute; reflexivity|]. split; [vm_compute; reflexivity|].
  apply (rejected_type_dropped mixedText usedParser usedHeap
           [mixedBlock1] [mixedBlock3] mixedBlock2); vm_compute; reflexivity.
Defined.

(** C3, as stated, fails: two blocks with one key give two entries, the
    first one with the fields of the first block; the second does not
    replace it. *)
Lemma duplicate_keys_not_replaced :
  ∃ r p' h',
    parse duplicateText usedParser usedHeap = (r, p', h')
    ∧ held p' h' = [duplicateEntry (lit "A"); duplicateEntry (lit "B")]
    ∧ held p' h' ≠ [duplicateEntry (lit "B")].
Proof.
  eexists _, _, _. split; [apply parse_eq|].
  rewrite held_alloc. split; [vm_compute; reflexivity|].
  vm_compute. discriminate.
Qed.

(** C3, amended: two accepted blocks with the same key both appear in the
    parsed list, as two entries with that [citeKey], each with the fields of
    its own block, in the order of the text; nothing is merged or replaced. *)
Theorem duplicate_keys_both_kept (text : list N) (p : BibtexParser) (h : Heap)
    (ms1 ms2 ms3 : list EntryMatch) (m1 m2 : EntryMatch) :
  execAll (stripComments text) = ms1 ++ m1 :: ms2 ++ m2 :: ms3 →
  includes acceptedTypes (toLowerCase (m_type m1)) = true →
  includes acceptedTypes (toLowerCase (m_type m2)) = true →
  trim (m_key m1) = trim (m_key m2) →
  ∃ r p' h' e1 e2,
    parse text p h = (r, p', h')
    ∧ held p' h'
      = omap entryOfMatch ms1 ++ e1 :: omap entryOfMatch ms2
        ++ e2 :: omap entryOfMatch ms3
    ∧ e1 = mkEntry (toLowerCase (m_type m1)) (trim (m_key m1))
             (parseFields (trim (m_body m1)))
    ∧ e2 = mkEntry (toLowerCase (m_type m2)) (trim (m_key m2))
             (parseFields (trim (m_body m2)))
    ∧ e1 !! lit "citeKey" = Some (trim (m_key m1))
    ∧ e2 !! lit "citeKey" = Some (trim (m_key m1)).
Proof.
  intros H Ht1 Ht2 Hk. eexists _, _, _, _, _. split; [apply parse_eq|].
  rewrite held_alloc, H.
  assert (E1 : entryOfMatch m1 = Some (mkEntry (toLowerCase (m_type m1))
            (trim (m_key m1)) (parseFields (trim (m_body m1)))))
    by (unfold entryOfMatch; by rewrite Ht1).
  assert (E2 : entryOfMatch m2 = Some (mkEntry (toLowerCase (m_type m2))
            (trim (m_key m2)) (parseFields (trim (m_body m2)))))
    by (unfold entryOfMatch; by rewrite Ht2).
  rewrite omap_app. simpl. rewrite E1, omap_app. simpl. rewrite E2.
  split; [reflexivity|]. split; [reflexivity|]. split; [reflexivity|].
  split; [apply mkEntry_citeKey|]. rewrite Hk. apply mkEntry_citeKey.
Qed.

Lemma duplicate_keys_both_kept_witness :
  execAll (stripComments duplicateText)
  = [] ++ duplicateBlock (lit "A") 22 :: [] ++ duplicateBlock (lit "B") 22 :: []
  ∧ includes acceptedTypes (toLowerCase (m_type (duplicateBlock (lit "A") 22))) = true
  ∧ includes acceptedTypes (toLowerCase (m_type (duplicateBlock (lit "B") 22))) = true
  ∧ trim (m_key (duplicateBlock (lit "A") 22)) = trim (m_key (duplicateBlock (lit "B") 22))
  ∧ ∃ r p' h' e1 e2,
      parse duplicateText usedParser usedHeap = (r, p', h')
      ∧ held p' h' = omap entryOfMatch [] ++ e1 :: omap entryOfMatch []
                     ++ e2 :: omap entryOfMatch []
      ∧ e1 = mkEntry (toLowerCase (m_type (duplicateBlock (lit "A") 22)))
               (trim (m_key (duplicateBlock (lit "A") 22)))
               (parseFields (trim (m_body (duplicateBlock (lit "A") 22))))
      ∧ e2 = mkEntry (toLowerCase (m_type (duplicateBlock (lit "B") 22)))
               (trim (m_key (duplicateBlock (lit "B") 22)))
               (parseFields (trim (m_body (duplicateBlock (lit "B") 22))))
      ∧ e1 !! lit "citeKey" = Some (trim (m_key (duplicateBlock (lit "A") 22)))
      ∧ e2 !! lit "citeKey" = Some (trim (m_key (duplicateBlock (lit "A") 22))).
Proof.
  split; [vm_compute; reflexivity|]. split; [vm_compute; reflexivity|].
  split; [vm_compute; reflexivity|]. split; [vm_compute; reflexivity|].
  apply (duplicate_keys_both_kept duplicateText usedParser usedHeap
           [] [] [] (duplicateBlock (lit "A") 22) (duplicateBlock (lit "B") 22));
    vm_compute; reflexivity.
Defined.

(** ** Claims about [filterByType] *)

Lemma typeIn_spec (types : list (list N)) (entry : Entry) :
  typeIn types entry ↔ ∃ t, entry !! lit "type" = Some t ∧ t ∈ types.
Proof.
  unfold typeIn, includes. destruct (entry !! lit "type") as [t|].
  - rewrite bool_decide_spec. naive_solver.
  - split; [done|]. by intros (t & ? & _).
Qed.

Lemma held_app_new (p : BibtexParser) (h : Heap) (l : list Entry) :
  (entries p = length h → l = []) → held p (h ++ [l]) = held p h.
Proof.
  intros Hl. unfold held.
  destruct (decide (entries p < length h)%nat) as [Hlt|Hge].
  - by rewrite lookup_app_l.
  - rewrite (lookup_ge_None_2 h) by lia.
    destruct (decide (entries p = length h)) as [E|E].
    + rewrite E, list_lookup_middle by done. simpl. by apply Hl.
    + rewrite lookup_ge_None_2; [done|]. rewrite length_app. simpl. lia.
Qed.

(** The value of [types] for an argument that is no name of the alias
    table and no name that [Object.prototype] has. *)
Lemma typeMap_literal (type : list N) :
  type ∉ [lit "journal"; lit "conference"; lit "preprint"] →
  includes objectPrototypeNames type = false →
  typeMap type = None.
Proof.
  intros Hn Hi. unfold typeMap. rewrite Hi.
  rewrite !not_elem_of_cons in Hn. destruct Hn as (? & ? & ? & _).
  by rewrite !decide_False by done.
Qed.

(** What [filterByType] returns for the arguments of the specification:
    the held array itself for [all], and otherwise a new array with the
    entries of the held one whose [type] is in the set of the alias, or is
    the argument itself. *)
Lemma filterByType_all (p : BibtexParser) (h : Heap) :
  filterByType (lit "all") p h = (Return (entries p), h).
Proof. reflexivity. Qed.

Lemma filterByType_journal (p : BibtexParser) (h : Heap) :
  filterByType (lit "journal") p h
  = (Return (length h),
     h ++ [filter (λ e, e !! lit "type" = Some (lit "article")) (held p h)]).
Proof.
  unfold filterByType. rewrite decide_False by (vm_compute; discriminate).
  replace (typeMap (lit "journal")) with (Some (Types [lit "article"]))
    by (vm_compute; reflexivity).
  simpl. do 3 f_equal. apply list_filter_iff. intros e.
  rewrite typeIn_spec. setoid_rewrite list_elem_of_singleton. naive_solver.
Qed.

Lemma filterByType_conference (p : BibtexParser) (h : Heap) :
  filterByType (lit "conference") p h
  = (Return (length h),
     h ++ [filter (λ e, e !! lit "type" = Some (lit "inproceedings")
                        ∨ e !! lit "type" = Some (lit "conference"))
             (held p h)]).
Proof.
  unfold filterByType. rewrite decide_False by (vm_compute; discriminate).
  replace (typeMap (lit "conference"))
    with (Some (Types [lit "inproceedings"; lit "conference"]))
    by (vm_compute; reflexivity).
  simpl. do 3 f_equal. apply list_filter_iff. intros e.
  rewrite typeIn_spec. setoid_rewrite elem_of_cons.
  setoid_rewrite list_elem_of_singleton. naive_solver.
Qed.

Lemma filterByType_preprint (p : BibtexParser) (h : Heap) :
  filterByType (lit "preprint") p h
  = (Return (length h),
     h ++ [filter (λ e, e !! lit "type" = Some (lit "misc")
                        ∨ e !! lit "type" = Some (lit "unpublished"))
             (held p h)]).
Proof.
  unfold filterByType. rewrite decide_False by (vm_compute; discriminate).
  replace (typeMap (lit "preprint"))
    with (Some (Types [lit "misc"; lit "unpublished"]))
    by (vm_compute; reflexivity).
  simpl. do 3 f_equal. apply list_filter_iff. intros e.
  rewrite typeIn_spec. setoid_rewrite elem_of_cons.
  setoid_rewrite list_elem_of_singleton. naive_solver.
Qed.

Lemma filterByType_literal (type : list N) (p : BibtexParser) (h : Heap) :
  type ∉ [lit "all"; lit "journal"; lit "conference"; lit "preprint"] →
  includes objectPrototypeNames type = false →
  filterByType type p h
  = (Return (length h),
     h ++ [filter (λ e, e !! lit "type" = Some type) (held p h)]).
Proof.
  intros Hn Hi. apply not_elem_of_cons in Hn as [Hall Hn].
  unfold filterByType. rewrite decide_False by done.
  rewrite typeMap_literal by done.
  simpl. do 3 f_equal. apply list_filter_iff. intros e.
  rewrite typeIn_spec. setoid_rewrite list_elem_of_singleton. naive_solver.
Qed.

(** C4 fails for the arguments that name a property of [Object.prototype],
    such as [constructor] or [toString]: with a held list that is not empty
    the call throws and returns no entries, where the claim has the entries
    whose type is that string. *)
Theorem filterByType_inherited_name_throws
    (type : list N) (p : BibtexParser) (h : Heap) :
  includes objectPrototypeNames type = true →
  held p h ≠ [] →
  filterByType type p h = (Throw notAFunction, h).
Proof.
  intros Hi Hne. unfold filterByType.
  assert (Hall : type ≠ lit "all").
  { intros ->. vm_compute in Hi. discriminate. }
  rewrite decide_False by done.
  assert (Hm : typeMap type = Some Inherited).
  { unfold typeMap. rewrite Hi.
    rewrite !decide_False; [done|intros ->; vm_compute in Hi; discriminate ..]. }
  rewrite Hm. simpl. by destruct (held p h).
Qed.

Lemma filterByType_inherited_name_throws_witness :
  includes objectPrototypeNames (lit "constructor") = true
  ∧ held usedParser usedHeap ≠ []
  ∧ filterByType (lit "constructor") usedParser usedHeap
    = (Throw notAFunction, usedHeap).
Proof.
  split; [vm_compute; reflexivity|]. split; [vm_compute; discriminate|].
  apply (filterByType_inherited_name_throws (lit "constructor") usedParser usedHeap);
    [vm_compute; reflexivity | vm_compute; discriminate].
Defined.

(** C10: for every argument [filterByType] changes no array of the heap, so
    the held list is as before; whenever it returns, the returned array is a
    sublist of the held one, that is, entries of it in their order; and it
    returns unless the argument names a property of [Object.prototype] and
    the held list is not empty. *)
Theorem filterByType_frame (type : list N) (p : BibtexParser) (h : Heap) :
  ∃ res h',
    filterByType type p h = (res, h')
    ∧ h `prefix_of` h'
    ∧ held p h' = held p h
    ∧ match res with
      | Return r => default [] (h' !! r) `sublist_of` held p h
      | Throw _ => includes objectPrototypeNames type = true ∧ held p h ≠ []
      end.
Proof.
  unfold filterByType. case_decide as Hall.
  { eexists _, _. split; [reflexivity|]. split; [done|]. split; [done|].
    reflexivity. }
  destruct (default (Types [type]) (typeMap type)) as [l|] eqn:Ht.
  - eexists _, _. split; [reflexivity|]. simpl.
    split; [by apply prefix_app_r|]. split.
    + apply held_app_new. intros E. unfold held. rewrite E.
      by rewrite lookup_ge_None_2.
    + rewrite list_lookup_middle by done. simpl. apply sublist_filter.
  - assert (Hi : includes objectPrototypeNames type = true).
    { unfold typeMap in Ht. repeat case_decide; try discriminate.
      by destruct (includes objectPrototypeNames type). }
    destruct (held p h) as [|e l] eqn:Hh.
    + eexists _, _. split; [reflexivity|]. simpl.
      split; [by apply prefix_app_r|]. split.
      * rewrite held_app_new; done.
      * by rewrite list_lookup_middle.
    + eexists _, _. split; [reflexivity|]. by rewrite Hh.
Qed.

(** ** Claims about [sortByYear] *)

Lemma exactYear_Some e : exactYear e → yearOf e = Some (yearNum e).
Proof. unfold exactYear, yearNum. by destruct (yearOf e). Qed.

(** A missing or empty year is the year 0. *)
Lemma yearOf_missing (e : Entry) :
  e !! lit "year" = None ∨ e !! lit "year" = Some [] → yearOf e = Some 0%Z.
Proof. unfold yearOf, yearString. by intros [-> | ->]. Qed.

(** [x] passes [y] in the insertion only when both years are numbers and
    the year of [x] is the smaller one. *)
Lemma passes_spec x y :
  (0 <? sortCompare compareYear x y)%Z = true
  ↔ ∃ yx yy, yearOf x = Some yx ∧ yearOf y = Some yy ∧ (yx < yy)%Z.
Proof.
  unfold sortCompare, compareYear.
  destruct (yearOf x) as [yx|], (yearOf y) as [yy|]; simpl;
    rewrite ?Z.ltb_lt; split; try lia; try naive_solver lia.
Qed.

Lemma insertSorted_perm x l : insertSorted compareYear x l ≡ₚ x :: l.
Proof.
  induction l as [|y l IH]; simpl; [done|].
  destruct (0 <? sortCompare compareYear x y)%Z; [|done].
  rewrite IH. apply Permutation_swap.
Qed.

Lemma arraySort_perm l : arraySort compareYear l ≡ₚ l.
Proof.
  induction l as [|x l IH]; simpl; [done|].
  rewrite insertSorted_perm. by constructor.
Qed.

(** Stability, with no condition on the years: the entries of one year
    keep their order. *)
Lemma insertSorted_stable y x l :
  filter (sameYear y) (insertSorted compareYear x l)
  = filter (sameYear y) (x :: l).
Proof.
  induction l as [|z l IH]; simpl; [done|].
  destruct (0 <? sortCompare compareYear x z)%Z eqn:E; [|done].
  apply passes_spec in E as (yx & yz & Hx & Hz & Hlt).
  rewrite (filter_cons _ z), IH, !filter_cons.
  repeat case_decide; unfold sameYear in *; simplify_eq; try done; lia.
Qed.

Lemma arraySort_stable y l :
  filter (sameYear y) (arraySort compareYear l) = filter (sameYear y) l.
Proof.
  induction l as [|x l IH]; simpl; [done|].
  rewrite insertSorted_stable, !filter_cons, IH. done.
Qed.

Lemma insertSorted_sorted x l :
  exactYear x → Forall exactYear l →
  StronglySorted byYearDescending l →
  StronglySorted byYearDescending (insertSorted compareYear x l).
Proof.
  intros Hx Hl Hs. induction Hs as [|y l Hs IH Hy]; simpl.
  - repeat constructor.
  - apply Forall_cons in Hl as [Hey Hl].
    destruct (0 <? sortCompare compareYear x y)%Z eqn:E.
    + apply passes_spec in E as (yx & yy & Ex & Ey & Hlt).
      constructor; [by apply IH|].
      rewrite insertSorted_perm. constructor; [|done].
      unfold byYearDescending, yearNum. rewrite Ex, Ey. simpl. lia.
    + assert (Hle : (yearNum y ≤ yearNum x)%Z).
      { apply exactYear_Some in Hx, Hey.
        destruct (decide (yearNum x < yearNum y)%Z) as [Hlt|]; [|lia].
        assert (Hp : (0 <? sortCompare compareYear x y)%Z = true)
          by (apply passes_spec; eauto 6).
        congruence. }
      constructor; [by constructor|].
      constructor; [done|].
      eapply Forall_impl; [exact Hy|].
      unfold byYearDescending. intros z Hz; simpl in *. lia.
Qed.

Lemma arraySort_sorted l :
  Forall exactYear l → StronglySorted byYearDescending (arraySort compareYear l).
Proof.
  induction 1 as [|x l Hx Hl IH]; simpl; [constructor|].
  apply insertSorted_sorted; [done| |done].
  by rewrite arraySort_perm.
Qed.

(** The result does not depend on the sorting algorithm: a list is fixed by
    being ordered by year and having, for each year, a given sequence of
    entries.  Any stable sort therefore returns what [arraySort] returns. *)
Lemma stable_sort_unique (l1 l2 : list Entry) :
  Forall exactYear l1 → Forall exactYear l2 →
  StronglySorted byYearDescending l1 → StronglySorted byYearDescending l2 →
  (∀ y, filter (sameYear y) l1 = filter (sameYear y) l2) →
  l1 = l2.
Proof.
  intros H1. revert l2. induction H1 as [|a l1 Ha H1 IH]; intros l2 H2 S1 S2 Hf.
  - destruct l2 as [|b l2]; [done|].
    apply Forall_cons in H2 as [Hb _]. apply exactYear_Some in Hb.
    specialize (Hf (yearNum b)). rewrite filter_nil, filter_cons_True in Hf; done.
  - destruct l2 as [|b l2].
    { apply exactYear_Some in Ha.
      specialize (Hf (yearNum a)). rewrite filter_nil, filter_cons_True in Hf; done. }
    apply Forall_cons in H2 as [Hb H2].
    apply StronglySorted_inv in S1 as [S1 Fa], S2 as [S2 Fb].
    pose proof (exactYear_Some _ Ha) as Ea. pose proof (exactYear_Some _ Hb) as Eb.
    assert (Hab : (yearNum a ≤ yearNum b)%Z).
    { assert (Hin : a ∈ filter (sameYear (yearNum a)) (b :: l2)).
      { rewrite <- Hf, filter_cons_True by done. left. }
      apply list_elem_of_filter in Hin as [_ Hin].
      apply elem_of_cons in Hin as [->|Hin]; [done|].
      by apply (proj1 (Forall_forall _ _) Fb). }
    assert (Hba : (yearNum b ≤ yearNum a)%Z).
    { assert (Hin : b ∈ filter (sameYear (yearNum b)) (a :: l1)).
      { rewrite Hf, filter_cons_True by done. left. }
      apply list_elem_of_filter in Hin as [_ Hin].
      apply elem_of_cons in Hin as [->|Hin]; [done|].
      by apply (proj1 (Forall_forall _ _) Fa). }
    assert (E : yearNum a = yearNum b) by lia.
    pose proof (Hf (yearNum a)) as Hh.
    rewrite !filter_cons_True in Hh by (unfold sameYear; congruence).
    injection Hh as <- Hh. f_equal. apply IH; try done.
    intros y. destruct (decide (y = yearNum a)) as [->|Hne]; [done|].
    specialize (Hf y).
    rewrite !filter_cons_False in Hf by (unfold sameYear; congruence). done.
Qed.

(** In particular [arraySort] returns the one list that is a rearrangement
    of its input, ordered by year, and stable. *)
Corollary arraySort_unique (l l' : list Entry) :
  Forall exactYear l → l' ≡ₚ l →
  StronglySorted byYearDescending l' →
  (∀ y, filter (sameYear y) l' = filter (sameYear y) l) →
  l' = arraySort compareYear l.
Proof.
  intros Hl Hp Hs Hf. apply stable_sort_unique; try done.
  - by rewrite Hp.
  - by rewrite arraySort_perm.
  - by apply arraySort_sorted.
  - intros y. by rewrite Hf, arraySort_stable.
Qed.

Lemma alter_insert_Some {A} (f : A → A) (i : nat) (l : list A) (x : A) :
  l !! i = Some x → alter f i l = <[i := f x]> l.
Proof.
  revert i. induction l as [|y l IH]; intros [|i] H; simplify_eq/=; [done|].
  unfold alter, insert in *. simpl. f_equal. by apply IH.
Qed.

(** In a list ordered by year, an entry of a later year stands in front
    of every entry of an earlier year. *)
Lemma sorted_lookup_lt (l : list Entry) i j a b :
  StronglySorted byYearDescending l →
  l !! i = Some a → l !! j = Some b → (i < j)%nat → byYearDescending a b.
Proof.
  intros Hs. revert i j. induction Hs as [|x l Hs IH Hx]; intros i j Ha Hb Hij.
  - done.
  - destruct j as [|j]; [lia|]. destruct i as [|i]; simpl in *.
    + injection Ha as <-. rewrite Forall_forall in Hx. apply Hx.
      by eapply list_elem_of_lookup_2.
    + eapply IH; [done..|lia].
Qed.

Lemma later_year_first (l : list Entry) i j a b :
  StronglySorted byYearDescending l →
  l !! i = Some a → l !! j = Some b → (yearNum b < yearNum a)%Z → (i < j)%nat.
Proof.
  intros Hs Ha Hb Hlt.
  destruct (decide (i < j)%nat) as [|Hge]; [done|exfalso].
  destruct (decide (i = j)) as [->|Hne].
  - rewrite Ha in Hb. injection Hb as ->. lia.
  - assert (H : byYearDescending b a)
      by (eapply (sorted_lookup_lt l j i); [done..|lia]).
    unfold byYearDescending in H. lia.
Qed.

(** C1, as stated, fails: an entry without a year counts as year 0, so it
    comes before an entry whose year parses to a negative number (and stays
    in front of a later entry whose year is 0), not after every entry with a
    numeric year. *)
Lemma undated_before_negative_year :
  ∃ h',
    sortByYear usedParser datedHeap = (0%nat, h')
    ∧ held usedParser h'
      = [sampleEntry (lit "p") (lit "2020"); undated;
         sampleEntry (lit "n") (lit "-5")]
    ∧ ¬ yearlessLast (held usedParser h').
Proof.
  eexists. split; [reflexivity|].
  split; [vm_compute; reflexivity|].
  intros H.
  specialize (H 1%nat 2%nat undated (sampleEntry (lit "n") (lit "-5"))).
  assert (Hlt : (2 < 1)%nat); [|lia].
  apply H.
  - vm_compute; reflexivity.
  - vm_compute; reflexivity.
  - intros (y & Hy & _). vm_compute in Hy. discriminate.
  - exists (lit "-5"). split; vm_compute; eauto.
Qed.

(** A year that [parseInt] cannot read is NaN, not 0: the comparison with
    it yields NaN, which the sort takes for "equal", so such an entry stays
    where it is, here in front of an entry of 2020.  (With NaN the
    comparison function is not a consistent ordering and the language leaves
    the order to the implementation; for two elements every stable
    procedure that follows the comparison agrees.) *)
Example unreadable_year_stays_in_front :
  yearOf (sampleEntry (lit "q") (lit "in press")) = None
  ∧ arraySort compareYear
      [sampleEntry (lit "q") (lit "in press"); sampleEntry (lit "p") (lit "2020")]
    = [sampleEntry (lit "q") (lit "in press"); sampleEntry (lit "p") (lit "2020")].
Proof. split; vm_compute; reflexivity. Qed.

(** C1, amended: when the year of every held entry is missing, empty or
    parses to an integer (of magnitude at most [2^53]), [sortByYear] returns
    the reference of the held array and has replaced its contents by a
    rearrangement that is ordered by numeric year, descending (an entry of
    a later year stands in front of every entry of an earlier one), where a
    missing or empty year is the year 0; entries of one year keep their
    order. *)
Theorem sortByYear_sorted_stable (p : BibtexParser) (h : Heap) (l : list Entry) :
  h !! entries p = Some l →
  Forall exactYear l →
  ∃ l',
    sortByYear p h = (getEntries p, <[entries p := l']> h)
    ∧ held p (<[entries p := l']> h) = l'
    ∧ l' ≡ₚ l
    ∧ StronglySorted byYearDescending l'
    ∧ (∀ i j a b, l' !! i = Some a → l' !! j = Some b →
                  (yearNum b < yearNum a)%Z → (i < j)%nat)
    ∧ (∀ e, e !! lit "year" = None ∨ e !! lit "year" = Some [] → yearNum e = 0%Z)
    ∧ (∀ y, filter (sameYear y) l' = filter (sameYear y) l).
Proof.
  intros Hl Hy. exists (arraySort compareYear l).
  pose proof (arraySort_sorted l Hy) as Hs. repeat split.
  - unfold sortByYear, getEntries. f_equal. by apply alter_insert_Some.
  - unfold held. rewrite list_lookup_insert_eq; [done|]. by eapply lookup_lt_Some.
  - apply arraySort_perm.
  - done.
  - intros i j a b. by apply later_year_first.
  - intros e He. unfold yearNum. by rewrite yearOf_missing.
  - intros y. apply arraySort_stable.
Qed.

Lemma sortByYear_sorted_stable_witness :
  datedHeap !! entries usedParser
  = Some [sampleEntry (lit "n") (lit "-5"); undated;
          sampleEntry (lit "p") (lit "2020")]
  ∧ Forall exactYear [sampleEntry (lit "n") (lit "-5"); undated;
                      sampleEntry (lit "p") (lit "2020")]
  ∧ ∃ l',
      sortByYear usedParser datedHeap
      = (getEntries usedParser, <[entries usedParser := l']> datedHeap)
      ∧ held usedParser (<[entries usedParser := l']> datedHeap) = l'
      ∧ l' ≡ₚ [sampleEntry (lit "n") (lit "-5"); undated;
               sampleEntry (lit "p") (lit "2020")]
      ∧ StronglySorted byYearDescending l'
      ∧ (∀ i j a b, l' !! i = Some a → l' !! j = Some b →
                    (yearNum b < yearNum a)%Z → (i < j)%nat)
      ∧ (∀ e, e !! lit "year" = None ∨ e !! lit "year" = Some [] → yearNum e = 0%Z)
      ∧ (∀ y, filter (sameYear y) l'
              = filter (sameYear y)
                  [sampleEntry (lit "n") (lit "-5"); undated;
                   sampleEntry (lit "p") (lit "2020")]).
Proof.
  split; [reflexivity|].
  split; [repeat constructor|].
  apply (sortByYear_sorted_stable usedParser datedHeap); [reflexivity|].
  repeat constructor.
Defined.

(** ** Claims about the field expression *)

Lemma space_not_word c : isSpace c → isWord c = false.
Proof. intros H. destruct (isWord c) eqn:W; [|done]. char_facts. lia. Qed.

Lemma opener_not_word c : isOpener c → isWord c = false.
Proof. intros H. destruct (isWord c) eqn:W; [|done]. char_facts. lia. Qed.

Lemma opener_not_space c : isOpener c → isSpace c = false.
Proof. intros H. destruct (isSpace c) eqn:W; [|done]. char_facts. lia. Qed.

Lemma closer_not_terminator c : isCloser c → isLineTerminator c = false.
Proof. intros H. destruct (isLineTerminator c) eqn:W; [|done]. char_facts. lia. Qed.

(** A run of white space and what is behind it, seen by the two stars. *)
Lemma skip_word_spaces ws c r :
  Forall isSpace ws → isWord c = false → skip isWord (ws ++ c :: r) = ws ++ c :: r.
Proof.
  intros Hws Hc. destruct Hws as [|w ws Hw Hws]; simpl; [by rewrite Hc|].
  by rewrite space_not_word.
Qed.

Lemma while_word_spaces ws c r :
  Forall isSpace ws → isWord c = false → while isWord (ws ++ c :: r) = [].
Proof.
  intros Hws Hc. destruct Hws as [|w ws Hw Hws]; simpl; [by rewrite Hc|].
  by rewrite space_not_word.
Qed.

Lemma skip_spaces ws c r :
  Forall isSpace ws → isSpace c = false → skip isSpace (ws ++ c :: r) = c :: r.
Proof. intros Hws Hc. rewrite skip_app_all by done. simpl. by rewrite Hc. Qed.

(** The value of a field ends at the first closer, whichever it is. *)
Lemma lazyValue_closed v c rest :
  Forall valueChar v → isCloser c → lazyValue (v ++ c :: rest) = Some (v, rest).
Proof.
  intros Hv Hc. induction Hv as [|x v [Hx1 Hx2] _ IH]; simpl.
  - by rewrite (Is_true_eq_true _ Hc).
  - apply negb_prop_intro, Is_true_eq_true, negb_true_iff in Hx1, Hx2.
    by rewrite Hx1, Hx2, IH.
Qed.

(** Without a closer in front of the end of the line there is no value. *)
Lemma lazyValue_open v rest :
  Forall valueChar v →
  rest = [] ∨ (∃ c r, rest = c :: r ∧ isLineTerminator c) →
  lazyValue (v ++ rest) = None.
Proof.
  intros Hv Hrest. induction Hv as [|x v [Hx1 Hx2] _ IH]; simpl.
  - destruct Hrest as [->|(c & r & -> & Hc)]; [done|]. simpl.
    destruct (isCloser c) eqn:E.
    + apply Is_true_eq_left, closer_not_terminator in E.
      rewrite E in Hc. done.
    + by rewrite (Is_true_eq_true _ Hc).
  - apply negb_prop_intro, Is_true_eq_true, negb_true_iff in Hx1, Hx2.
    by rewrite Hx1, Hx2, IH.
Qed.

(** The attempt at the start of a field [name = value], with any white
    space around the equals sign and any opener. *)
Lemma matchFieldAt_field name ws1 ws2 o tail :
  name ≠ [] → Forall isWord name → Forall isSpace ws1 → Forall isSpace ws2 →
  isOpener o →
  matchFieldAt (name ++ ws1 ++ equals :: ws2 ++ o :: tail)
  = match lazyValue tail with
    | Some (v, rest) =>
        Some {| f_name := name; f_value := v;
                f_len := (length (name ++ ws1 ++ equals :: ws2 ++ o :: tail)
                          - length rest)%nat |}
    | None => None
    end.
Proof.
  intros Hne Hn H1 H2 Ho. unfold matchFieldAt.
  rewrite while_app_all, skip_app_all by done.
  rewrite while_word_spaces, skip_word_spaces by done.
  rewrite app_nil_r. rewrite skip_spaces by done.
  rewrite N.eqb_refl.
  rewrite skip_spaces; [|done|by apply opener_not_space].
  rewrite (Is_true_eq_true _ Ho).
  destruct name; [done|]. by destruct (lazyValue tail) as [[v rest]|].
Qed.

Lemma scanFields_match s m :
  matchFieldAt s = Some m →
  scanFields 0 s = m :: scanFields (f_len m - 1) (tail s).
Proof.
  intros H. destruct s as [|c s]; [done|]. simpl scanFields at 1.
  by rewrite H.
Qed.

(** C8: the opener and the closer of a value are matched independently.  A
    field [name = value] written with either opener (brace or quote) and
    either closer (quote or brace), also a mismatched pair, is accepted and
    yields the trimmed value under the lower-cased name. *)
Theorem field_delimiters_interchangeable
    (name ws1 ws2 value : list N) (o c : N) :
  name ≠ [] → Forall isWord name → Forall isSpace ws1 → Forall isSpace ws2 →
  isOpener o → isCloser c → Forall valueChar value →
  toLowerCase name ≠ lit "__proto__" →
  parseFields (name ++ ws1 ++ equals :: ws2 ++ o :: value ++ [c])
  = {[ toLowerCase name := trim value ]}.
Proof.
  intros Hne Hn H1 H2 Ho Hc Hv Hproto. unfold parseFields.
  erewrite scanFields_match; last first.
  { rewrite matchFieldAt_field by done.
    by rewrite lazyValue_closed by done. }
  rewrite scanFields_covered.
  - simpl. unfold setField. simpl. rewrite decide_False by done.
    apply insert_empty.
  - simpl. destruct name; [done|]. simpl. lia.
Qed.

Lemma field_delimiters_interchangeable_witness :
  lit "name" ≠ [] ∧ Forall isWord (lit "name")
  ∧ Forall isSpace (lit " ") ∧ Forall isSpace (lit " ")
  ∧ isOpener lbrace ∧ isCloser quote ∧ Forall valueChar (lit "value")
  ∧ toLowerCase (lit "name") ≠ lit "__proto__"
  ∧ parseFields (lit "name" ++ lit " " ++ equals :: lit " " ++ lbrace
                 :: lit "value" ++ [quote])
    = {[ toLowerCase (lit "name") := trim (lit "value") ]}.
Proof.
  assert (Hv : Forall valueChar (lit "value"))
    by (repeat constructor; vm_compute; exact id).
  split; [vm_compute; discriminate|].
  split; [repeat constructor|]. split; [repeat constructor|].
  split; [repeat constructor|]. split; [exact I|]. split; [exact I|].
  split; [exact Hv|]. split; [vm_compute; discriminate|].
  apply (field_delimiters_interchangeable
           (lit "name") (lit " ") (lit " ") (lit "value") lbrace quote);
    try exact Hv; try exact I; try (repeat constructor);
    vm_compute; discriminate.
Defined.

(** The other mismatched pair, and the text of the first one as the source
    would have it, run through the scanner. *)
Example quote_opened_brace_closed :
  parseFields (lit "name = " ++ [quote] ++ lit "value}")
  = {[ lit "name" := lit "value" ]}.
Proof. vm_compute. reflexivity. Qed.

Example brace_opened_quote_closed :
  parseFields (lit "name = {value" ++ [quote])
  = {[ lit "name" := lit "value" ]}.
Proof. vm_compute. reflexivity. Qed.

(** ** Claims about comment removal *)

Lemma stripFrom_keep pre r :
  percent ∉ pre → stripFrom false (pre ++ r) = pre ++ stripFrom false r.
Proof.
  induction pre as [|c pre IH]; intros H; simpl; [done|].
  apply not_elem_of_cons in H as [Hc H].
  destruct (c =? percent) eqn:E; [apply N.eqb_eq in E; congruence|].
  by rewrite IH.
Qed.

(** Inside a comment everything up to the line terminator goes. *)
Lemma stripFrom_comment junk rest :
  Forall (λ c, ¬ isLineTerminator c) junk →
  rest = [] ∨ (∃ c r, rest = c :: r ∧ isLineTerminator c) →
  stripFrom true (junk ++ rest) = stripFrom false rest.
Proof.
  intros Hj Hrest. induction Hj as [|x junk Hx _ IH]; simpl.
  - destruct Hrest as [->|(c & r & -> & Hc)]; [done|]. simpl.
    rewrite (Is_true_eq_true _ Hc).
    destruct (c =? percent) eqn:E; [|done].
    apply N.eqb_eq in E. subst. done.
  - apply negb_prop_intro, Is_true_eq_true, negb_true_iff in Hx.
    by rewrite Hx.
Qed.

Lemma stripFrom_no_percent b s : percent ∉ stripFrom b s.
Proof.
  revert b. induction s as [|c s IH]; intros b; simpl; [apply not_elem_of_nil|].
  destruct b.
  - destruct (isLineTerminator c) eqn:E; [|done].
    apply not_elem_of_cons. split; [|done]. intros <-. done.
  - destruct (c =? percent) eqn:E; [done|].
    apply not_elem_of_cons. split; [|done].
    apply N.eqb_neq in E. congruence.
Qed.

Lemma stripComments_idem s : stripComments (stripComments s) = stripComments s.
Proof.
  unfold stripComments.
  rewrite <- (app_nil_r (stripFrom false s)) at 1.
  rewrite stripFrom_keep by apply stripFrom_no_percent.
  simpl. apply app_nil_r.
Qed.

Lemma Forall_suffix {A} (P : A → Prop) (s' s : list A) :
  Forall P s → s' `suffix_of` s → Forall P s'.
Proof.
  rewrite !Forall_forall. intros H Hs x Hx. apply H. by eapply elem_of_suffix.
Qed.

Lemma lazyValue_no_closer s : Forall (λ c, ¬ isCloser c) s → lazyValue s = None.
Proof.
  induction 1 as [|c s Hc _ IH]; simpl; [done|].
  apply negb_prop_intro, Is_true_eq_true, negb_true_iff in Hc.
  rewrite Hc, IH. by destruct (isLineTerminator c).
Qed.

Lemma matchFieldAt_no_closer s :
  Forall (λ c, ¬ isCloser c) s → matchFieldAt s = None.
Proof.
  intros H. unfold matchFieldAt.
  destruct (while isWord s); [done|].
  destruct (skip isSpace (skip isWord s)) as [|e s1] eqn:E1; [done|].
  destruct (e =? equals); [|done].
  destruct (skip isSpace s1) as [|o s2] eqn:E2; [done|].
  destruct (isOpener o); [|done].
  rewrite lazyValue_no_closer; [done|].
  eapply Forall_suffix; [exact H|].
  transitivity (o :: s2); [by apply suffix_cons_r|].
  rewrite <- E2. transitivity s1; [apply skip_suffix|].
  transitivity (e :: s1); [by apply suffix_cons_r|].
  rewrite <- E1. transitivity (skip isWord s); apply skip_suffix.
Qed.

Lemma matchFieldAt_nonword c s : isWord c = false → matchFieldAt (c :: s) = None.
Proof. intros H. unfold matchFieldAt. simpl. by rewrite H. Qed.

Lemma scanFields_no_closer s :
  Forall (λ c, ¬ isCloser c) s → scanFields 0 s = [].
Proof.
  induction 1 as [|c s Hc Hs IH]; [done|]. cbn [scanFields].
  rewrite matchFieldAt_no_closer; [done|by constructor].
Qed.

Lemma scanFields_nonword c r :
  isWord c = false → scanFields 0 (c :: r) = scanFields 0 r.
Proof. intros H. cbn [scanFields]. by rewrite matchFieldAt_nonword. Qed.

Lemma scanFields_nonwords a r :
  Forall (λ c, isWord c = false) a → scanFields 0 (a ++ r) = scanFields 0 r.
Proof.
  induction 1 as [|c a Hc _ IH]; [done|].
  rewrite <- app_comm_cons. by rewrite scanFields_nonword.
Qed.

(** A field whose value is left open (its closer fell to a comment) gives
    no match: not at its start, and nowhere else in it. *)
Lemma scanFields_open_field name ws1 ws2 o value :
  Forall isWord name → Forall isSpace ws1 → Forall isSpace ws2 →
  isOpener o → Forall valueChar value →
  scanFields 0 (name ++ ws1 ++ equals :: ws2 ++ o :: value) = [].
Proof.
  intros Hn H1 H2 Ho Hv.
  induction Hn as [|c name Hc Hn IH].
  - simpl. rewrite scanFields_nonwords
      by (eapply Forall_impl; [exact H1|]; apply space_not_word).
    rewrite scanFields_nonword by done.
    rewrite scanFields_nonwords
      by (eapply Forall_impl; [exact H2|]; apply space_not_word).
    rewrite scanFields_nonword by (by apply opener_not_word).
    apply scanFields_no_closer. eapply Forall_impl; [exact Hv|]. by intros x [].
  - rewrite <- app_comm_cons. cbn [scanFields]. rewrite app_comm_cons.
    rewrite matchFieldAt_field; [|done|by constructor|done..].
    rewrite <- (app_nil_r value) at 1.
    rewrite lazyValue_open; [|done|by left]. exact IH.
Qed.

Lemma openField_no_percent name ws1 ws2 o value :
  Forall isWord name → Forall isSpace ws1 → Forall isSpace ws2 →
  isOpener o → percent ∉ value →
  percent ∉ openField name ws1 ws2 o value.
Proof.
  intros Hn H1 H2 Ho Hv. unfold openField.
  rewrite !not_elem_of_app, !not_elem_of_cons, !not_elem_of_app, !not_elem_of_cons.
  rewrite Forall_forall in Hn, H1, H2.
  repeat split; try done.
  - intros H. apply Hn in H. done.
  - intros H. apply H1 in H. done.
  - intros H. apply H2 in H. done.
  - intros <-. done.
Qed.

Lemma parse_strip (text : list N) (p : BibtexParser) (h : Heap) :
  parse text p h = parse (stripComments text) p h.
Proof. by rewrite !parse_eq, stripComments_idem. Qed.

(** C9, as stated, fails in its last part: the value is not cut at the
    percent sign, the field is lost.  Here the title is absent from the
    entry (it is not the string 50), while the year of the next line is
    read. *)
Lemma value_with_percent_not_truncated :
  ∃ r p' h' e,
    parse percentText usedParser usedHeap = (r, p', h')
    ∧ held p' h' = [e]
    ∧ e = sampleEntry (lit "k") (lit "2020")
    ∧ e !! lit "title" = None
    ∧ e !! lit "title" ≠ Some (lit "50").
Proof.
  eexists _, _, _, _. split; [apply parse_eq|].
  rewrite held_alloc. split; [vm_compute; reflexivity|].
  split; [vm_compute; reflexivity|].
  split; [vm_compute; reflexivity|]. vm_compute. discriminate.
Qed.

(** Matches need an equals sign. *)
Lemma matchFieldAt_equals s m : matchFieldAt s = Some m → equals ∈ s.
Proof.
  unfold matchFieldAt.
  destruct (while isWord s); [done|].
  destruct (skip isSpace (skip isWord s)) as [|e s1] eqn:E1; [done|].
  destruct (e =? equals) eqn:Ee; [|done]. intros _.
  apply N.eqb_eq in Ee. subst e.
  eapply elem_of_suffix; [left|]. rewrite <- E1.
  transitivity (skip isWord s); apply skip_suffix.
Qed.

Lemma scanFields_no_equals k s : equals ∉ s → scanFields k s = [].
Proof.
  revert k. induction s as [|c s IH]; intros k Hs; [done|].
  cbn [scanFields]. destruct k; [|apply IH; set_solver].
  destruct (matchFieldAt (c :: s)) eqn:E.
  - by apply matchFieldAt_equals in E.
  - apply IH. set_solver.
Qed.

(** ** Fields in front of an open field *)

Lemma scanFields_skip a r : scanFields (length a) (a ++ r) = scanFields 0 r.
Proof. induction a as [|c a IH]; simpl; [by destruct r|done]. Qed.

Lemma scanFields_field name ws1 ws2 o value c rest :
  name ≠ [] → Forall isWord name → Forall isSpace ws1 → Forall isSpace ws2 →
  isOpener o → isCloser c → Forall valueChar value →
  ∃ len,
    scanFields 0 (openField name ws1 ws2 o value ++ [c] ++ rest)
    = {| f_name := name; f_value := value; f_len := len |} :: scanFields 0 rest.
Proof.
  intros Hne Hn H1 H2 Ho Hc Hv. eexists. change ([c] ++ rest) with (c :: rest).
  erewrite scanFields_match; last first.
  { unfold openField.
    rewrite <- !app_assoc, <- !app_comm_cons, <- !app_assoc, <- !app_comm_cons.
    rewrite matchFieldAt_field by done.
    by rewrite lazyValue_closed by done. }
  f_equal. simpl f_len.
  unfold openField. destruct name as [|n name]; [done|].
  rewrite <- !app_assoc, <- !app_comm_cons, <- !app_assoc, <- !app_comm_cons.
  simpl tail.
  replace (name ++ ws1 ++ equals :: ws2 ++ o :: value ++ c :: rest)
    with ((name ++ ws1 ++ equals :: ws2 ++ o :: value ++ [c]) ++ rest)
    by (by rewrite <- !app_assoc, <- !app_comm_cons, <- !app_assoc, <- !app_comm_cons,
            <- app_assoc).
  rewrite <- (scanFields_skip (name ++ ws1 ++ equals :: ws2 ++ o :: value ++ [c]) rest).
  f_equal.
  repeat (rewrite ?length_app, ?length_cons). simpl. lia.
Qed.

Lemma setField_assign fields f len :
  setField fields {| f_name := fs_name f; f_value := fs_value f; f_len := len |}
  = assignField fields f.
Proof. reflexivity. Qed.

Lemma scanFields_fields_then (l : list FieldSrc) (t : list N) (fields : Entry) :
  Forall wfField l →
  foldl setField fields (scanFields 0 (concat (fieldSrcText <$> l) ++ t))
  = foldl setField (foldl assignField fields l) (scanFields 0 t).
Proof.
  intros Hl. revert fields.
  induction Hl as [|f l (Hs & Hne & Hn & H1 & H2 & Ho & Hc & Hv) _ IH]; intros fields.
  - done.
  - rewrite fmap_cons. cbn [concat foldl].
    unfold fieldSrcText at 1. rewrite <- !app_assoc.
    rewrite scanFields_nonwords by done.
    destruct (scanFields_field (fs_name f) (fs_ws1 f) (fs_ws2 f) (fs_open f)
                (fs_value f) (fs_close f) (concat (fieldSrcText <$> l) ++ t))
      as [len E]; try done.
    rewrite E. cbn [foldl]. rewrite setField_assign. apply IH.
Qed.

(** A field whose value is left open gives no match at its start nor
    anywhere in front of its value: the scan goes on inside the value. *)
Lemma scanFields_open_then name ws1 ws2 o value rest :
  Forall isWord name → Forall isSpace ws1 → Forall isSpace ws2 →
  isOpener o → Forall valueChar value →
  rest = [] ∨ (∃ c r, rest = c :: r ∧ isLineTerminator c) →
  scanFields 0 (openField name ws1 ws2 o value ++ rest)
  = scanFields 0 (value ++ rest).
Proof.
  intros Hn H1 H2 Ho Hv Hrest. unfold openField.
  rewrite <- !app_assoc, <- !app_comm_cons, <- !app_assoc, <- !app_comm_cons.
  induction Hn as [|c name Hc Hn IH].
  - simpl. rewrite scanFields_nonwords
      by (eapply Forall_impl; [exact H1|]; apply space_not_word).
    rewrite scanFields_nonword by done.
    rewrite scanFields_nonwords
      by (eapply Forall_impl; [exact H2|]; apply space_not_word).
    by rewrite scanFields_nonword by (by apply opener_not_word).
  - rewrite <- app_comm_cons. cbn [scanFields]. rewrite app_comm_cons.
    rewrite matchFieldAt_field; [|done|by constructor|done..].
    rewrite lazyValue_open by done. exact IH.
Qed.

Lemma stripComments_line_start rest :
  rest = [] ∨ (∃ c r, rest = c :: r ∧ isLineTerminator c) →
  stripComments rest = []
  ∨ (∃ c r, stripComments rest = c :: r ∧ isLineTerminator c).
Proof.
  intros [->|(c & r & -> & Hc)]; [by left|right].
  exists c, (stripComments r). split; [|done].
  unfold stripComments. simpl.
  destruct (c =? percent) eqn:Ec; [|done].
  apply N.eqb_eq in Ec. subst. done.
Qed.

(** C9, amended: comments are removed from the whole text before anything
    else ([parse] sees the text only through [stripComments], which leaves
    no percent sign).  When the percent sign stands inside the value of a
    field, the rest of the line goes with it, the closer of the value
    included: what is left of the field is the text up to the percent sign,
    and the field expression does not match there any more.  The value is
    not cut at the percent sign; nothing is stored from a match at that
    field.  The fields of the body are those in front of it and those
    that the scan, going on inside the value, finds in the value and the
    following lines; when no equals sign follows in the value and behind
    it, or when the text ends with the comment, they are the fields in
    front of it alone. *)
Theorem comment_inside_value_drops_field
    (l : list FieldSrc) (sep name ws1 ws2 value junk rest : list N) (o : N) :
  Forall wfField l → Forall (λ c, isWord c = false) sep →
  percent ∉ (concat (fieldSrcText <$> l) ++ sep) →
  name ≠ [] → Forall isWord name → Forall isSpace ws1 → Forall isSpace ws2 →
  isOpener o → Forall valueChar value → percent ∉ value →
  Forall (λ c, ¬ isLineTerminator c) junk →
  rest = [] ∨ (∃ c r, rest = c :: r ∧ isLineTerminator c) →
  stripComments (concat (fieldSrcText <$> l) ++ sep
                 ++ openField name ws1 ws2 o value ++ percent :: junk ++ rest)
  = concat (fieldSrcText <$> l) ++ sep
    ++ openField name ws1 ws2 o value ++ stripComments rest
  ∧ matchFieldAt (openField name ws1 ws2 o value ++ stripComments rest) = None
  ∧ parseFields
      (stripComments (concat (fieldSrcText <$> l) ++ sep
                      ++ openField name ws1 ws2 o value
                      ++ percent :: junk ++ rest))
    = foldl setField (foldl assignField ∅ l)
        (scanFields 0 (value ++ stripComments rest))
  ∧ ((equals ∉ value) ∧ (equals ∉ rest) ∨ rest = [] →
     parseFields
       (stripComments (concat (fieldSrcText <$> l) ++ sep
                       ++ openField name ws1 ws2 o value
                       ++ percent :: junk ++ rest))
     = foldl assignField ∅ l)
  ∧ (∀ text, percent ∉ stripComments text)
  ∧ (∀ text p h, parse text p h = parse (stripComments text) p h).
Proof.
  intros Hl Hsep Hpre Hne Hn H1 H2 Ho Hv Hp Hj Hrest.
  assert (Hf : percent ∉ openField name ws1 ws2 o value)
    by (by apply openField_no_percent).
  pose proof (stripComments_line_start rest Hrest) as Hrest'.
  assert (E : stripComments (concat (fieldSrcText <$> l) ++ sep
                 ++ openField name ws1 ws2 o value ++ percent :: junk ++ rest)
              = concat (fieldSrcText <$> l) ++ sep
                ++ openField name ws1 ws2 o value ++ stripComments rest).
  { unfold stripComments.
    rewrite (app_assoc (concat _) sep), stripFrom_keep by done.
    rewrite stripFrom_keep by done. rewrite <- app_assoc. do 3 f_equal.
    change (stripFrom false (percent :: junk ++ rest))
      with (stripFrom true (junk ++ rest)).
    by apply stripFrom_comment. }
  assert (P : parseFields
      (stripComments (concat (fieldSrcText <$> l) ++ sep
                      ++ openField name ws1 ws2 o value
                      ++ percent :: junk ++ rest))
    = foldl setField (foldl assignField ∅ l)
        (scanFields 0 (value ++ stripComments rest))).
  { rewrite E. unfold parseFields. rewrite scanFields_fields_then by done.
    rewrite scanFields_nonwords by done.
    by rewrite scanFields_open_then. }
  split; [exact E|]. split; [|split; [exact P|split; [|split]]].
  - unfold openField.
    rewrite <- !app_assoc, <- !app_comm_cons, <- !app_assoc, <- !app_comm_cons.
    rewrite matchFieldAt_field by done.
    by rewrite lazyValue_open.
  - intros [[Ev Er]| ->]; rewrite P.
    + rewrite scanFields_no_equals; [done|].
      apply not_elem_of_app. split; [done|].
      intros Hin. apply Er.
      eapply elem_of_sublist; [done|apply stripFrom_sublist].
    + change (stripComments []) with (@nil N). rewrite app_nil_r.
      rewrite scanFields_no_closer; [done|].
      eapply Forall_impl; [exact Hv|]. by intros x [].
  - intros text. apply stripFrom_no_percent.
  - intros text p h. apply parse_strip.
Qed.

Lemma comment_inside_value_drops_field_witness :
  Forall wfField fieldsBeforeComment
  ∧ Forall (λ c, isWord c = false) (lit ", ")
  ∧ (percent ∉ (concat (fieldSrcText <$> fieldsBeforeComment) ++ lit ", "))
  ∧ lit "title" ≠ [] ∧ Forall isWord (lit "title")
  ∧ Forall isSpace [] ∧ Forall isSpace []
  ∧ isOpener lbrace ∧ Forall valueChar (lit "50") ∧ (percent ∉ lit "50")
  ∧ Forall (λ c, ¬ isLineTerminator c) (lit " off},")
  ∧ (restOfPercentText = []
     ∨ (∃ c r, restOfPercentText = c :: r ∧ isLineTerminator c))
  ∧ (stripComments (concat (fieldSrcText <$> fieldsBeforeComment) ++ lit ", "
                    ++ openField (lit "title") [] [] lbrace (lit "50")
                    ++ percent :: lit " off}," ++ restOfPercentText)
     = concat (fieldSrcText <$> fieldsBeforeComment) ++ lit ", "
       ++ openField (lit "title") [] [] lbrace (lit "50")
       ++ stripComments restOfPercentText
     ∧ matchFieldAt (openField (lit "title") [] [] lbrace (lit "50")
                     ++ stripComments restOfPercentText)
       = None
     ∧ parseFields
         (stripComments (concat (fieldSrcText <$> fieldsBeforeComment)
                         ++ lit ", "
                         ++ openField (lit "title") [] [] lbrace (lit "50")
                         ++ percent :: lit " off}," ++ restOfPercentText))
       = foldl setField (foldl assignField ∅ fieldsBeforeComment)
           (scanFields 0 (lit "50" ++ stripComments restOfPercentText))
     ∧ ((equals ∉ lit "50") ∧ (equals ∉ restOfPercentText)
        ∨ restOfPercentText = [] →
        parseFields
          (stripComments (concat (fieldSrcText <$> fieldsBeforeComment)
                          ++ lit ", "
                          ++ openField (lit "title") [] [] lbrace (lit "50")
                          ++ percent :: lit " off}," ++ restOfPercentText))
        = foldl assignField ∅ fieldsBeforeComment)
     ∧ (∀ text, percent ∉ stripComments text)
     ∧ (∀ text p h, parse text p h = parse (stripComments text) p h)).
Proof.
  assert (Forall wfField fieldsBeforeComment) as Hl.
  { repeat (constructor; [repeat split; concrete|]). constructor. }
  assert (Forall (λ c, isWord c = false) (lit ", ")) as Hsep by concrete.
  assert (percent ∉ (concat (fieldSrcText <$> fieldsBeforeComment)
                     ++ lit ", ")) as Hpre by concrete.
  assert (lit "title" ≠ []) as Hne by concrete.
  assert (Forall isWord (lit "title")) as Hn by concrete.
  assert (Forall valueChar (lit "50")) as Hv by concrete.
  assert (percent ∉ lit "50") as Hp by concrete.
  assert (Forall (λ c, ¬ isLineTerminator c) (lit " off},")) as Hj
    by concrete.
  assert (restOfPercentText = []
          ∨ (∃ c r, restOfPercentText = c :: r ∧ isLineTerminator c)) as Hr
    by (right; eexists _, _; split; [reflexivity | exact I]).
  split; [exact Hl|]. split; [exact Hsep|]. split; [exact Hpre|].
  split; [exact Hne|]. split; [exact Hn|].
  split; [constructor|]. split; [constructor|].
  split; [exact I|]. split; [exact Hv|]. split; [exact Hp|].
  split; [exact Hj|]. split; [exact Hr|].
  exact (comment_inside_value_drops_field fieldsBeforeComment (lit ", ")
           (lit "title") [] [] (lit "50") (lit " off},") restOfPercentText
           lbrace Hl Hsep Hpre Hne Hn (List.Forall_nil _) (List.Forall_nil _) I Hv Hp
           Hj Hr).
Defined.

(** The name of an open field can come back: the end of its value and
    the next line together can make a field, here one of the same name. *)
Example commented_field_found_later :
  parseFields
    (stripComments (lit "title={x title =% off}" ++ [newline] ++ lit "{z}"))
  = {[ lit "title" := lit "z" ]}.
Proof. vm_compute. reflexivity. Qed.

(** ** Claims about the author list *)

Lemma startsWith_spec sep s : startsWith sep s = true → s = sep ++ drop (length sep) s.
Proof.
  revert s. induction sep as [|a sep IH]; intros s H; simpl in *.
  - by rewrite drop_0.
  - destruct s as [|c s]; [done|]. apply andb_true_iff in H as [E H].
    apply N.eqb_eq in E. subst. simpl. f_equal. by apply IH.
Qed.

Lemma splitFrom_nonempty sep k piece s : splitFrom sep k piece s ≠ [].
Proof.
  revert k piece. induction s as [|c s IH]; intros k piece; simpl; [done|].
  destruct k; [|apply IH]. destruct (startsWith sep (c :: s)); [done|apply IH].
Qed.

Lemma join_cons sep x l : l ≠ [] → join sep (x :: l) = x ++ sep ++ join sep l.
Proof. by destruct l. Qed.

(** Splitting loses nothing: the pieces joined by the separator are the
    string again. *)
Lemma join_splitFrom sep k piece s :
  sep ≠ [] → (k ≤ length s)%nat →
  join sep (splitFrom sep k piece s) = piece ++ drop k s.
Proof.
  intros Hsep. revert k piece.
  induction s as [|c s IH]; intros k piece Hk; simpl in *.
  - by rewrite drop_nil, app_nil_r.
  - destruct k as [|k]; [|apply IH; lia].
    destruct (startsWith sep (c :: s)) eqn:E.
    + pose proof (startsWith_spec _ _ E) as Hs.
      rewrite join_cons by apply splitFrom_nonempty.
      assert (Hlen : (length sep ≤ length (c :: s))%nat).
      { rewrite Hs, length_app. lia. }
      destruct sep as [|a sep]; [done|].
      simpl in *. rewrite IH by lia. simpl. rewrite Nat.sub_0_r.
      injection Hs as -> Hs. by rewrite <- Hs.
    + rewrite IH by lia. by rewrite <- app_assoc.
Qed.

Lemma join_split sep s : sep ≠ [] → join sep (split sep s) = s.
Proof. intros H. unfold split. rewrite join_splitFrom; [done|done|simpl; lia]. Qed.

(** ** The first separator *)

Lemma startsWith_prefix sep s : startsWith sep s = true ↔ sep `prefix_of` s.
Proof.
  split.
  - intros H. apply startsWith_spec in H. by eexists.
  - intros [k ->]. induction sep as [|c sep IH]; [done|].
    simpl. by rewrite N.eqb_refl, IH.
Qed.

Lemma startsWith_app sep u b :
  (length sep ≤ length u)%nat → startsWith sep (u ++ b) = startsWith sep u.
Proof.
  revert u. induction sep as [|c sep IH]; intros u Hl; [by destruct u|].
  destruct u as [|x u]; [simpl in Hl; lia|].
  simpl. rewrite IH; [done|]. simpl in Hl. lia.
Qed.

Lemma splitFrom_skip sep t piece b :
  splitFrom sep (length t) piece (t ++ b) = splitFrom sep 0 piece b.
Proof. induction t as [|c t IH]; simpl; [by destruct b|done]. Qed.

Lemma splitFrom_first sep piece a b :
  sep ≠ [] → firstAt sep a →
  splitFrom sep 0 piece (a ++ sep ++ b) = (piece ++ a) :: splitFrom sep 0 [] b.
Proof.
  intros Hsep. revert piece. induction a as [|x a IH]; intros piece Hf.
  - rewrite app_nil_r. simpl app. destruct sep as [|c sep]; [done|].
    rewrite <- app_comm_cons. cbn [splitFrom].
    assert (Hs : startsWith (c :: sep) (c :: sep ++ b) = true).
    { apply startsWith_prefix. by exists b. }
    rewrite Hs. f_equal. cbn [length]. rewrite Nat.sub_succ, Nat.sub_0_r.
    apply splitFrom_skip.
  - cbn [firstAt] in Hf. apply andb_True in Hf as [Hx Hf].
    rewrite <- app_comm_cons. cbn [splitFrom].
    assert (Hs : startsWith sep (x :: a ++ sep ++ b) = false).
    { rewrite app_comm_cons, app_assoc.
      rewrite startsWith_app by (rewrite length_app; lia).
      apply negb_True in Hx. by destruct (startsWith sep _). }
    rewrite Hs. rewrite IH by done. by rewrite <- app_assoc.
Qed.

Lemma splitFrom_last sep piece a :
  sep ≠ [] → firstAt sep a → splitFrom sep 0 piece a = [piece ++ a].
Proof.
  intros Hsep. revert piece. induction a as [|x a IH]; intros piece Hf.
  - simpl. by rewrite app_nil_r.
  - cbn [firstAt] in Hf. apply andb_True in Hf as [Hx Hf].
    cbn [splitFrom].
    assert (Hs : startsWith sep (x :: a) = false).
    { destruct (startsWith sep (x :: a)) eqn:E; [|done]. exfalso.
      apply negb_True in Hx. apply Hx, Is_true_true.
      apply startsWith_prefix. apply startsWith_prefix in E.
      by apply prefix_app_r. }
    rewrite Hs, IH by done. by rewrite <- app_assoc.
Qed.

(** Splitting undoes joining when no separator starts inside a name. *)
Lemma split_join sep (names : list (list N)) :
  sep ≠ [] → names ≠ [] → Forall (λ n, firstAt sep n) names →
  split sep (join sep names) = names.
Proof.
  intros Hsep Hne Hf. unfold split.
  induction Hf as [|a names Ha Hf IH]; [done|].
  destruct names as [|b names].
  - simpl. by apply splitFrom_last.
  - rewrite join_cons by done. rewrite splitFrom_first by done.
    simpl app. f_equal. by apply IH.
Qed.

Lemma formatAuthor_decorate coauthorsData coFirstAuthors correspondingAuthors author :
  formatAuthor coauthorsData coFirstAuthors correspondingAuthors author
  = decorate coauthorsData coFirstAuthors correspondingAuthors author.
Proof.
  unfold formatAuthor, decorate, linked, bold, mark, includes.
  destruct (d ← coauthorsData; c ← coauthors d; c !! trim author)
    as [[[[|c w]|] a]|];
    destruct (bool_decide (trim author ∈ coFirstAuthors)),
      (bool_decide (trim author ∈ correspondingAuthors));
    rewrite ?app_nil_r, <- ?app_assoc; reflexivity.
Qed.

(** C7: the author string of the scenario is split into the three names;
    A gets the co-first marker, C the corresponding-author marker, B none,
    whatever the coauthor data (which only adds the hyperlinks); without
    coauthor data the list is exactly those three, and with data that has
    websites the hyperlinks stand around the marked names.  In general the
    names are the pieces between the separators: a list of names joined by
    the separator is split into these names again, and each name gets its
    bold styling, its two markers and its hyperlink, each under its own
    condition and one on top of the other. *)
Theorem author_decorations (coauthorsData : option CoauthorsData) :
  formatAuthorsWithLinks coauthorsData (lit "A and B and C") scenarioConfig
  = linked coauthorsData (lit "A") (lit "A<sup>*</sup>") ++ lit ", "
    ++ linked coauthorsData (lit "B") (lit "B") ++ lit ", "
    ++ linked coauthorsData (lit "C")
         (lit "C<sup>" ++ [envelope] ++ lit "</sup>")
  ∧ formatAuthorsWithLinks None (lit "A and B and C") scenarioConfig
    = lit "A<sup>*</sup>, B, C<sup>" ++ [envelope] ++ lit "</sup>"
  ∧ formatAuthorsWithLinks (Some scenarioCoauthors)
      (lit "A and B and C and D") scenarioConfig
    = lit "A<sup>*</sup>, <a href=" ++ [quote] ++ lit "https://b.example"
      ++ [quote] ++ lit " target=" ++ [quote] ++ lit "_blank" ++ [quote]
      ++ lit " title=" ++ [quote] ++ lit "Univ B" ++ [quote]
      ++ lit ">B</a>, <a href=" ++ [quote] ++ lit "https://c.example"
      ++ [quote] ++ lit " target=" ++ [quote] ++ lit "_blank" ++ [quote]
      ++ lit " title=" ++ [quote] ++ [quote]
      ++ lit ">C<sup>" ++ [envelope] ++ lit "</sup></a>, D"
  ∧ formatAuthorsWithLinks (Some ownerCoauthors) (lit "Chaofeng Chen")
      ownerConfig
    = lit "<a href=" ++ [quote] ++ lit "https://c.example" ++ [quote]
      ++ lit " target=" ++ [quote] ++ lit "_blank" ++ [quote]
      ++ lit " title=" ++ [quote] ++ lit "NTU" ++ [quote]
      ++ lit "><strong>Chaofeng Chen</strong><sup>*</sup><sup>"
      ++ [envelope] ++ lit "</sup></a>"
  ∧ (∀ (names : list (list N)) pubConfig,
       names ≠ [] → Forall (λ n, firstAt (lit " and ") n) names →
       split (lit " and ") (join (lit " and ") names) = names
       ∧ formatAuthorsWithLinks coauthorsData (join (lit " and ") names)
           pubConfig
         = join (lit ", ")
             (decorate coauthorsData
                (default [] (co_first_authors pubConfig))
                (default [] (corresponding_authors pubConfig))
              <$> names))
  ∧ (∀ authors, join (lit " and ") (split (lit " and ") authors) = authors).
Proof.
  assert (G : ∀ (names : list (list N)) pubConfig,
       names ≠ [] → Forall (λ n, firstAt (lit " and ") n) names →
       split (lit " and ") (join (lit " and ") names) = names
       ∧ formatAuthorsWithLinks coauthorsData (join (lit " and ") names)
           pubConfig
         = join (lit ", ")
             (decorate coauthorsData
                (default [] (co_first_authors pubConfig))
                (default [] (corresponding_authors pubConfig))
              <$> names)).
  { intros names pubConfig Hne Hf.
    assert (split (lit " and ") (join (lit " and ") names) = names) as Hs
      by (by apply split_join).
    split; [exact Hs|].
    unfold formatAuthorsWithLinks. cbn zeta. rewrite Hs. f_equal.
    apply list_fmap_ext. intros _ a _. apply formatAuthor_decorate. }
  split; [|split; [vm_compute; reflexivity|split; [vm_compute; reflexivity|
    split; [vm_compute; reflexivity|split; [exact G|]]]]].
  - destruct (G [lit "A"; lit "B"; lit "C"] scenarioConfig) as [_ E];
      [done|repeat constructor|].
    change (join (lit " and ") [lit "A"; lit "B"; lit "C"])
      with (lit "A and B and C") in E.
    rewrite E. reflexivity.
  - intros authors. apply join_split. vm_compute. discriminate.
Qed.

(** ** Claims about the citation text *)

(** C2, as stated, fails: for an entry without a title the citation text
    has the bare [title={}] (and likewise for the author). *)
Lemma citation_text_has_empty_title :
  undated !! lit "title" = None
  ∧ substring_of (lit "title={}") (bibtexText undated)
  ∧ substring_of (lit "author={}") (bibtexText undated).
Proof.
  split; [vm_compute; reflexivity|]. split.
  - exists (lit "@article{u," ++ [newline] ++ lit "  ").
    eexists. vm_compute. reflexivity.
  - exists (lit "@article{u," ++ [newline] ++ lit "  title={}," ++ [newline]
            ++ lit "  ").
    eexists. vm_compute. reflexivity.
Qed.

(** C2, amended: the citation text contains the [citeKey], the title and
    the author as they are.  The title and the author lines are always
    written, with an empty pair of braces when the value is missing or
    empty.  The other seven fields have one line each, in a fixed order:
    the line is blank (two spaces) when the value is missing or empty, and
    [name={value}] with its comma otherwise. *)
Theorem citation_text_contents (publication : Entry) :
  (∀ k, publication !! lit "citeKey" = Some k →
        substring_of k (bibtexText publication))
  ∧ (∀ t, publication !! lit "title" = Some t →
          substring_of t (bibtexText publication))
  ∧ (∀ a, publication !! lit "author" = Some a →
          substring_of a (bibtexText publication))
  ∧ substring_of (lit "title={" ++ orEmpty (publication !! lit "title") ++ lit "},")
      (bibtexText publication)
  ∧ substring_of (lit "author={" ++ orEmpty (publication !! lit "author") ++ lit "},")
      (bibtexText publication)
  ∧ bibtexText publication
    = join [newline]
        ([lit "@" ++ interpolate (publication !! lit "type") ++ lit "{"
          ++ interpolate (publication !! lit "citeKey") ++ lit ",";
          lit "  title={" ++ orEmpty (publication !! lit "title") ++ lit "},";
          lit "  author={" ++ orEmpty (publication !! lit "author") ++ lit "},"]
         ++ (optionalLine publication <$> optionalNames)
         ++ [lit "}"])
  ∧ (∀ name, truthy (publication !! name) = false →
             optionalLine publication name = lit "  ")
  ∧ (∀ name v, publication !! name = Some v → v ≠ [] →
       optionalLine publication name
       = lit "  " ++ name ++ lit "={" ++ v ++ lit "}"
         ++ (if decide (name = lit "publisher") then [] else lit ",")).
Proof.
  split; [|split; [|split; [|split; [|split; [|split; [|split]]]]]].
  - intros k Hk. unfold bibtexText. rewrite Hk. simpl interpolate.
    exists (lit "@" ++ interpolate (publication !! lit "type") ++ lit "{").
    eexists. rewrite <- !app_assoc. reflexivity.
  - intros t Ht. unfold bibtexText. rewrite Ht. simpl orEmpty.
    exists (lit "@" ++ interpolate (publication !! lit "type") ++ lit "{"
            ++ interpolate (publication !! lit "citeKey") ++ lit ","
            ++ [newline] ++ lit "  title={").
    eexists. rewrite <- !app_assoc. reflexivity.
  - intros a Ha. unfold bibtexText. rewrite Ha. simpl orEmpty.
    exists (lit "@" ++ interpolate (publication !! lit "type") ++ lit "{"
            ++ interpolate (publication !! lit "citeKey") ++ lit ","
            ++ [newline] ++ lit "  title={"
            ++ orEmpty (publication !! lit "title") ++ lit "},"
            ++ [newline] ++ lit "  author={").
    eexists. rewrite <- !app_assoc. reflexivity.
  - unfold bibtexText.
    exists (lit "@" ++ interpolate (publication !! lit "type") ++ lit "{"
            ++ interpolate (publication !! lit "citeKey") ++ lit ","
            ++ [newline] ++ lit "  ").
    eexists. rewrite <- !app_assoc. reflexivity.
  - unfold bibtexText.
    exists (lit "@" ++ interpolate (publication !! lit "type") ++ lit "{"
            ++ interpolate (publication !! lit "citeKey") ++ lit ","
            ++ [newline] ++ lit "  title={"
            ++ orEmpty (publication !! lit "title") ++ lit "},"
            ++ [newline] ++ lit "  ").
    eexists. rewrite <- !app_assoc. reflexivity.
  - unfold bibtexText, optionalNames, optionalLine.
    cbn [fmap list_fmap app join].
    rewrite !decide_False by (vm_compute; discriminate).
    rewrite decide_True by reflexivity.
    rewrite <- ?app_assoc. reflexivity.
  - intros name H. unfold optionalLine, optionalField. rewrite H.
    by rewrite app_nil_r.
  - intros name v Hv Hne. unfold optionalLine, optionalField. rewrite Hv.
    destruct v; [done|]. simpl truthy. cbn iota. simpl orEmpty.
    rewrite <- ?app_assoc. reflexivity.
Qed.

(** * Properties of the code beside the claims *)

(** ** Trimming *)

Lemma skip_idem p s : skip p (skip p s) = skip p s.
Proof.
  induction s as [|c s IH]; simpl; [done|].
  destruct (p c) eqn:E; [done|]. simpl. by rewrite E.
Qed.

Lemma skip_fixed p s : skip p s = s ↔ match s with c :: _ => p c = false | [] => True end.
Proof.
  destruct s as [|c s]; simpl; [done|].
  destruct (p c) eqn:E; [|done]. split; [|done].
  intros H. pose proof (skip_suffix p s) as Hs. rewrite H in Hs.
  by apply suffix_cons_not in Hs.
Qed.

Lemma trimEnd_prefix s : trimEnd s `prefix_of` s.
Proof.
  unfold trimEnd. destruct (skip_suffix isSpace (reverse s)) as [k Hk].
  exists (reverse k). apply (inj reverse).
  rewrite reverse_app, !reverse_involutive. done.
Qed.

Lemma trimEnd_idem s : trimEnd (trimEnd s) = trimEnd s.
Proof. unfold trimEnd. by rewrite reverse_involutive, skip_idem. Qed.

Lemma trimStart_trimEnd s : trimStart s = s → trimStart (trimEnd s) = trimEnd s.
Proof.
  unfold trimStart. rewrite !skip_fixed. intros H.
  destruct (trimEnd_prefix s) as [k Hk].
  destruct (trimEnd s) as [|c t]; [done|].
  rewrite Hk in H. done.
Qed.

Lemma trim_idem s : trim (trim s) = trim s.
Proof.
  unfold trim. rewrite (trimStart_trimEnd (trimStart s)) by apply skip_idem.
  apply trimEnd_idem.
Qed.

Lemma trim_sublist s : trim s `sublist_of` s.
Proof.
  unfold trim. transitivity (trimStart s).
  - destruct (trimEnd_prefix (trimStart s)) as [k Hk].
    rewrite Hk at 2. by apply sublist_inserts_r.
  - destruct (skip_suffix isSpace s) as [k Hk]. unfold trimStart.
    rewrite Hk at 2. by apply sublist_inserts_l.
Qed.

(** ** What [parseFields] stores *)

Lemma while_Forall (p : N → bool) s : Forall (λ c, p c) (while p s).
Proof.
  induction s as [|c s IH]; simpl; [constructor|].
  destruct (p c) eqn:E; constructor; [by rewrite E|done].
Qed.

Lemma lazyValue_inv s v r :
  lazyValue s = Some (v, r) →
  Forall valueChar v ∧ ∃ c, isCloser c ∧ s = v ++ c :: r.
Proof.
  revert v. induction s as [|c s IH]; intros v H; simpl in H; [done|].
  destruct (isCloser c) eqn:Ec.
  - injection H as <- <-. split; [constructor|]. exists c. by rewrite Ec.
  - destruct (isLineTerminator c) eqn:El; [done|].
    destruct (lazyValue s) as [[v' r']|] eqn:E; [|done].
    injection H as <- <-. destruct (IH v' eq_refl) as [Hv (c' & Hc' & ->)].
    split.
    + constructor; [|done]. split; rewrite ?Ec, ?El; exact id.
    + by exists c'.
Qed.

Lemma matchFieldAt_inv s m :
  matchFieldAt s = Some m →
  f_name m ≠ [] ∧ Forall isWord (f_name m) ∧ Forall valueChar (f_value m).
Proof.
  unfold matchFieldAt. pose proof (while_Forall isWord s) as Hw.
  destruct (while isWord s) as [|n name] eqn:En; [done|].
  destruct (skip isSpace (skip isWord s)) as [|e s1]; [done|].
  destruct (e =? equals); [|done].
  destruct (skip isSpace s1) as [|o s2]; [done|].
  destruct (isOpener o); [|done].
  destruct (lazyValue s2) as [[v r]|] eqn:Ev; [|done].
  intros [= <-]. simpl. apply lazyValue_inv in Ev as [Hv _]. done.
Qed.

Lemma scanFields_inv k s :
  Forall (λ m, f_name m ≠ [] ∧ Forall isWord (f_name m) ∧ Forall valueChar (f_value m))
    (scanFields k s).
Proof.
  revert k. induction s as [|c s IH]; intros k; simpl; [constructor|].
  destruct k; [|apply IH].
  destruct (matchFieldAt (c :: s)) as [m|] eqn:E; [|apply IH].
  constructor; [by eapply matchFieldAt_inv | apply IH].
Qed.

Lemma foldl_setField_lookup (ms : list FieldMatch) (fields : Entry) (key v : list N) :
  foldl setField fields ms !! key = Some v →
  fields !! key = Some v
  ∨ ∃ m, m ∈ ms ∧ key = toLowerCase (f_name m) ∧ v = trim (f_value m)
         ∧ key ≠ lit "__proto__".
Proof.
  revert fields. induction ms as [|m ms IH]; intros fields H; simpl in H; [by left|].
  apply IH in H as [H|(m' & Hm' & ?)].
  - unfold setField in H. case_decide as Hp; [by left|].
    destruct (decide (key = toLowerCase (f_name m))) as [->|Hne].
    + rewrite lookup_insert_eq in H. injection H as <-.
      right. exists m. split; [left|]. done.
    + rewrite lookup_insert_ne in H by done. by left.
  - right. exists m'. split; [by right|done].
Qed.

Lemma lower_word c : isWord c → isWord (lower c).
Proof.
  intros H. unfold lower. destruct ((65 <=? c) && (c <=? 90)) eqn:E; [|done].
  apply andb_true_iff in E as [E1 E2]. apply N.leb_le in E1, E2.
  unfold isWord. apply Is_true_eq_left.
  rewrite !orb_true_iff, !andb_true_iff, !N.leb_le. lia.
Qed.

Lemma lower_idem c : lower (lower c) = lower c.
Proof.
  unfold lower at 1. pose proof (lower_not_upper c) as H.
  by destruct ((65 <=? lower c) && (lower c <=? 90)).
Qed.

Lemma toLowerCase_idem s : toLowerCase (toLowerCase s) = toLowerCase s.
Proof.
  unfold toLowerCase. rewrite <- list_fmap_compose.
  apply list_fmap_ext. intros _ c _. apply lower_idem.
Qed.

Lemma trim_valueChars v : Forall valueChar v → Forall valueChar (trim v).
Proof.
  rewrite !Forall_forall. intros Hv c Hc. apply Hv.
  eapply elem_of_sublist; [done|apply trim_sublist].
Qed.

Lemma parseFields_from_match (content key v : list N) :
  parseFields content !! key = Some v →
  ∃ m, m ∈ scanFields 0 content ∧ key = toLowerCase (f_name m)
       ∧ v = trim (f_value m) ∧ key ≠ lit "__proto__"
       ∧ f_name m ≠ [] ∧ Forall isWord (f_name m)
       ∧ Forall valueChar (f_value m).
Proof.
  unfold parseFields. intros H.
  apply foldl_setField_lookup in H as [H|(m & Hm & -> & -> & Hp)].
  { by rewrite lookup_empty in H. }
  pose proof (scanFields_inv 0 content) as Hinv.
  rewrite Forall_forall in Hinv. destruct (Hinv m Hm) as (Hne & Hw & Hv).
  by exists m.
Qed.

(** X1: every field that [parseFields] stores has a name that is a run of
    word characters, not empty, in lower case and different from
    [__proto__], and a value that is trimmed and holds no quote, no closing
    brace and no line terminator. *)
Theorem parseFields_invariant (content key v : list N) :
  parseFields content !! key = Some v →
  key ≠ [] ∧ Forall isWord key ∧ toLowerCase key = key ∧ key ≠ lit "__proto__"
  ∧ trim v = v ∧ Forall valueChar v.
Proof.
  intros H.
  apply parseFields_from_match in H
    as (m & _ & -> & -> & Hp & Hne & Hw & Hv).
  repeat split.
  - unfold toLowerCase. by destruct (f_name m).
  - unfold toLowerCase. apply Forall_fmap. eapply Forall_impl; [exact Hw|].
    intros c Hc. by apply lower_word.
  - apply toLowerCase_idem.
  - done.
  - apply trim_idem.
  - by apply trim_valueChars.
Qed.

Lemma parseFields_invariant_witness :
  parseFields (lit "Title = {A B}") !! lit "title" = Some (lit "A B")
  ∧ (lit "title" ≠ [] ∧ Forall isWord (lit "title")
     ∧ toLowerCase (lit "title") = lit "title"
     ∧ lit "title" ≠ lit "__proto__"
     ∧ trim (lit "A B") = lit "A B" ∧ Forall valueChar (lit "A B")).
Proof.
  split.
  - vm_compute. reflexivity.
  - apply (parseFields_invariant (lit "Title = {A B}")).
    vm_compute. reflexivity.
Defined.

(** ** A text made of fields *)


Lemma scanFields_field_list (l : list FieldSrc) (tl : list N) (fields : Entry) :
  Forall wfField l → Forall (λ c, isWord c = false) tl →
  foldl setField fields (scanFields 0 (concat (fieldSrcText <$> l) ++ tl))
  = foldl assignField fields l.
Proof.
  intros Hl Htl. revert fields.
  induction Hl as [|f l (Hs & Hne & Hn & H1 & H2 & Ho & Hc & Hv) _ IH]; intros fields.
  - simpl. rewrite <- (app_nil_r tl), scanFields_nonwords by done. done.
  - rewrite fmap_cons. cbn [concat foldl].
    unfold fieldSrcText at 1. rewrite <- !app_assoc.
    rewrite scanFields_nonwords by done.
    destruct (scanFields_field (fs_name f) (fs_ws1 f) (fs_ws2 f) (fs_open f)
                (fs_value f) (fs_close f) (concat (fieldSrcText <$> l) ++ tl))
      as [len E]; try done.
    rewrite E. cbn [foldl]. rewrite setField_assign. apply IH.
Qed.

Lemma foldl_assignField_lookup (l : list FieldSrc) (fields : Entry) (key : list N) :
  key ≠ lit "__proto__" →
  foldl assignField fields l !! key
  = match last (filter (λ f, toLowerCase (fs_name f) = key) l) with
    | Some f => Some (trim (fs_value f))
    | None => fields !! key
    end.
Proof.
  intros Hk. revert fields. induction l as [|f l IH]; intros fields; [done|].
  cbn [foldl]. rewrite IH. rewrite filter_cons.
  destruct (decide (toLowerCase (fs_name f) = key)) as [Hn|Hn].
  - rewrite last_cons. destruct (last _); [done|].
    unfold assignField. rewrite decide_False by congruence.
    rewrite Hn. by rewrite lookup_insert_eq.
  - destruct (last _); [done|].
    unfold assignField. case_decide as Hp; [done|]. by rewrite lookup_insert_ne.
Qed.

Lemma foldl_assignField_proto (l : list FieldSrc) (fields : Entry) :
  fields !! lit "__proto__" = None →
  foldl assignField fields l !! lit "__proto__" = None.
Proof.
  revert fields. induction l as [|f l IH]; intros fields H; [done|].
  cbn [foldl]. apply IH. unfold assignField. case_decide; [done|].
  by rewrite lookup_insert_ne.
Qed.

(** X2: in a text made of well-formed fields (each a name, an equals
    sign, an opener, a value without closer and line terminator, a closer;
    no word character between the fields) the lookup of a name finds the
    trimmed value of the last field whose name, put in lower case, is that
    name, and nothing when there is no such field; the name [__proto__] is
    never stored. *)
Theorem parseFields_last_wins (l : list FieldSrc) (tl key : list N) :
  Forall wfField l → Forall (λ c, isWord c = false) tl →
  parseFields (concat (fieldSrcText <$> l) ++ tl) !! key
  = if decide (key = lit "__proto__") then None
    else (λ f, trim (fs_value f))
           <$> last (filter (λ f, toLowerCase (fs_name f) = key) l).
Proof.
  intros Hl Htl. unfold parseFields. rewrite scanFields_field_list by done.
  case_decide as Hk.
  - subst. by apply foldl_assignField_proto.
  - rewrite foldl_assignField_lookup by done. by destruct (last _).
Qed.

Lemma parseFields_last_wins_witness :
  Forall wfField repeatedFields
  ∧ Forall (λ c, isWord c = false) (lit "}")
  ∧ parseFields (concat (fieldSrcText <$> repeatedFields) ++ lit "}")
      !! lit "year"
    = if decide (lit "year" = lit "__proto__") then None
      else (λ f, trim (fs_value f))
             <$> last (filter (λ f, toLowerCase (fs_name f) = lit "year")
                         repeatedFields).
Proof.
  assert (Forall wfField repeatedFields) as Hl.
  { repeat (constructor; [repeat split; concrete|]). constructor. }
  assert (Forall (λ c, isWord c = false) (lit "}")) as Htl
    by repeat constructor.
  split; [exact Hl|]. split; [exact Htl|].
  exact (parseFields_last_wins repeatedFields (lit "}") (lit "year") Hl Htl).
Defined.

(** ** The end of a value *)

(** X3: the value of a field ends at the first quote or closing brace
    behind its opener, whichever opened it; when no equals sign follows,
    the rest of the text is ignored, so that a value with nested braces is
    cut at the first inner closing brace. *)
Theorem value_ends_at_first_closer (name ws1 ws2 value rest : list N) (o c : N) :
  name ≠ [] → Forall isWord name → Forall isSpace ws1 → Forall isSpace ws2 →
  isOpener o → isCloser c → Forall valueChar value →
  toLowerCase name ≠ lit "__proto__" → equals ∉ rest →
  parseFields (openField name ws1 ws2 o value ++ [c] ++ rest)
  = {[ toLowerCase name := trim value ]}.
Proof.
  intros Hne Hn H1 H2 Ho Hc Hv Hp Hr. unfold parseFields.
  destruct (scanFields_field name ws1 ws2 o value c rest) as [len E]; try done.
  rewrite E, scanFields_no_equals by done. simpl. unfold setField. simpl.
  rewrite decide_False by done. apply insert_empty.
Qed.

Lemma value_ends_at_first_closer_witness :
  lit "title" ≠ [] ∧ Forall isWord (lit "title")
  ∧ Forall isSpace (lit " ") ∧ Forall isSpace (lit " ")
  ∧ isOpener lbrace ∧ isCloser rbrace ∧ Forall valueChar (lit "A {B")
  ∧ toLowerCase (lit "title") ≠ lit "__proto__" ∧ (equals ∉ lit " C}")
  ∧ parseFields (openField (lit "title") (lit " ") (lit " ") lbrace (lit "A {B")
                 ++ [rbrace] ++ lit " C}")
    = {[ toLowerCase (lit "title") := trim (lit "A {B") ]}.
Proof.
  assert (Forall valueChar (lit "A {B")) as Hv by concrete.
  assert (equals ∉ lit " C}") as Hr by concrete.
  split; [concrete|]. split; [concrete|]. split; [concrete|].
  split; [concrete|]. split; [exact I|]. split; [exact I|].
  split; [exact Hv|]. split; [concrete|]. split; [exact Hr|].
  apply (value_ends_at_first_closer
           (lit "title") (lit " ") (lit " ") (lit "A {B") (lit " C}")
           lbrace rbrace);
    try exact Hv; try exact Hr; concrete.
Defined.


(** ** The entry expression on a block *)

Lemma lookahead_inside a c r :
  at_sign ∉ a → isSpace c = false → c ≠ at_sign → lookahead (a ++ c :: r) = false.
Proof.
  intros Ha Hc Hat. unfold lookahead.
  induction a as [|x a IH]; simpl.
  - rewrite Hc. by apply N.eqb_neq.
  - apply not_elem_of_cons in Ha as [Hx Ha].
    destruct (isSpace x); [by apply IH|]. apply N.eqb_neq. congruence.
Qed.

Lemma lazyBody_lookahead r : lookahead r = true → lazyBody r = ([], r).
Proof. intros H. destruct r as [|c r]; [done|]. simpl lazyBody. by rewrite H. Qed.

(** The body runs through a text without at sign up to its last character
    that is not white space. *)
Lemma lazyBody_body a c r :
  at_sign ∉ a → isSpace c = false → c ≠ at_sign → lookahead r = true →
  lazyBody (a ++ c :: r) = (a ++ [c], r).
Proof.
  intros Ha Hc Hat Hr. induction a as [|x a IH].
  - pose proof (lookahead_inside [] c r Ha Hc Hat) as H.
    simpl app in *. cbn [lazyBody]. rewrite H.
    by rewrite lazyBody_lookahead.
  - pose proof (lookahead_inside (x :: a) c r Ha Hc Hat) as H.
    rewrite <- !app_comm_cons in *. cbn [lazyBody]. rewrite H.
    rewrite IH by set_solver. done.
Qed.


Lemma not_space_comma : isSpace comma = false.
Proof. reflexivity. Qed.

Lemma matchEntryAt_header ty ws1 ws2 key ws3 tl body rest :
  ty ≠ [] → Forall isWord ty → Forall isSpace ws1 → Forall isSpace ws2 →
  keyText key → Forall isSpace ws3 →
  trimStart tl = tl → lazyBody tl = (body, rest) →
  matchEntryAt (blockHeader ty ws1 ws2 key ws3 ++ tl)
  = Some {| m_type := ty; m_key := key; m_body := body;
            m_len := (length (blockHeader ty ws1 ws2 key ws3 ++ tl) - length rest)%nat |}.
Proof.
  intros Hne Hty H1 H2 [Hk Hks] H3 Htl Hb.
  unfold blockHeader. rewrite <- !app_comm_cons. cbn [matchEntryAt].
  rewrite N.eqb_refl.
  repeat (progress (rewrite <- ?app_assoc, <- ?app_comm_cons)).
  rewrite while_app_all, skip_app_all by done.
  rewrite while_word_spaces, skip_word_spaces by done.
  rewrite app_nil_r. rewrite skip_spaces by done.
  rewrite N.eqb_refl.
  assert (Hs3 : skip isSpace (ws2 ++ key ++ comma :: ws3 ++ tl) = key ++ comma :: ws3 ++ tl).
  { rewrite skip_app_all by done. unfold trimStart in Hks.
    destruct key as [|k key]; [done|]. simpl in *.
    destruct (isSpace k) eqn:E; [|done].
    pose proof (skip_suffix isSpace key) as Hsuf. rewrite Hks in Hsuf.
    by apply suffix_cons_not in Hsuf. }
  rewrite Hs3.
  rewrite while_app_all, skip_app_all by done.
  cbn [skip while]. change (notComma comma) with false. cbn iota.
  rewrite skip_app_all by done. unfold trimStart in Htl. rewrite Htl, Hb.
  rewrite app_nil_r. destruct ty; [done|]. reflexivity.
Qed.

Lemma scanEntries_skip a r : scanEntries (length a) (a ++ r) = scanEntries 0 r.
Proof. induction a as [|c a IH]; simpl; [by destruct r|done]. Qed.

Lemma scanEntries_match s m :
  matchEntryAt s = Some m →
  scanEntries 0 s = m :: scanEntries (m_len m - 1) (tail s).
Proof.
  intros H. destruct s as [|c s]; [done|]. cbn [scanEntries tail]. by rewrite H.
Qed.

Lemma scanEntries_no_at_prefix pre s :
  at_sign ∉ pre → scanEntries 0 (pre ++ s) = scanEntries 0 s.
Proof.
  induction pre as [|c pre IH]; intros H; [done|].
  apply not_elem_of_cons in H as [Hc H].
  rewrite <- app_comm_cons. cbn [scanEntries].
  destruct (matchEntryAt (c :: pre ++ s)) eqn:E; [|by apply IH].
  apply matchEntryAt_head in E as [s' E]. congruence.
Qed.

Lemma spaces_no_at ws : Forall isSpace ws → at_sign ∉ ws.
Proof.
  intros H Hin. rewrite Forall_forall in H. apply H in Hin. done.
Qed.

Lemma lookahead_spaces ws r :
  Forall isSpace ws → lookahead r = true → lookahead (ws ++ r) = true.
Proof. intros H Hr. unfold lookahead in *. by rewrite skip_app_all. Qed.

Lemma lookahead_at r : lookahead (at_sign :: r) = true.
Proof. reflexivity. Qed.

(** A trimmed text that is not empty ends in a character that is not white
    space. *)
Lemma trimEnd_fixed_last b :
  b ≠ [] → trimEnd b = b → ∃ a c, b = a ++ [c] ∧ isSpace c = false.
Proof.
  intros Hne H. unfold trimEnd in H.
  assert (Hr : skip isSpace (reverse b) = reverse b).
  { apply (inj reverse). by rewrite reverse_involutive. }
  apply skip_fixed in Hr. destruct (reverse b) as [|c a'] eqn:E.
  - apply (f_equal reverse) in E. rewrite reverse_involutive in E. done.
  - exists (reverse a'), c. split; [|done].
    apply (f_equal reverse) in E. rewrite reverse_involutive in E.
    by rewrite E, reverse_cons.
Qed.

Lemma lazyBody_trimmed b r :
  b ≠ [] → at_sign ∉ b → trimEnd b = b → lookahead r = true →
  lazyBody (b ++ r) = (b, r).
Proof.
  intros Hne Hat Ht Hr.
  destruct (trimEnd_fixed_last b Hne Ht) as (a & c & -> & Hc).
  rewrite <- app_assoc. simpl. apply lazyBody_body; [set_solver|done|set_solver|done].
Qed.


Lemma lookahead_blocks (l : list BlockSrc) (trail : list N) :
  Forall wfBlock l → Forall isSpace trail →
  lookahead (concat (blockText <$> l) ++ trail) = true.
Proof.
  intros Hl Ht. destruct Hl as [|b l (Hp & _) _].
  - simpl. rewrite <- (app_nil_r trail). by apply lookahead_spaces.
  - rewrite fmap_cons. cbn [concat]. unfold blockText at 1, blockHeader.
    rewrite <- !app_assoc. apply lookahead_spaces; [done|]. reflexivity.
Qed.

Lemma scanEntries_block (b : BlockSrc) (rest : list N) :
  wfBlock b → lookahead rest = true →
  ∃ len, scanEntries 0 (blockText b ++ rest) = blockMatch b len :: scanEntries 0 rest.
Proof.
  intros (Hp & Hne & Hty & H1 & H2 & Hk & H3 & Hb & Hat & Hs & He) Hr.
  eexists. unfold blockText. rewrite <- !app_assoc.
  rewrite scanEntries_no_at_prefix by (by apply spaces_no_at).
  erewrite scanEntries_match; last first.
  { apply matchEntryAt_header; try done.
    - unfold trimStart in *. apply skip_fixed in Hs. apply skip_fixed.
      by destruct (b_body b).
    - by apply lazyBody_trimmed. }
  unfold blockMatch. f_equal. cbn [m_len].
  rewrite app_assoc. unfold blockHeader at 2. rewrite <- !app_comm_cons. cbn [tail].
  match goal with |- scanEntries ?n (?a ++ rest) = _ =>
    replace n with (length a); [apply scanEntries_skip|] end.
  unfold blockHeader. rewrite <- !app_comm_cons.
  repeat (rewrite ?length_app, ?length_cons). lia.
Qed.

Lemma trim_fixed b : trimStart b = b → trimEnd b = b → trim b = b.
Proof. intros H1 H2. unfold trim. by rewrite H1, H2. Qed.

Lemma entryOfMatch_block (b : BlockSrc) len :
  wfBlock b → entryOfMatch (blockMatch b len) = blockEntry b.
Proof.
  intros (_ & _ & _ & _ & _ & _ & _ & _ & _ & Hs & He).
  unfold entryOfMatch, blockEntry, blockMatch. cbn [m_type m_key m_body].
  by rewrite (trim_fixed (b_body b)).
Qed.

Lemma scanEntries_blocks (l : list BlockSrc) (trail : list N) :
  Forall wfBlock l → Forall isSpace trail →
  omap entryOfMatch (scanEntries 0 (concat (blockText <$> l) ++ trail))
  = omap blockEntry l.
Proof.
  intros Hl Ht. induction Hl as [|b l Hb Hl IH].
  - simpl. rewrite scanEntries_no_at by (by apply spaces_no_at). done.
  - rewrite fmap_cons. cbn [concat]. rewrite <- app_assoc.
    destruct (scanEntries_block b (concat (blockText <$> l) ++ trail)) as [len E];
      [done|by apply lookahead_blocks|].
    rewrite E. cbn [omap list_omap]. rewrite entryOfMatch_block by done.
    fold (omap entryOfMatch (scanEntries 0 (concat (blockText <$> l) ++ trail))).
    rewrite IH. reflexivity.
Qed.

(** X4: a text made of a lead without at sign, well-formed blocks (white
    space, an at sign, a type of word characters, a brace, a key without
    comma, a comma, and a body that is trimmed, not empty and without at
    sign) and trailing white space, all without percent sign, is parsed
    into the entries of its blocks, in the order of the text: one entry
    for each block of an accepted type, with the lower-case type, the
    trimmed key and the fields of the body; the blocks of other types are
    left out. *)
Theorem parse_block_list (lead trail : list N) (l : list BlockSrc)
    (p : BibtexParser) (h : Heap) :
  at_sign ∉ lead → Forall wfBlock l → Forall isSpace trail →
  percent ∉ (lead ++ concat (blockText <$> l) ++ trail) →
  ∃ r p' h',
    parse (lead ++ concat (blockText <$> l) ++ trail) p h = (r, p', h')
    ∧ held p' h' = omap blockEntry l.
Proof.
  intros Hlead Hl Ht Hp. eexists _, _, _. split; [apply parse_eq|].
  rewrite held_alloc. unfold stripComments.
  rewrite <- (app_nil_r (lead ++ _)), stripFrom_keep by done.
  simpl. rewrite app_nil_r. unfold execAll.
  rewrite scanEntries_no_at_prefix by done.
  by apply scanEntries_blocks.
Qed.

Lemma parse_block_list_witness :
  (at_sign ∉ lit "notes ") ∧ Forall wfBlock sampleBlocks
  ∧ Forall isSpace [newline]
  ∧ (percent ∉ (lit "notes " ++ concat (blockText <$> sampleBlocks)
                ++ [newline]))
  ∧ ∃ r p' h',
      parse (lit "notes " ++ concat (blockText <$> sampleBlocks) ++ [newline])
        usedParser usedHeap = (r, p', h')
      ∧ held p' h' = omap blockEntry sampleBlocks.
Proof.
  assert (at_sign ∉ lit "notes ") as Hlead by concrete.
  assert (Forall wfBlock sampleBlocks) as Hl.
  { repeat (constructor; [repeat split; concrete|]). constructor. }
  assert (Forall isSpace [newline]) as Ht by concrete.
  assert (percent ∉ (lit "notes " ++ concat (blockText <$> sampleBlocks)
                     ++ [newline])) as Hp by concrete.
  split; [exact Hlead|]. split; [exact Hl|]. split; [exact Ht|].
  split; [exact Hp|].
  exact (parse_block_list (lit "notes ") [newline] sampleBlocks
           usedParser usedHeap Hlead Hl Ht Hp).
Defined.


(** ** Where a block ends *)

(** X5: the body of a block ends in front of the white space before the
    next at sign, wherever that at sign stands, and the search for the
    next block starts at that at sign. *)
Theorem block_ends_at_at_sign (ty ws1 ws2 key ws3 body ws rest : list N) :
  ty ≠ [] → Forall isWord ty → Forall isSpace ws1 → Forall isSpace ws2 →
  keyText key → Forall isSpace ws3 →
  body ≠ [] → at_sign ∉ body → trimStart body = body → trimEnd body = body →
  Forall isSpace ws →
  ∃ len,
    execAll (blockHeader ty ws1 ws2 key ws3 ++ body ++ ws ++ at_sign :: rest)
    = {| m_type := ty; m_key := key; m_body := body; m_len := len |}
      :: execAll (at_sign :: rest).
Proof.
  intros Hne Hty H1 H2 Hk H3 Hb Hat Hs He Hws.
  pose (b := {| b_pre := []; b_type := ty; b_ws1 := ws1; b_ws2 := ws2;
                b_key := key; b_ws3 := ws3; b_body := body |}).
  assert (Hwf : wfBlock b).
  { destruct Hk. unfold wfBlock, b. simpl. repeat split; done. }
  destruct (scanEntries_block b (ws ++ at_sign :: rest) Hwf) as [len E].
  { by apply lookahead_spaces. }
  exists len. unfold execAll. unfold blockText, b in E. simpl in E.
  rewrite <- app_assoc in E. simpl. rewrite E. unfold blockMatch. simpl. f_equal.
  by rewrite scanEntries_no_at_prefix by (by apply spaces_no_at).
Qed.

Lemma block_ends_at_at_sign_witness :
  lit "article" ≠ [] ∧ Forall isWord (lit "article")
  ∧ keyText (lit "k") ∧ Forall isSpace (lit " ")
  ∧ lit "note={see a}" ≠ [] ∧ (at_sign ∉ lit "note={see a}")
  ∧ trimStart (lit "note={see a}") = lit "note={see a}"
  ∧ trimEnd (lit "note={see a}") = lit "note={see a}"
  ∧ ∃ len,
      execAll (blockHeader (lit "article") [] [] (lit "k") (lit " ")
               ++ lit "note={see a}" ++ lit " " ++ at_sign :: lit "b.org}")
      = {| m_type := lit "article"; m_key := lit "k";
           m_body := lit "note={see a}"; m_len := len |}
        :: execAll (at_sign :: lit "b.org}").
Proof.
  assert (keyText (lit "k")) as Hk by (split; concrete).
  assert (at_sign ∉ lit "note={see a}") as Hat by concrete.
  split; [concrete|]. split; [concrete|]. split; [exact Hk|].
  split; [concrete|]. split; [concrete|]. split; [exact Hat|].
  split; [reflexivity|]. split; [reflexivity|].
  apply (block_ends_at_at_sign (lit "article") [] [] (lit "k") (lit " ")
           (lit "note={see a}") (lit " ") (lit "b.org}"));
    try exact Hk; try exact Hat; concrete.
Defined.

(** ** What a block needs *)

Lemma matchEntryAt_needs s m : matchEntryAt s = Some m → lbrace ∈ s ∧ comma ∈ s.
Proof.
  destruct s as [|c s1]; [done|]. cbn [matchEntryAt].
  destruct (c =? at_sign); [|done].
  destruct (while isWord s1); [done|].
  destruct (skip isSpace (skip isWord s1)) as [|b s2] eqn:E1; [done|].
  destruct (b =? lbrace) eqn:Eb; [|done]. apply N.eqb_eq in Eb. subst b.
  destruct (skip notComma (skip isSpace s2)) as [|d s4] eqn:E2; [done|]. intros _.
  assert (S2 : (lbrace :: s2) `suffix_of` s1).
  { rewrite <- E1. transitivity (skip isWord s1); apply skip_suffix. }
  assert (S4 : (d :: s4) `suffix_of` s2).
  { rewrite <- E2. transitivity (skip isSpace s2); apply skip_suffix. }
  assert (Hd : d = comma).
  { pose proof (skip_idem notComma (skip isSpace s2)) as Hi. rewrite E2 in Hi.
    apply skip_fixed in Hi. unfold notComma in Hi.
    apply negb_false_iff, N.eqb_eq in Hi. done. }
  subst d. split; right.
  - eapply elem_of_suffix; [left|done].
  - eapply elem_of_suffix; [left|]. transitivity s2; [done|].
    transitivity (lbrace :: s2); [by apply suffix_cons_r|done].
Qed.

Lemma scanEntries_needs k s : lbrace ∉ s ∨ comma ∉ s → scanEntries k s = [].
Proof.
  revert k. induction s as [|c s IH]; intros k Hs; [done|].
  cbn [scanEntries]. destruct k; [|apply IH; set_solver].
  destruct (matchEntryAt (c :: s)) eqn:E.
  - apply matchEntryAt_needs in E. tauto.
  - apply IH. set_solver.
Qed.

(** X6: a text that lacks an at sign, an opening brace or a comma holds
    no block: [parse] makes a new empty array, holds it and returns it,
    with an empty error list, and the arrays that existed before are left
    as they were. *)
Theorem parse_needs_at_brace_comma (text : list N) (p : BibtexParser) (h : Heap) :
  at_sign ∉ text ∨ lbrace ∉ text ∨ comma ∉ text →
  ∃ r p' h',
    parse text p h = (r, p', h')
    ∧ h' !! r = Some [] ∧ getEntries p' = r ∧ held p' h' = []
    ∧ getErrors p' = []
    ∧ h !! r = None ∧ h `prefix_of` h'.
Proof.
  intros H. eexists _, _, _. split; [apply parse_eq|].
  assert (E : execAll (stripComments text) = []).
  { pose proof (stripFrom_sublist false text) as Hsub.
    destruct H as [H|H].
    - by apply no_at_no_blocks.
    - apply scanEntries_needs.
      destruct H as [H|H]; [left|right]; intros Hin; apply H;
        by eapply elem_of_sublist. }
  rewrite E. simpl. repeat split.
  - by rewrite list_lookup_middle.
  - apply held_alloc.
  - by apply lookup_ge_None.
  - by apply prefix_app_r.
Qed.

Lemma parse_needs_at_brace_comma_witness :
  ((at_sign ∉ lit "@article k, title = T")
   ∨ (lbrace ∉ lit "@article k, title = T")
   ∨ (comma ∉ lit "@article k, title = T"))
  ∧ ∃ r p' h',
      parse (lit "@article k, title = T") usedParser usedHeap = (r, p', h')
      ∧ h' !! r = Some [] ∧ getEntries p' = r ∧ held p' h' = []
      ∧ getErrors p' = []
      ∧ usedHeap !! r = None ∧ usedHeap `prefix_of` h'.
Proof.
  assert ((at_sign ∉ lit "@article k, title = T")
          ∨ (lbrace ∉ lit "@article k, title = T")
          ∨ (comma ∉ lit "@article k, title = T")) as H
    by (right; left; concrete).
  split; [exact H|].
  exact (parse_needs_at_brace_comma (lit "@article k, title = T")
           usedParser usedHeap H).
Defined.

(** ** Two calls of [parse] *)

(** X7: a second call of [parse] on the same parser makes a new array and
    holds it: what the parser holds afterwards are the entries of the
    second text alone, with no error; the array that the first call
    returned is another one and still has the entries of the first text. *)
Theorem parse_twice (text1 text2 : list N) (p : BibtexParser) (h : Heap) :
  ∃ r1 p1 h1 r2 p2 h2,
    parse text1 p h = (r1, p1, h1) ∧ parse text2 p1 h1 = (r2, p2, h2)
    ∧ r1 ≠ r2
    ∧ h2 !! r1 = Some (omap entryOfMatch (execAll (stripComments text1)))
    ∧ h2 !! r2 = Some (omap entryOfMatch (execAll (stripComments text2)))
    ∧ held p2 h2 = omap entryOfMatch (execAll (stripComments text2))
    ∧ getErrors p2 = [].
Proof.
  eexists _, _, _, _, _, _. split; [apply parse_eq|]. split; [apply parse_eq|].
  rewrite length_app. simpl. split; [lia|]. split; [|split; [|split]].
  - rewrite lookup_app_l by (rewrite length_app; simpl; lia).
    by rewrite list_lookup_middle.
  - apply list_lookup_middle. rewrite length_app. simpl. lia.
  - replace (length h + 1)%nat with (length (h ++ [omap entryOfMatch (execAll (stripComments text1))]))
      by (rewrite length_app; simpl; lia).
    apply held_alloc.
  - done.
Qed.


(** ** More about [sortByYear] *)

Lemma arraySort_idem (l : list Entry) :
  Forall exactYear l → arraySort compareYear (arraySort compareYear l) = arraySort compareYear l.
Proof.
  intros Hl. symmetry. apply arraySort_unique.
  - by rewrite arraySort_perm.
  - done.
  - by apply arraySort_sorted.
  - done.
Qed.

(** X9: when every year is missing, empty or an exact integer, sorting
    a second time changes nothing. *)
Theorem sortByYear_idempotent (p : BibtexParser) (h : Heap) :
  Forall exactYear (held p h) →
  sortByYear p (sortByYear p h).2 = sortByYear p h.
Proof.
  intros Hl. unfold sortByYear. simpl. f_equal.
  rewrite list_alter_alter_eq. apply list_alter_ext; [|done].
  intros l Hp. simpl. apply arraySort_idem.
  unfold held in Hl. by rewrite Hp in Hl.
Qed.

Lemma sortByYear_idempotent_witness :
  Forall exactYear (held usedParser datedHeap)
  ∧ sortByYear usedParser (sortByYear usedParser datedHeap).2
    = sortByYear usedParser datedHeap.
Proof.
  assert (Forall exactYear (held usedParser datedHeap)) as H
    by (repeat constructor).
  split; [exact H|]. exact (sortByYear_idempotent usedParser datedHeap H).
Defined.

Lemma Forall_filter_keep {A} (Q P : A → Prop) `{∀ x, Decision (P x)} (l : list A) :
  Forall Q l → Forall Q (filter P l).
Proof.
  rewrite !Forall_forall. intros Hl x Hx.
  apply list_elem_of_filter in Hx as [_ Hx]. by apply Hl.
Qed.

Lemma StronglySorted_filter {A} (R : A → A → Prop) (P : A → Prop)
    `{∀ x, Decision (P x)} (l : list A) :
  StronglySorted R l → StronglySorted R (filter P l).
Proof.
  induction 1 as [|x l Hs IH Hx]; [constructor|].
  rewrite filter_cons. case_decide; [|done].
  constructor; [done|]. by apply Forall_filter_keep.
Qed.

Lemma filter_comm {A} (P Q : A → Prop) `{∀ x, Decision (P x)} `{∀ x, Decision (Q x)}
    (l : list A) :
  filter P (filter Q l) = filter Q (filter P l).
Proof.
  rewrite !list_filter_filter. apply list_filter_iff. intros; tauto.
Qed.

Lemma filter_arraySort (P : Entry → Prop) `{∀ x, Decision (P x)} (l : list Entry) :
  Forall exactYear l →
  filter P (arraySort compareYear l) = arraySort compareYear (filter P l).
Proof.
  intros Hl. apply arraySort_unique.
  - by apply Forall_filter_keep.
  - by rewrite arraySort_perm.
  - apply StronglySorted_filter. by apply arraySort_sorted.
  - intros y. rewrite !(filter_comm (sameYear y) P).
    by rewrite arraySort_stable.
Qed.

Lemma held_sortByYear (p : BibtexParser) (h : Heap) :
  held p (sortByYear p h).2 = arraySort compareYear (held p h).
Proof.
  unfold held, sortByYear. simpl. rewrite list_lookup_alter_eq.
  by destruct (h !! entries p).
Qed.

Lemma length_sortByYear (p : BibtexParser) (h : Heap) :
  length (sortByYear p h).2 = length h.
Proof. apply length_alter. Qed.

(** X10: filtering commutes with sorting.  When every year is missing,
    empty or an exact integer and [filterByType] returns on the held list,
    it also returns after [sortByYear], and the array that it returns then
    is the sorted form of the one that it returned before, in descending
    order of the years. *)
Theorem filter_after_sort (type : list N) (p : BibtexParser) (h h0 : Heap) (r0 : nat) :
  Forall exactYear (held p h) →
  filterByType type p h = (Return r0, h0) →
  ∃ r h2,
    filterByType type p (sortByYear p h).2 = (Return r, h2)
    ∧ default [] (h2 !! r) = arraySort compareYear (default [] (h0 !! r0))
    ∧ StronglySorted byYearDescending (default [] (h2 !! r)).
Proof.
  intros Hl. unfold filterByType. case_decide as Hall.
  { intros [= <- <-]. eexists _, _. split; [reflexivity|].
    fold (held p (sortByYear p h).2). fold (held p h).
    rewrite held_sortByYear. split; [done|]. by apply arraySort_sorted. }
  rewrite held_sortByYear.
  destruct (default (Types [type]) (typeMap type)) as [l|].
  - simpl. intros [= <- <-]. eexists _, _. split; [reflexivity|].
    rewrite !list_lookup_middle by (by rewrite ?length_sortByYear). simpl.
    rewrite filter_arraySort by done. split; [done|].
    apply arraySort_sorted. by apply Forall_filter_keep.
  - destruct (held p h) as [|e l] eqn:E.
    + simpl. intros [= <- <-]. eexists _, _. split; [reflexivity|].
      rewrite !list_lookup_middle by (by rewrite ?length_sortByYear). simpl.
      split; [done|constructor].
    + intros [=].
Qed.

Lemma filter_after_sort_witness :
  Forall exactYear (held usedParser datedHeap)
  ∧ filterByType (lit "journal") usedParser datedHeap
    = (Return 1%nat, (filterByType (lit "journal") usedParser datedHeap).2)
  ∧ ∃ r h2,
      filterByType (lit "journal") usedParser (sortByYear usedParser datedHeap).2
      = (Return r, h2)
      ∧ default [] (h2 !! r)
        = arraySort compareYear
            (default []
               ((filterByType (lit "journal") usedParser datedHeap).2 !! 1%nat))
      ∧ StronglySorted byYearDescending (default [] (h2 !! r)).
Proof.
  assert (Forall exactYear (held usedParser datedHeap)) as H
    by (repeat constructor).
  assert (filterByType (lit "journal") usedParser datedHeap
          = (Return 1%nat, (filterByType (lit "journal") usedParser datedHeap).2))
    as Hf by (vm_compute; reflexivity).
  split; [exact H|]. split; [exact Hf|].
  exact (filter_after_sort (lit "journal") usedParser datedHeap _ 1%nat H Hf).
Defined.

(** ** More about comment removal *)

Lemma stripFrom_terminators b s :
  filter (λ c, isLineTerminator c) (stripFrom b s)
  = filter (λ c, isLineTerminator c) s.
Proof.
  revert b. induction s as [|c s IH]; intros b; [done|]. cbn [stripFrom].
  rewrite (filter_cons _ c s).
  destruct b.
  - destruct (isLineTerminator c) eqn:E.
    + rewrite filter_cons, E. rewrite !decide_True by exact I. by rewrite IH.
    + rewrite decide_False by exact id. apply IH.
  - destruct (c =? percent) eqn:Ec.
    + apply N.eqb_eq in Ec. subst. rewrite decide_False by exact id. apply IH.
    + rewrite filter_cons. by rewrite IH.
Qed.

(** X11: comment removal leaves a text as it is exactly when the text has
    no percent sign; it only deletes characters, deletes no line
    terminator, and a second run deletes nothing more. *)
Theorem stripComments_fixed (s : list N) :
  (stripComments s = s ↔ percent ∉ s)
  ∧ stripComments (stripComments s) = stripComments s
  ∧ stripComments s `sublist_of` s
  ∧ filter (λ c, isLineTerminator c) (stripComments s)
    = filter (λ c, isLineTerminator c) s.
Proof.
  split; [|split; [|split]].
  - split.
    + intros H. rewrite <- H. apply stripFrom_no_percent.
    + intros H. unfold stripComments. rewrite <- (app_nil_r s) at 1.
      rewrite stripFrom_keep by done. simpl. apply app_nil_r.
  - apply stripComments_idem.
  - apply stripFrom_sublist.
  - apply stripFrom_terminators.
Qed.

Lemma stripFrom_trailing b t junk :
  Forall (λ c, ¬ isLineTerminator c) junk →
  stripFrom b (t ++ percent :: junk) = stripFrom b t.
Proof.
  intros Hj. revert b. induction t as [|c t IH]; intros b.
  - assert (E : stripFrom true junk = []).
    { rewrite <- (app_nil_r junk). rewrite stripFrom_comment; [done|done|by left]. }
    destruct b; simpl; exact E.
  - rewrite <- app_comm_cons. cbn [stripFrom]. by rewrite !IH.
Qed.

(** X12: a percent sign appended to a text, with whatever follows it up
    to the end of its line, changes nothing of what [parse] returns and
    holds, also when a whole block follows the percent sign. *)
Theorem trailing_comment_ignored (text junk : list N) (p : BibtexParser) (h : Heap) :
  Forall (λ c, ¬ isLineTerminator c) junk →
  parse (text ++ percent :: junk) p h = parse text p h.
Proof.
  intros Hj. rewrite !parse_eq. unfold stripComments.
  by rewrite stripFrom_trailing.
Qed.

Lemma trailing_comment_ignored_witness :
  Forall (λ c, ¬ isLineTerminator c) (lit " @misc{x, y}")
  ∧ parse (duplicateText ++ percent :: lit " @misc{x, y}") usedParser usedHeap
    = parse duplicateText usedParser usedHeap.
Proof.
  assert (Forall (λ c, ¬ isLineTerminator c) (lit " @misc{x, y}")) as H
    by concrete.
  split; [exact H|].
  exact (trailing_comment_ignored duplicateText (lit " @misc{x, y}")
           usedParser usedHeap H).
Defined.


(** ** The shape of a parsed entry *)

Lemma matchEntryAt_inv s m :
  matchEntryAt s = Some m →
  m_type m ≠ [] ∧ Forall isWord (m_type m) ∧ Forall notComma (m_key m).
Proof.
  destruct s as [|c s1]; [done|]. cbn [matchEntryAt].
  destruct (c =? at_sign); [|done].
  pose proof (while_Forall isWord s1) as Hw.
  destruct (while isWord s1) as [|t ty]; [done|].
  destruct (skip isSpace (skip isWord s1)) as [|b s2]; [done|].
  destruct (b =? lbrace); [|done].
  destruct (skip notComma (skip isSpace s2)) as [|d s4]; [done|].
  destruct (lazyBody (skip isSpace s4)) as [body rest].
  intros [= <-]. simpl. split; [done|]. split; [done|]. apply while_Forall.
Qed.

Lemma scanEntries_inv k s :
  Forall (λ m, m_type m ≠ [] ∧ Forall isWord (m_type m) ∧ Forall notComma (m_key m))
    (scanEntries k s).
Proof.
  revert k. induction s as [|c s IH]; intros k; [constructor|].
  cbn [scanEntries]. destruct k; [|apply IH].
  destruct (matchEntryAt (c :: s)) as [m|] eqn:E; [|apply IH].
  constructor; [by eapply matchEntryAt_inv | apply IH].
Qed.

Lemma accepted_words t : t ∈ acceptedTypes → t ≠ [] ∧ Forall isWord t ∧ trim t = t ∧ toLowerCase t = t.
Proof.
  unfold acceptedTypes. rewrite !elem_of_cons, elem_of_nil.
  intros [->|[->|[->|[->|[->|[->|[->|[->|[]]]]]]]]];
    (split; [vm_compute; discriminate|]);
    (split; [repeat constructor|]); split; vm_compute; reflexivity.
Qed.

(** X13: every entry that [parse] holds comes from a block of the text
    whose type, in lower case, is accepted.  Its [citeKey] is the trimmed
    key of that block and has no comma.  Its [type] is the value of the
    field named [type] when the body of the block has one, and the type of
    the block in lower case otherwise; it is trimmed.  Its citation text
    starts with the at sign, that type, a brace, that key and a comma. *)
Theorem parsed_entry_shape (text : list N) (p : BibtexParser) (h : Heap) (e : Entry) :
  e ∈ held (parse text p h).1.2 (parse text p h).2 →
  ∃ m k t rest,
    m ∈ execAll (stripComments text)
    ∧ toLowerCase (m_type m) ∈ acceptedTypes
    ∧ k = trim (m_key m)
    ∧ t = default (toLowerCase (m_type m))
            (parseFields (trim (m_body m)) !! lit "type")
    ∧ e !! lit "citeKey" = Some k ∧ trim k = k ∧ (comma ∉ k)
    ∧ e !! lit "type" = Some t ∧ trim t = t
    ∧ bibtexText e = lit "@" ++ t ++ lit "{" ++ k ++ lit "," ++ rest.
Proof.
  intros He. apply parsed_from_accepted in He as (m & Hm & Hacc & ->).
  pose proof (scanEntries_inv 0 (stripComments text)) as Hinv.
  rewrite Forall_forall in Hinv. destruct (Hinv m Hm) as (_ & _ & Hk).
  unfold includes in Hacc. apply bool_decide_eq_true in Hacc.
  set (F := parseFields (trim (m_body m))).
  assert (Ek : mkEntry (toLowerCase (m_type m)) (trim (m_key m)) F !! lit "citeKey"
               = Some (trim (m_key m))) by apply mkEntry_citeKey.
  assert (Et : mkEntry (toLowerCase (m_type m)) (trim (m_key m)) F !! lit "type"
               = Some (default (toLowerCase (m_type m)) (F !! lit "type"))
               ∧ trim (default (toLowerCase (m_type m)) (F !! lit "type"))
                 = default (toLowerCase (m_type m)) (F !! lit "type")).
  { unfold mkEntry. destruct (F !! lit "type") as [v|] eqn:Ev; simpl.
    - split; [by apply lookup_union_Some_l|].
      apply parseFields_from_match in Ev
        as (fm & _ & _ & -> & _ & _ & _ & Hv).
      apply trim_idem.
    - split.
      + rewrite lookup_union_r by done.
        rewrite lookup_insert_ne by (vm_compute; discriminate).
        by rewrite lookup_insert_eq.
      + by apply accepted_words. }
  destruct Et as [Et Htt].
  exists m, (trim (m_key m)), (default (toLowerCase (m_type m)) (F !! lit "type")).
  eexists. split; [done|]. split; [done|]. split; [done|]. split; [done|].
  split; [done|]. split; [apply trim_idem|].
  split.
  { intros Hin. pose proof (elem_of_sublist _ _ _ Hin (trim_sublist _)) as Hin'.
    rewrite Forall_forall in Hk. apply Hk in Hin'. done. }
  split; [done|]. split; [done|].
  unfold bibtexText. rewrite Ek, Et. simpl interpolate.
  rewrite <- ?app_assoc. reflexivity.
Qed.

Lemma parsed_entry_shape_witness :
  duplicateEntry (lit "A")
    ∈ held (parse duplicateText usedParser usedHeap).1.2
        (parse duplicateText usedParser usedHeap).2
  ∧ ∃ m k t rest,
      m ∈ execAll (stripComments duplicateText)
      ∧ toLowerCase (m_type m) ∈ acceptedTypes
      ∧ k = trim (m_key m)
      ∧ t = default (toLowerCase (m_type m))
              (parseFields (trim (m_body m)) !! lit "type")
      ∧ duplicateEntry (lit "A") !! lit "citeKey" = Some k ∧ trim k = k
      ∧ (comma ∉ k)
      ∧ duplicateEntry (lit "A") !! lit "type" = Some t ∧ trim t = t
      ∧ bibtexText (duplicateEntry (lit "A"))
        = lit "@" ++ t ++ lit "{" ++ k ++ lit "," ++ rest.
Proof.
  assert (duplicateEntry (lit "A")
            ∈ held (parse duplicateText usedParser usedHeap).1.2
                (parse duplicateText usedParser usedHeap).2) as H
    by concrete.
  split; [exact H|].
  exact (parsed_entry_shape duplicateText usedParser usedHeap
           (duplicateEntry (lit "A")) H).
Defined.

(** A field named [type] replaces the type of the block, also by a type
    that is not accepted. *)
Example type_field_replaces_type :
  ∃ r p' h',
    parse (lit "@misc{k, type = {weird}}") usedParser usedHeap = (r, p', h')
    ∧ held p' h' = [ {[ lit "type" := lit "weird"; lit "citeKey" := lit "k" ]} ].
Proof.
  eexists _, _, _. split; [apply parse_eq|].
  rewrite held_alloc. vm_compute. reflexivity.
Qed.

(** ** Plain author lists *)

Lemma formatAuthor_plain (author : list N) :
  trim author = author → author ≠ lit "Chaofeng Chen" →
  formatAuthor None [] [] author = author.
Proof.
  intros Ht Hn. unfold formatAuthor. rewrite Ht. simpl.
  by rewrite decide_False.
Qed.

(** X14: without coauthor data and without marked authors, a list whose
    names are trimmed and are not the owner of the page is formatted by
    [formatAuthorsWithLinks] exactly as by [formatAuthors]. *)
Theorem formatAuthorsWithLinks_plain (authors : list N) :
  Forall (λ a, trim a = a ∧ a ≠ lit "Chaofeng Chen") (split (lit " and ") authors) →
  formatAuthorsWithLinks None authors
    {| co_first_authors := None; corresponding_authors := None |}
  = formatAuthors authors.
Proof.
  intros H. unfold formatAuthorsWithLinks, formatAuthors. simpl. f_equal.
  induction H as [|a l [Ha Hn] _ IH]; [done|].
  rewrite fmap_cons, IH. f_equal. by apply formatAuthor_plain.
Qed.

Lemma formatAuthorsWithLinks_plain_witness :
  Forall (λ a, trim a = a ∧ a ≠ lit "Chaofeng Chen")
    (split (lit " and ") (lit "A. Author and B. Author"))
  ∧ formatAuthorsWithLinks None (lit "A. Author and B. Author")
      {| co_first_authors := None; corresponding_authors := None |}
    = formatAuthors (lit "A. Author and B. Author").
Proof.
  assert (Forall (λ a, trim a = a ∧ a ≠ lit "Chaofeng Chen")
            (split (lit " and ") (lit "A. Author and B. Author"))) as H
    by concrete.
  split; [exact H|].
  exact (formatAuthorsWithLinks_plain (lit "A. Author and B. Author") H).
Defined.

(** ** Abbreviations of a venue *)

Lemma matchAbbrevAt_inv s inner len :
  matchAbbrevAt s = Some (inner, len) →
  ∃ rest, s = lparen :: inner ++ rparen :: rest ∧ inner ≠ []
          ∧ Forall notRParen inner ∧ len = (length inner + 2)%nat.
Proof.
  destruct s as [|c s1]; [done|]. cbn [matchAbbrevAt].
  destruct (c =? lparen) eqn:Ec; [|done]. apply N.eqb_eq in Ec. subst c.
  pose proof (while_Forall notRParen s1) as Hw.
  pose proof (skip_idem notRParen s1) as Hi.
  assert (Hs : while notRParen s1 ++ skip notRParen s1 = s1).
  { clear. induction s1 as [|c s IH]; simpl; [done|].
    destruct (notRParen c); simpl; congruence. }
  destruct (while notRParen s1) as [|x inn]; [done|].
  destruct (skip notRParen s1) as [|d rest]; [done|].
  intros [= <- <-]. exists rest. apply skip_fixed in Hi. unfold notRParen in Hi.
  apply negb_false_iff, N.eqb_eq in Hi. subst d. by rewrite Hs.
Qed.

Lemma boldFrom_skip a r : boldFrom (length a) (a ++ r) = boldFrom 0 r.
Proof. induction a as [|c a IH]; simpl; [by destruct r|done]. Qed.

Lemma boldFrom_sublist k s : drop k s `sublist_of` boldFrom k s.
Proof.
  remember (length s) as n eqn:Hn. revert k s Hn.
  induction n as [n IHn] using lt_wf_ind. intros k s ->.
  destruct s as [|c s]; [by rewrite drop_nil|]. cbn [boldFrom].
  destruct k as [|k].
  - rewrite drop_0.
    destruct (matchAbbrevAt (c :: s)) as [[inner len]|] eqn:E.
    + apply matchAbbrevAt_inv in E as (rest & Hs & Hne & Hin & ->).
      injection Hs as -> ->.
      replace (length inner + 2 - 1)%nat with (length (inner ++ [rparen]))
        by (rewrite length_app; simpl; lia).
      replace (inner ++ rparen :: rest) with ((inner ++ [rparen]) ++ rest)
        by (by rewrite <- app_assoc).
      rewrite boldFrom_skip.
      change (lparen :: (inner ++ [rparen]) ++ rest)
        with ([lparen] ++ (inner ++ [rparen]) ++ rest).
      rewrite <- (app_assoc inner).
      change (lit "(<strong>") with ([lparen] ++ lit "<strong>").
      rewrite <- !app_assoc. apply sublist_app; [done|].
      apply sublist_inserts_l. apply sublist_app; [done|].
      change (lit "</strong>)") with (lit "</strong>" ++ [rparen]).
      rewrite <- app_assoc. apply sublist_inserts_l.
      apply sublist_app; [done|].
      specialize (IHn (length rest)). rewrite <- (drop_0 rest) at 1.
      eapply IHn; [|reflexivity]. simpl. rewrite length_app. simpl. lia.
    + apply sublist_skip. rewrite <- (drop_0 s) at 1.
      eapply IHn; [|reflexivity]. simpl. lia.
  - simpl drop. eapply IHn; [|reflexivity]. simpl. lia.
Qed.

Lemma matchAbbrevAt_none s : lparen ∉ s ∨ rparen ∉ s → matchAbbrevAt s = None.
Proof.
  intros H. destruct (matchAbbrevAt s) as [[inner len]|] eqn:E; [|done].
  apply matchAbbrevAt_inv in E as (rest & -> & _). set_solver.
Qed.

Lemma boldFrom_plain s : lparen ∉ s ∨ rparen ∉ s → boldFrom 0 s = s.
Proof.
  induction s as [|c s IH]; intros H; [done|]. cbn [boldFrom].
  rewrite matchAbbrevAt_none by done. f_equal. apply IH. set_solver.
Qed.

(** X15: [boldAbbreviations] only adds tags: the text is kept, in its
    order, inside the result; a text without opening or without closing
    parenthesis comes back as it is, and a missing or empty text gives the
    empty string. *)
Theorem boldAbbreviations_keeps_text (text : list N) :
  text `sublist_of` boldAbbreviations (Some text)
  ∧ (lparen ∉ text ∨ rparen ∉ text → boldAbbreviations (Some text) = text)
  ∧ boldAbbreviations None = [] ∧ boldAbbreviations (Some []) = [].
Proof.
  split; [|split; [|done]].
  - destruct text as [|c t]; [done|]. simpl boldAbbreviations.
    rewrite <- (drop_0 (c :: t)) at 1. apply boldFrom_sublist.
  - intros H. destruct text as [|c t]; [done|]. by apply boldFrom_plain.
Qed.

(** X16: the first parenthesis of a text, when the text in front of it
    has no opening parenthesis and its content is not empty and runs to
    the first closing parenthesis, gets its content inside [strong] tags,
    and what follows it is treated the same way. *)
Theorem boldAbbreviations_first (pre inner post : list N) :
  lparen ∉ pre → inner ≠ [] → rparen ∉ inner →
  boldAbbreviations (Some (pre ++ lparen :: inner ++ rparen :: post))
  = pre ++ lit "(<strong>" ++ inner ++ lit "</strong>)"
    ++ boldAbbreviations (Some post).
Proof.
  intros Hpre Hne Hin.
  assert (E : ∀ s, boldAbbreviations (Some s) = boldFrom 0 s) by (by intros []).
  rewrite !E. induction pre as [|c pre IH].
  - simpl app. cbn [boldFrom].
    assert (Hm : matchAbbrevAt (lparen :: inner ++ rparen :: post)
                 = Some (inner, (length inner + 2)%nat)).
    { cbn [matchAbbrevAt]. rewrite N.eqb_refl.
      assert (Hf : Forall (λ c, notRParen c) inner).
      { rewrite Forall_forall. intros x Hx. unfold notRParen.
        apply Is_true_eq_left, negb_true_iff, N.eqb_neq. intros ->. done. }
      rewrite while_app_all, skip_app_all by done.
      cbn [while skip]. change (notRParen rparen) with false. cbn iota.
      rewrite app_nil_r. by destruct inner. }
    rewrite Hm. do 2 f_equal.
    replace (length inner + 2 - 1)%nat with (length (inner ++ [rparen]))
      by (rewrite length_app; simpl; lia).
    replace (inner ++ rparen :: post) with ((inner ++ [rparen]) ++ post)
      by (by rewrite <- app_assoc).
    by rewrite boldFrom_skip.
  - apply not_elem_of_cons in Hpre as [Hc Hpre].
    rewrite <- !app_comm_cons. cbn [boldFrom].
    assert (Hn : matchAbbrevAt (c :: pre ++ lparen :: inner ++ rparen :: post) = None).
    { cbn [matchAbbrevAt]. destruct (c =? lparen) eqn:Ec; [|done].
      apply N.eqb_eq in Ec. congruence. }
    rewrite Hn. f_equal. by apply IH.
Qed.

Lemma boldAbbreviations_first_witness :
  (lparen ∉ lit "European Conference ") ∧ lit "ECCV" ≠ []
  ∧ (rparen ∉ lit "ECCV")
  ∧ boldAbbreviations
      (Some (lit "European Conference " ++ lparen :: lit "ECCV"
             ++ rparen :: lit ", 2024"))
    = lit "European Conference " ++ lit "(<strong>" ++ lit "ECCV"
      ++ lit "</strong>)" ++ boldAbbreviations (Some (lit ", 2024")).
Proof.
  assert (lparen ∉ lit "European Conference ") as H1 by concrete.
  assert (rparen ∉ lit "ECCV") as H2 by concrete.
  split; [exact H1|]. split; [concrete|]. split; [exact H2|].
  apply (boldAbbreviations_first (lit "European Conference ") (lit "ECCV")
           (lit ", 2024") H1); [concrete|exact H2].
Defined.


(** ** Cite links *)

Lemma citeDataKey_citeKey (pub : Entry) k :
  pub !! lit "citeKey" = Some k → k ≠ [] → citeDataKey pub = k.
Proof.
  intros Hk Hne. unfold citeDataKey, orElse. rewrite Hk.
  by destruct k.
Qed.

Lemma hasKey_citeKey (pub : Entry) k : pub !! lit "citeKey" = Some k → hasKey k pub = true.
Proof.
  intros Hk. unfold hasKey. rewrite (bool_decide_eq_true_2 _ Hk).
  by rewrite orb_true_r.
Qed.

Lemma find_first (f : Entry → bool) (a : list Entry) (x : Entry) (b : list Entry) :
  Forall (λ q, f q = false) a → f x = true → List.find f (a ++ x :: b) = Some x.
Proof.
  intros Ha Hx. induction Ha as [|q a Hq _ IH]; simpl.
  - by rewrite Hx.
  - by rewrite Hq.
Qed.

(** X17: with the text of the [data-key] attribute read back as it was
    written, the click handler finds the publication of the cite link,
    provided that no publication of the list has a [key] or [id] field,
    every one has a [citeKey] that is not empty, and no two share it. *)
Theorem cite_link_finds_entry (pubs : list Entry) (pub : Entry) :
  Forall (λ q, q !! lit "key" = None ∧ q !! lit "id" = None
               ∧ truthy (q !! lit "citeKey")) pubs →
  NoDup ((λ q, q !! lit "citeKey") <$> pubs) →
  pub ∈ pubs →
  findPublication (citeDataKey pub) pubs = Some pub.
Proof.
  intros Hall Hnd Hin.
  apply list_elem_of_split in Hin as (a & b & ->).
  rewrite Forall_app, Forall_cons in Hall. destruct Hall as (Ha & (Hk & Hi & Hc) & Hb).
  destruct (pub !! lit "citeKey") as [k|] eqn:Ek; [|done].
  rewrite (citeDataKey_citeKey pub k) by (by destruct k).
  unfold findPublication. apply find_first; [|by apply hasKey_citeKey].
  rewrite fmap_app, fmap_cons in Hnd. apply NoDup_app in Hnd as (_ & Hdis & _).
  rewrite Forall_forall in Ha |- *. intros q Hq.
  destruct (Ha q Hq) as (Hqk & Hqi & _).
  unfold hasKey. rewrite Hqk, Hqi.
  rewrite !bool_decide_eq_false_2 by done. simpl.
  apply bool_decide_eq_false_2. intros Hqc.
  apply (Hdis (q !! lit "citeKey")).
  - apply list_elem_of_fmap. by exists q.
  - rewrite Hqc, <- Ek. left.
Qed.

Lemma cite_link_finds_entry_witness :
  Forall (λ q, q !! lit "key" = None ∧ q !! lit "id" = None
               ∧ truthy (q !! lit "citeKey")) yearSamples
  ∧ NoDup ((λ q, q !! lit "citeKey") <$> yearSamples)
  ∧ sampleEntry (lit "b") (lit "2020") ∈ yearSamples
  ∧ findPublication (citeDataKey (sampleEntry (lit "b") (lit "2020")))
      yearSamples
    = Some (sampleEntry (lit "b") (lit "2020")).
Proof.
  assert (Forall (λ q, q !! lit "key" = None ∧ q !! lit "id" = None
                       ∧ truthy (q !! lit "citeKey")) yearSamples) as H1
    by concrete.
  assert (NoDup ((λ q, q !! lit "citeKey") <$> yearSamples)) as H2
    by concrete.
  assert (sampleEntry (lit "b") (lit "2020") ∈ yearSamples) as H3
    by concrete.
  split; [exact H1|]. split; [exact H2|]. split; [exact H3|].
  exact (cite_link_finds_entry yearSamples _ H1 H2 H3).
Defined.

(** X18: of two publications with the same key the cite link of the
    second one finds the first: its citation text is the one shown. *)
Theorem cite_link_of_duplicate (a b c : list Entry) (p1 p2 : Entry) (k : list N) :
  p1 !! lit "citeKey" = Some k → p2 !! lit "citeKey" = Some k → k ≠ [] →
  Forall (λ q, hasKey k q = false) a →
  findPublication (citeDataKey p2) (a ++ p1 :: b ++ p2 :: c) = Some p1.
Proof.
  intros H1 H2 Hne Ha. rewrite (citeDataKey_citeKey p2 k) by done.
  unfold findPublication. apply find_first; [done|by apply hasKey_citeKey].
Qed.

Lemma cite_link_of_duplicate_witness :
  duplicateEntry (lit "A") !! lit "citeKey" = Some (lit "k")
  ∧ duplicateEntry (lit "B") !! lit "citeKey" = Some (lit "k")
  ∧ lit "k" ≠ []
  ∧ Forall (λ q, hasKey (lit "k") q = false) [undated]
  ∧ findPublication (citeDataKey (duplicateEntry (lit "B")))
      ([undated] ++ duplicateEntry (lit "A") :: []
       ++ duplicateEntry (lit "B") :: [])
    = Some (duplicateEntry (lit "A")).
Proof.
  assert (Forall (λ q, hasKey (lit "k") q = false) [undated]) as Ha
    by concrete.
  split; [concrete|]. split; [concrete|]. split; [concrete|].
  split; [exact Ha|].
  apply (cite_link_of_duplicate [undated] [] [] (duplicateEntry (lit "A"))
           (duplicateEntry (lit "B")) (lit "k")); try exact Ha; concrete.
Defined.

(** ** The separators of an author list *)

(** X19: [formatAuthors] replaces the first separator of an author list
    by a comma and a blank and formats what follows it in the same way:
    the text in front of the first separator is kept as it is. *)
Theorem formatAuthors_first_separator (a b : list N) :
  firstAt (lit " and ") a →
  formatAuthors (a ++ lit " and " ++ b) = a ++ lit ", " ++ formatAuthors b.
Proof.
  intros Hf. unfold formatAuthors, split.
  rewrite splitFrom_first by done.
  rewrite join_cons by apply splitFrom_nonempty. done.
Qed.

Lemma formatAuthors_first_separator_witness :
  firstAt (lit " and ") (lit "Sandy Rand")
  ∧ formatAuthors (lit "Sandy Rand" ++ lit " and " ++ lit "C. Author and D")
    = lit "Sandy Rand" ++ lit ", " ++ formatAuthors (lit "C. Author and D").
Proof.
  assert (Is_true (firstAt (lit " and ") (lit "Sandy Rand"))) as H
    by concrete.
  split; [exact H|].
  exact (formatAuthors_first_separator (lit "Sandy Rand")
           (lit "C. Author and D") H).
Defined.

(** ** The citation text read back *)

Lemma trim_fixed_inv b : trim b = b → trimStart b = b ∧ trimEnd b = b.
Proof.
  intros H. assert (Hs : trimStart b = b).
  { apply suffix_length_eq; [apply skip_suffix|].
    rewrite <- H at 1. unfold trim.
    apply prefix_length, trimEnd_prefix. }
  split; [done|]. unfold trim in H. by rewrite Hs in H.
Qed.

Lemma trimEnd_snoc a c : isSpace c = false → trimEnd (a ++ [c]) = a ++ [c].
Proof.
  intros Hc. unfold trimEnd. rewrite reverse_app. simpl.
  rewrite Hc. by rewrite reverse_cons, reverse_involutive.
Qed.

Lemma notin_forallb (x : N) (l : list N) :
  forallb (λ c, negb (c =? x)) l = true → x ∉ l.
Proof.
  induction l as [|c l IH]; simpl; [intros _; apply not_elem_of_nil|].
  intros [Hc Hl]%andb_prop. apply not_elem_of_cons. split; [|by apply IH].
  intros ->. by rewrite N.eqb_refl in Hc.
Qed.

Lemma cleanValue_spec v :
  cleanValue v →
  Forall valueChar v ∧ (at_sign ∉ v) ∧ (percent ∉ v) ∧ trim v = v.
Proof.
  unfold cleanValue. intros [Hf Ht]%andb_True.
  apply bool_decide_unpack in Ht. split_and!; [| | |done].
  - apply Forall_forall. intros c Hc.
    apply forallb_True in Hf. rewrite Forall_forall in Hf.
    specialize (Hf c Hc). unfold cleanChar in Hf.
    apply andb_True in Hf as [[[H1 H2]%andb_True _]%andb_True _].
    split; by apply negb_True.
  - apply notin_forallb. apply Is_true_true in Hf.
    rewrite forallb_forall in *. intros c Hc. specialize (Hf c Hc).
    unfold cleanChar in Hf. by destruct (c =? at_sign); rewrite ?andb_false_r in *.
  - apply notin_forallb. apply Is_true_true in Hf.
    rewrite forallb_forall in *. intros c Hc. specialize (Hf c Hc).
    unfold cleanChar in Hf. by destruct (c =? percent); rewrite ?andb_false_r in *.
Qed.

Lemma cleanKey_spec k :
  cleanKey k → keyText k ∧ (percent ∉ k) ∧ trim k = k.
Proof.
  unfold cleanKey. intros [Hf Ht]%andb_True.
  apply bool_decide_unpack in Ht. split_and!; [| |done].
  - split; [|by apply trim_fixed_inv].
    apply Forall_forall. intros c Hc.
    apply forallb_True in Hf. rewrite Forall_forall in Hf.
    by specialize (Hf c Hc) as [? _]%andb_True.
  - apply notin_forallb. apply Is_true_true in Hf.
    rewrite forallb_forall in *. intros c Hc. specialize (Hf c Hc).
    by destruct (c =? percent); rewrite ?andb_false_r in *.
Qed.

Lemma optionalNames_facts n :
  n ∈ optionalNames →
  n ≠ [] ∧ Forall isWord n ∧ toLowerCase n = n ∧ n ≠ lit "__proto__"
  ∧ (at_sign ∉ n) ∧ (percent ∉ n)
  ∧ n ≠ lit "title" ∧ n ≠ lit "author" ∧ n ≠ lit "citeKey" ∧ n ≠ lit "type".
Proof.
  unfold optionalNames. rewrite !elem_of_cons, elem_of_nil.
  intros [->|[->|[->|[->|[->|[->|[->|[]]]]]]]];
    (split; [vm_compute; discriminate|]);
    (split; [repeat constructor|]);
    (split; [vm_compute; reflexivity|]);
    (split; [vm_compute; discriminate|]);
    (split; [by apply notin_forallb|]);
    (split; [by apply notin_forallb|]);
    repeat split; vm_compute; discriminate.
Qed.

Lemma optionalTail_nonwords (n : list N) :
  Forall (λ c, isWord c = false)
    (if decide (n = lit "publisher") then [] else lit ",").
Proof. case_decide; repeat constructor. Qed.

Lemma scanFields_optional (e : Entry) (ns : list (list N)) (rest : list N)
    (fields : Entry) :
  Forall (λ n, n ∈ optionalNames) ns →
  Forall (λ n, cleanOptional e n) ns →
  Forall (λ c, isWord c = false) rest →
  foldl setField fields
    (scanFields 0
       (concat ((λ name, optionalLine e name ++ [newline]) <$> ns) ++ rest))
  = foldl (optAssign e) fields ns.
Proof.
  intros Hns Hcl Hrest. revert fields.
  induction Hns as [|n ns Hn _ IH]; intros fields.
  - simpl. rewrite <- (app_nil_r rest), scanFields_nonwords by done. done.
  - apply Forall_cons in Hcl as [Hc Hcl].
    rewrite fmap_cons. cbn [concat foldl]. rewrite <- IH by done.
    rewrite <- (app_assoc _ _ rest).
    destruct (optionalNames_facts n Hn) as (Hne & Hw & Hl & Hp & _).
    unfold optAssign, optionalLine, optionalField, cleanOptional in *.
    destruct (e !! n) as [[|c v]|] eqn:E; cbn [truthy] in *.
    + done.
    + change (orEmpty (Some (c :: v))) with (c :: v).
      apply cleanValue_spec in Hc as (Hv & _ & _ & Ht).
      set (tl := if decide (n = lit "publisher") then [] else lit ",").
      set (R := concat _ ++ rest).
      assert (((lit "  " ++ n ++ lit "={" ++ (c :: v) ++ lit "}" ++ tl)
               ++ [newline]) ++ R
              = lit "  " ++ openField n [] [] lbrace (c :: v) ++ [rbrace]
                ++ (tl ++ [newline]) ++ R) as ->
        by (unfold openField; rewrite <- ?app_assoc; reflexivity).
      rewrite scanFields_nonwords by repeat constructor.
      destruct (scanFields_field n [] [] lbrace (c :: v) rbrace
                  ((tl ++ [newline]) ++ R)) as [len El]; try done.
      rewrite El. cbn [foldl].
      unfold setField at 2. cbn [f_name f_value]. rewrite Hl, Ht.
      rewrite decide_False by done.
      rewrite scanFields_nonwords; [done|].
      apply Forall_app. split; [apply optionalTail_nonwords|repeat constructor].
    + rewrite app_nil_r, <- !app_assoc.
      rewrite scanFields_nonwords by repeat constructor.
      change ([newline] ++ ?x) with ([newline] ++ x).
      by rewrite scanFields_nonwords by repeat constructor.
Qed.

Lemma parseFields_citationBody (e : Entry) :
  canonical e →
  parseFields (citationBody e)
  = foldl (optAssign e)
      (<[lit "author" := orEmpty (e !! lit "author")]>
         (<[lit "title" := orEmpty (e !! lit "title")]> ∅))
      optionalNames.
Proof.
  unfold canonical. intros Hc.
  destruct (e !! lit "type") as [t|]; [|done].
  destruct (e !! lit "citeKey") as [k|]; [|done].
  destruct (e !! lit "title") as [ti|] eqn:Eti; [|done].
  destruct (e !! lit "author") as [au|] eqn:Eau; [|done].
  repeat apply andb_True in Hc as [Hc ?].
  destruct (cleanValue_spec ti) as (Hti & _ & _ & Htt); [done|].
  destruct (cleanValue_spec au) as (Hau & _ & _ & Hta); [done|].
  unfold parseFields, citationBody. rewrite Eti, Eau.
  change (orEmpty (Some ti)) with ti. change (orEmpty (Some au)) with au.
  set (R := concat _ ++ lit "}").
  assert (lit "title={" ++ ti ++ lit "}," ++ [newline]
          ++ lit "  author={" ++ au ++ lit "}," ++ [newline] ++ R
          = openField (lit "title") [] [] lbrace ti ++ [rbrace]
            ++ (lit "," ++ [newline] ++ lit "  ")
            ++ openField (lit "author") [] [] lbrace au ++ [rbrace]
            ++ (lit "," ++ [newline]) ++ R) as ->
    by (unfold openField; rewrite <- ?app_assoc; reflexivity).
  destruct (scanFields_field (lit "title") [] [] lbrace ti rbrace
              ((lit "," ++ [newline] ++ lit "  ")
               ++ openField (lit "author") [] [] lbrace au ++ [rbrace]
               ++ (lit "," ++ [newline]) ++ R)) as [l1 E1];
    [done|repeat constructor|done|done|done|done|done|].
  rewrite E1. cbn [foldl].
  rewrite scanFields_nonwords by repeat constructor.
  destruct (scanFields_field (lit "author") [] [] lbrace au rbrace
              ((lit "," ++ [newline]) ++ R)) as [l2 E2];
    [done|repeat constructor|done|done|done|done|done|].
  rewrite E2. cbn [foldl].
  rewrite scanFields_nonwords by repeat constructor.
  unfold setField at 2 3. cbn [f_name f_value]. rewrite Htt, Hta.
  change (toLowerCase (lit "title")) with (lit "title").
  change (toLowerCase (lit "author")) with (lit "author").
  rewrite !decide_False by (vm_compute; discriminate).
  unfold R. apply scanFields_optional.
  - by apply Forall_forall.
  - by apply forallb_True.
  - repeat constructor.
Qed.

Lemma foldl_optAssign_keep (e : Entry) (ns : list (list N)) (base : Entry) i :
  base !! i = e !! i → foldl (optAssign e) base ns !! i = e !! i.
Proof.
  revert base. induction ns as [|n ns IH]; intros base H; [done|].
  cbn [foldl]. apply IH. unfold optAssign.
  destruct (e !! n) as [[|c v]|] eqn:E; cbn [truthy]; try done.
  change (orEmpty (Some (c :: v))) with (c :: v).
  destruct (decide (n = i)) as [->|Hn].
  - by rewrite lookup_insert_eq.
  - by rewrite lookup_insert_ne.
Qed.

Lemma foldl_optAssign_set (e : Entry) (ns : list (list N)) (base : Entry) i :
  i ∈ ns → truthy (e !! i) → foldl (optAssign e) base ns !! i = e !! i.
Proof.
  revert base. induction ns as [|n ns IH]; intros base Hi Ht.
  - by apply elem_of_nil in Hi.
  - cbn [foldl]. destruct (decide (n = i)) as [->|Hn].
    + apply foldl_optAssign_keep. unfold optAssign.
      destruct (e !! i) as [[|c v]|]; try done.
      cbn [truthy]. by rewrite lookup_insert_eq.
    + apply IH; [|done]. apply elem_of_cons in Hi as [->|Hi]; done.
Qed.

Lemma foldl_optAssign_other (e : Entry) (ns : list (list N)) (base : Entry) i :
  i ∉ ns ∨ truthy (e !! i) = false →
  foldl (optAssign e) base ns !! i = base !! i.
Proof.
  revert base. induction ns as [|n ns IH]; intros base H; [done|].
  cbn [foldl]. rewrite IH.
  - unfold optAssign. destruct (truthy (e !! n)) eqn:Et; [|done].
    apply lookup_insert_ne. intros ->.
    destruct H as [H|H]; [|congruence]. apply H. by left.
  - destruct H as [H|H]; [left|by right]. intros Hi. apply H. by right.
Qed.

Lemma mkEntry_citation (e : Entry) :
  canonical e →
  mkEntry (interpolate (e !! lit "type")) (interpolate (e !! lit "citeKey"))
    (parseFields (citationBody e)) = e.
Proof.
  intros Hc. rewrite parseFields_citationBody by done.
  unfold canonical in Hc.
  destruct (e !! lit "type") as [t|] eqn:Et; [|done].
  destruct (e !! lit "citeKey") as [k|] eqn:Ek; [|done].
  destruct (e !! lit "title") as [ti|] eqn:Eti; [|done].
  destruct (e !! lit "author") as [au|] eqn:Eau; [|done].
  repeat apply andb_True in Hc as [Hc ?].
  match goal with H : Is_true (bool_decide _) |- _ =>
    apply bool_decide_unpack in H; rename H into Hdom end.
  match goal with H : Is_true (forallb _ _) |- _ =>
    apply forallb_True in H; rewrite Forall_forall in H; rename H into Hopt end.
  cbn [interpolate orEmpty default from_option id].
  apply map_eq. intros i. unfold mkEntry. rewrite lookup_union.
  destruct (decide (i ∈ optionalNames)) as [Hi|Hi].
  - destruct (optionalNames_facts i Hi) as (_ & _ & _ & _ & _ & _ & ? & ? & ? & ?).
    rewrite !(lookup_insert_ne _ _ i), lookup_empty by done.
    specialize (Hopt i Hi). unfold cleanOptional in Hopt.
    destruct (e !! i) as [[|c v]|] eqn:Ei.
    + done.
    + rewrite foldl_optAssign_set by (by rewrite ?Ei). by rewrite Ei.
    + rewrite foldl_optAssign_other by (right; by rewrite Ei).
      by rewrite !lookup_insert_ne, lookup_empty by done.
  - rewrite foldl_optAssign_other by (by left).
    destruct (decide (i = lit "author")) as [->|Ha].
    { rewrite lookup_insert_eq, Eau. by destruct (_ !! _). }
    rewrite (lookup_insert_ne _ (lit "author")) by done.
    destruct (decide (i = lit "title")) as [->|Hti].
    { rewrite lookup_insert_eq, Eti. by destruct (_ !! _). }
    rewrite (lookup_insert_ne _ (lit "title")), lookup_empty by done.
    destruct (decide (i = lit "citeKey")) as [->|Hk].
    { by rewrite lookup_insert_eq, Ek. }
    rewrite (lookup_insert_ne _ (lit "citeKey")) by done.
    destruct (decide (i = lit "type")) as [->|Hty].
    { by rewrite lookup_insert_eq, Et. }
    rewrite (lookup_insert_ne _ (lit "type")), lookup_empty by done.
    destruct (e !! i) as [x|] eqn:Ei; [|done].
    specialize (Hdom i x Ei). cbn beta in Hdom.
    unfold templateNames in Hdom. rewrite !elem_of_cons in Hdom.
    naive_solver.
Qed.

Lemma optionalLines_without (x : N) (e : Entry) (ns : list (list N)) :
  x = at_sign ∨ x = percent →
  Forall (λ n, n ∈ optionalNames) ns →
  Forall (λ n, cleanOptional e n) ns →
  x ∉ concat ((λ name, optionalLine e name ++ [newline]) <$> ns).
Proof.
  intros Hx Hns Hcl. induction Hns as [|n ns Hn _ IH]; [apply not_elem_of_nil|].
  apply Forall_cons in Hcl as [Hc Hcl].
  rewrite fmap_cons. cbn [concat]. rewrite !not_elem_of_app.
  split; [|by apply IH]. split; [|by destruct Hx as [-> | ->]; apply notin_forallb].
  destruct (optionalNames_facts n Hn) as (_ & _ & _ & _ & Hat & Hpc & _).
  unfold optionalLine, optionalField, cleanOptional in *.
  destruct (e !! n) as [[|c v]|] eqn:E; cbn [truthy] in *.
  - done.
  - change (orEmpty (Some (c :: v))) with (c :: v).
    apply cleanValue_spec in Hc as (_ & Hvat & Hvpc & _).
    rewrite !not_elem_of_app. split_and!.
    + by destruct Hx as [-> | ->]; apply notin_forallb.
    + by destruct Hx as [-> | ->].
    + by destruct Hx as [-> | ->]; apply notin_forallb.
    + by destruct Hx as [-> | ->].
    + by destruct Hx as [-> | ->]; apply notin_forallb.
    + by case_decide; destruct Hx as [-> | ->]; apply notin_forallb.
  - rewrite app_nil_r. by destruct Hx as [-> | ->]; apply notin_forallb.
Qed.

Lemma citationBody_without (x : N) (e : Entry) :
  x = at_sign ∨ x = percent → canonical e → x ∉ citationBody e.
Proof.
  intros Hx Hc. unfold canonical in Hc.
  destruct (e !! lit "type") as [t|] eqn:Et; [|done].
  destruct (e !! lit "citeKey") as [k|] eqn:Ek; [|done].
  destruct (e !! lit "title") as [ti|] eqn:Eti; [|done].
  destruct (e !! lit "author") as [au|] eqn:Eau; [|done].
  repeat apply andb_True in Hc as [Hc ?].
  destruct (cleanValue_spec ti) as (_ & ? & ? & _); [done|].
  destruct (cleanValue_spec au) as (_ & ? & ? & _); [done|].
  unfold citationBody. rewrite Eti, Eau.
  change (orEmpty (Some ti)) with ti. change (orEmpty (Some au)) with au.
  rewrite !not_elem_of_app. split_and!;
    try (by destruct Hx as [-> | ->]; apply notin_forallb);
    try (by destruct Hx as [-> | ->]).
  apply optionalLines_without; [done|by apply Forall_forall|by apply forallb_True].
Qed.

Lemma citationBlock_wf (e : Entry) : canonical e → wfBlock (citationBlock e).
Proof.
  intros Hc. pose proof (citationBody_without at_sign e (or_introl eq_refl) Hc) as Hat.
  unfold canonical in Hc.
  destruct (e !! lit "type") as [t|] eqn:Et; [|done].
  destruct (e !! lit "citeKey") as [k|] eqn:Ek; [|done].
  destruct (e !! lit "title") as [ti|] eqn:Eti; [|done].
  destruct (e !! lit "author") as [au|] eqn:Eau; [|done].
  repeat apply andb_True in Hc as [Hc ?].
  destruct (accepted_words t) as (? & ? & _ & _); [exact (bool_decide_unpack _ Hc)|].
  destruct (cleanKey_spec k) as (? & _ & _); [done|].
  unfold wfBlock, citationBlock. cbn [b_pre b_type b_ws1 b_ws2 b_key b_ws3 b_body].
  rewrite Et, Ek. cbn [interpolate default from_option id].
  split_and!; try done; try (by repeat constructor).
  - unfold citationBody.
    assert (∀ x : list N, lit "}" ++ x = rbrace :: x) as Hr by done.
    rewrite !app_assoc. apply trimEnd_snoc. reflexivity.
Qed.

Lemma citationBlock_text (e : Entry) : blockText (citationBlock e) = bibtexText e.
Proof.
  unfold blockText, citationBlock, blockHeader, citationBody, bibtexText,
    optionalNames, optionalLine.
  cbn [b_pre b_type b_ws1 b_ws2 b_key b_ws3 b_body fmap list_fmap concat app].
  rewrite !decide_False by (vm_compute; discriminate).
  rewrite decide_True by reflexivity.
  repeat (progress (cbn [app]; rewrite <- ?app_assoc)). reflexivity.
Qed.

Lemma citationBlock_entry (e : Entry) :
  canonical e → blockEntry (citationBlock e) = Some e.
Proof.
  intros Hc. pose proof (mkEntry_citation e Hc) as Hm.
  unfold canonical in Hc. unfold blockEntry, citationBlock in *.
  cbn [b_type b_key b_body].
  destruct (e !! lit "type") as [t|] eqn:Et; [|done].
  destruct (e !! lit "citeKey") as [k|] eqn:Ek; [|done].
  destruct (e !! lit "title") as [ti|] eqn:Eti; [|done].
  destruct (e !! lit "author") as [au|] eqn:Eau; [|done].
  repeat apply andb_True in Hc as [Hc ?].
  destruct (accepted_words t) as (_ & _ & _ & Hl); [exact (bool_decide_unpack _ Hc)|].
  destruct (cleanKey_spec k) as (_ & _ & Hk); [done|].
  cbn [interpolate default from_option id] in *.
  rewrite Hl, Hk, Hm.
  by match goal with H : Is_true (includes _ _) |- _ =>
    apply Is_true_true in H; rewrite H end.
Qed.

Lemma bibtexText_no_percent (e : Entry) : canonical e → percent ∉ bibtexText e.
Proof.
  intros Hc. rewrite <- citationBlock_text.
  pose proof (citationBody_without percent e (or_intror eq_refl) Hc) as Hb.
  unfold canonical in Hc.
  destruct (e !! lit "type") as [t|] eqn:Et; [|done].
  destruct (e !! lit "citeKey") as [k|] eqn:Ek; [|done].
  destruct (e !! lit "title") as [ti|] eqn:Eti; [|done].
  destruct (e !! lit "author") as [au|] eqn:Eau; [|done].
  repeat apply andb_True in Hc as [Hc ?].
  destruct (cleanKey_spec k) as (_ & Hk & _); [done|].
  assert (percent ∉ t) as Ht.
  { match goal with H : Is_true (includes _ _) |- _ =>
      apply bool_decide_unpack in H; revert H end.
    unfold acceptedTypes. rewrite !elem_of_cons, elem_of_nil.
    intros [->|[->|[->|[->|[->|[->|[->|[->|[]]]]]]]]]; by apply notin_forallb. }
  unfold blockText, citationBlock, blockHeader.
  cbn [b_pre b_type b_ws1 b_ws2 b_key b_ws3 b_body].
  rewrite Et, Ek. cbn [interpolate default from_option id app].
  rewrite not_elem_of_cons, !not_elem_of_app, not_elem_of_cons, !not_elem_of_app,
    not_elem_of_cons.
  split_and!; try done. by apply notin_forallb.
Qed.

(** X20: the citation text can be read back.  For entries with an
    accepted type, a key without comma and percent sign, a title and an
    author, values that are trimmed and hold no quote, closing brace, line
    terminator, at sign or percent sign, optional fields that are not
    empty when they are there, and no property outside the template,
    [parse] on their citation texts, one after the other, holds exactly
    these entries, in their order. *)
Theorem citation_round_trip (es : list Entry) (p : BibtexParser) (h : Heap) :
  Forall canonical es →
  ∃ r p' h',
    parse (concat (bibtexText <$> es)) p h = (r, p', h') ∧ held p' h' = es.
Proof.
  intros Hes. eexists _, _, _. split; [apply parse_eq|].
  rewrite held_alloc.
  assert (percent ∉ concat (bibtexText <$> es)) as Hp.
  { induction Hes as [|e es He _ IH]; [apply not_elem_of_nil|].
    rewrite fmap_cons. cbn [concat]. apply not_elem_of_app.
    split; [by apply bibtexText_no_percent|done]. }
  unfold stripComments.
  rewrite <- (app_nil_r (concat _)), stripFrom_keep by done.
  simpl. rewrite app_nil_r. unfold execAll.
  replace (bibtexText <$> es) with (blockText <$> (citationBlock <$> es))
    by (rewrite <- list_fmap_compose; apply list_fmap_ext;
        intros; apply citationBlock_text).
  rewrite <- (app_nil_r (concat _)).
  rewrite scanEntries_blocks; [|by eapply Forall_fmap, Forall_impl;
    [done|apply citationBlock_wf]|done].
  induction Hes as [|e es He _ IH]; [done|].
  rewrite fmap_cons. cbn [omap list_omap].
  rewrite citationBlock_entry by done. f_equal. apply IH.
  intros Hin. apply Hp. rewrite fmap_cons. cbn [concat]. apply elem_of_app. by right.
Qed.

Lemma citation_round_trip_witness :
  Forall canonical [sampleCitation]
  ∧ ∃ r p' h',
      parse (concat (bibtexText <$> [sampleCitation])) usedParser usedHeap
      = (r, p', h') ∧ held p' h' = [sampleCitation].
Proof.
  split.
  - constructor; [vm_compute; exact I|constructor].
  - apply (citation_round_trip [sampleCitation]).
    constructor; [vm_compute; exact I|constructor].
Defined.




(** ** The year groups of the publication page *)

Lemma groupFrom_throw (g : gmap (list N) (list Entry)) (pubs : list Entry) :
  (∀ y, y ∈ objectPrototypeNames → g !! y = None) →
  Exists inheritedYear pubs → groupFrom g pubs = Throw pushNotAFunction.
Proof.
  intros Hg Hex. revert g Hg. induction Hex as [pub pubs Hp|pub pubs _ IH]; intros g Hg.
  - cbn [groupFrom]. unfold groupStep.
    rewrite (Hg _ (bool_decide_unpack _ Hp)).
    unfold inheritedYear in Hp. by destruct (includes _ _).
  - cbn [groupFrom]. unfold groupStep.
    destruct (g !! yearKey pub) as [grp|] eqn:E.
    + apply IH. intros y Hy. rewrite lookup_insert_ne; [by apply Hg|].
      intros <-. specialize (Hg _ Hy). congruence.
    + unfold includes. case_bool_decide as Hin; [done|].
      apply IH. intros y Hy. rewrite lookup_insert_ne; [by apply Hg|].
      by intros <-.
Qed.

Lemma groupFrom_groups (g : gmap (list N) (list Entry)) (pubs : list Entry) :
  Forall (λ pub, ¬ inheritedYear pub) pubs →
  ∃ g', groupFrom g pubs = Return g'
        ∧ ∀ y, g' !! y
               = match g !! y, filter (inYear y) pubs with
                 | None, [] => None
                 | o, l => Some (default [] o ++ l)
                 end.
Proof.
  intros Hp. revert g. induction Hp as [|pub pubs Hpub _ IH]; intros g.
  - exists g. split; [done|]. intros y. rewrite filter_nil.
    destruct (g !! y); simpl; by rewrite ?app_nil_r.
  - cbn [groupFrom]. unfold groupStep.
    destruct (g !! yearKey pub) as [grp|] eqn:E.
    + destruct (IH (<[yearKey pub := grp ++ [pub]]> g)) as (g' & -> & Hg').
      exists g'. split; [done|]. intros y. rewrite Hg', filter_cons.
      destruct (decide (inYear y pub)) as [Hy|Hy]; unfold inYear in Hy.
      * subst y. rewrite lookup_insert_eq, E. simpl.
        rewrite <- app_assoc. simpl. by destruct (filter _ pubs).
      * by rewrite lookup_insert_ne.
    + unfold inheritedYear in Hpub. destruct (includes _ _); [done|].
      destruct (IH (<[yearKey pub := [pub]]> g)) as (g' & -> & Hg').
      exists g'. split; [done|]. intros y. rewrite Hg', filter_cons.
      destruct (decide (inYear y pub)) as [Hy|Hy]; unfold inYear in Hy.
      * subst y. rewrite lookup_insert_eq, E. simpl. by destruct (filter _ pubs).
      * by rewrite lookup_insert_ne.
Qed.

(** X21: the grouping by year throws a TypeError exactly when the year
    of some publication is a property name that every object inherits
    (such as [constructor] or [toString]). *)
Theorem groupByYear_throws (pubs : list Entry) :
  groupByYear pubs = Throw pushNotAFunction ↔ Exists inheritedYear pubs.
Proof.
  split.
  - intros Ht. destruct (decide (Exists inheritedYear pubs)) as [|Hn]; [done|].
    apply not_Exists_Forall in Hn; [|apply _].
    destruct (groupFrom_groups ∅ pubs Hn) as (g & Hg & _).
    unfold groupByYear in Ht. congruence.
  - apply groupFrom_throw. intros y _. apply lookup_empty.
Qed.

(** X22: when no year is an inherited property name, the grouping by
    year returns, and the group of a year holds exactly the publications
    of that year, in the order of the list; no group is empty, and every
    publication is in the group of its year. *)
Theorem groupByYear_partition (pubs : list Entry) :
  Forall (λ pub, ¬ inheritedYear pub) pubs →
  ∃ g, groupByYear pubs = Return g
       ∧ (∀ y, g !! y = match filter (inYear y) pubs with
                        | [] => None
                        | l => Some l
                        end)
       ∧ (∀ pub, pub ∈ pubs → ∃ l, g !! yearKey pub = Some l ∧ pub ∈ l).
Proof.
  intros Hp. destruct (groupFrom_groups ∅ pubs Hp) as (g & Hg & Hl).
  exists g. split; [done|].
  assert (∀ y, g !! y = match filter (inYear y) pubs with
                        | [] => None | l => Some l end) as Hy.
  { intros y. rewrite Hl, lookup_empty. by destruct (filter _ pubs). }
  split; [done|]. intros pub Hin.
  assert (pub ∈ filter (inYear (yearKey pub)) pubs) as Hf
    by (by apply list_elem_of_filter).
  rewrite Hy. destruct (filter _ pubs) as [|x l]; [by apply elem_of_nil in Hf|].
  by eexists.
Qed.

Lemma groupByYear_partition_witness :
  Forall (λ pub, ¬ inheritedYear pub) yearSamples
  ∧ ∃ g, groupByYear yearSamples = Return g
       ∧ (∀ y, g !! y = match filter (inYear y) yearSamples with
                        | [] => None
                        | l => Some l
                        end)
       ∧ (∀ pub, pub ∈ yearSamples → ∃ l, g !! yearKey pub = Some l ∧ pub ∈ l).
Proof.
  assert (Forall (λ pub, ¬ inheritedYear pub) yearSamples) as H
    by (repeat (constructor; [vm_compute; exact id|]); constructor).
  split; [exact H|]. exact (groupByYear_partition yearSamples H).
Defined.
